(** * A shallow embedding of the stumpgrinder market simulator

    The development follows the Python sources:
    - [util/OrderBook.py]      : module [OrderBook]
    - [agent/FinancialAgent.py] : module [FinancialAgent]
    - [agent/TradingAgent.py]  : module [TradingAgent]
    - [agent/ZeroIntelligenceAgent.py] : module [ZeroIntelligenceAgent]
    - [util/oracle/MeanRevertingOracle.py] : module [MeanRevertingOracle]
    - [Kernel.py]              : module [Kernel]

    Money is integer cents and time is integer nanoseconds, both [Z].
    A Python exception is the [Raise] outcome of a computation. *)

From Stdlib Require Import ZArith List Bool String Lia.
From stdpp Require Import base option list gmap strings.
Import ListNotations.

Local Open Scope Z_scope.

(** ** Python exceptions and fallible results

    [NotATime] is no exception of Python.  It marks the one place where the
    code goes on with a value that integer time has no room for, the pandas
    timestamp [NaT] as the delivery time of a message ([Kernel.sendMessage]
    before the clock is started); the model follows the code no further. *)

Inductive exn : Type :=
| IndexError
| KeyError
| ValueError
| AttributeError
| TypeError
| ZeroDivisionError
| SystemExit
| NotATime.

Inductive outcome (A : Type) : Type :=
| Ok (a : A)
| Raise (e : exn).

Arguments Ok {A} a.
Arguments Raise {A} e.

#[global] Instance outcome_ret : MRet outcome := fun A a => Ok a.

#[global] Instance outcome_bind : MBind outcome := fun A B f m =>
  match m with
  | Ok a => f a
  | Raise e => Raise e
  end.

(** [for x in l: f(x)], for an [f] that is called for what it may raise. *)
Fixpoint each {A : Type} (f : A -> outcome unit) (l : list A) : outcome unit :=
  match l with
  | [] => Ok tt
  | x :: more => _ ← f x; each f more
  end.

(** ** Floats

    Python's binary floating point is not modelled.  The three ways in which
    the order book takes an integer through a float are parameters, each
    with the exceptions it may raise, and nothing is assumed of them:
    - [float_avg a b] stands for [int(round(a / b))] with [b <> 0]: the
      quotient is a float, which is not the exact quotient for large
      operands and is an [OverflowError] beyond the floats, and it is
      rounded half to even;
    - [format_f x] stands for formatting the integer [x] with [{:0.2f}] or
      [{:0.4f}], which converts it to a float and is an [OverflowError] when
      it is too large;
    - [hundredth x] stands for [x / 100], an [OverflowError] when the
      quotient is too large for a float.
    The texts and floats they produce only go to [print] and to the log and
    are not kept. *)
Record Floats : Type := mkFloats {
  float_avg : Z -> Z -> outcome Z;
  format_f  : Z -> outcome unit;
  hundredth : Z -> outcome unit
}.

(** ** Dollars *)

Module FinancialAgent.

(** [dollarize], the function outside the class, on what the order book
    passes to it: an integer is divided by 100 and formatted; on a value that
    is neither an integer nor a list, [None] here, the code prints an error
    and leaves through [sys.exit()]. *)
Definition dollarize (fl : Floats) (cents : option Z) : outcome unit :=
  match cents with
  | Some c => hundredth fl c
  | None => Raise SystemExit
  end.

End FinancialAgent.

(** ** Limit orders

    Modelled from the spec: the class [LimitOrder] lives in
    [util/order/LimitOrder.py], which is not among the sources.  Its fields are
    the ones the order book and the trading agent read and write.  The text
    of an order, which the prints ask of the class, is taken to be produced
    without an exception. *)

Record LimitOrder : Type := mkOrder {
  order_id     : nat;
  agent_id     : nat;
  time_placed  : Z;
  symbol       : string;
  quantity     : Z;
  is_buy_order : bool;
  limit_price  : Z;
  fill_price   : option Z
}.

Definition set_quantity (o : LimitOrder) (q : Z) : LimitOrder :=
  mkOrder (order_id o) (agent_id o) (time_placed o) (symbol o) q
          (is_buy_order o) (limit_price o) (fill_price o).

Definition set_fill_price (o : LimitOrder) (p : option Z) : LimitOrder :=
  mkOrder (order_id o) (agent_id o) (time_placed o) (symbol o) (quantity o)
          (is_buy_order o) (limit_price o) p.

(** Message bodies the exchange sends back to traders. *)
Inductive ExchangeMsg : Type :=
| ORDER_EXECUTED  (o : LimitOrder)
| ORDER_ACCEPTED  (o : LimitOrder)
| ORDER_CANCELLED (o : LimitOrder).

(** ** The mean-reverting oracle *)

Module MeanRevertingOracle.

(** A fundamental value series: one integer value per nanosecond, the first
    at [s_start].  It stands for the [pd.Series] that
    [generate_fundamental_value_series] builds over
    [date_range(mkt_open, mkt_close, closed='left', freq='N')]; the random
    walk that fills it is floating-point and is not modelled. *)
Record Series : Type := mkSeries {
  s_start  : Z;
  s_values : list Z
}.

(** [series.loc[t]]: a time outside the index raises [KeyError]. *)
Definition loc (s : Series) (time : Z) : outcome Z :=
  if time <? s_start s then Raise KeyError
  else match s_values s !! Z.to_nat (time - s_start s) with
       | Some v => Ok v
       | None => Raise KeyError
       end.

Record t : Type := mkOracle {
  mkt_open  : Z;
  mkt_close : Z;
  r         : gmap string Series
}.

(** [self.r[symbol]]. *)
Definition series (o : t) (sym : string) : outcome Series :=
  match r o !! sym with
  | Some s => Ok s
  | None => Raise KeyError
  end.

(** [self.r[symbol].loc[time]]. *)
Definition series_at (o : t) (sym : string) (time : Z) : outcome Z :=
  s ← series o sym; loc s time.

(** [observePrice].  [draw r_t sigma_n] stands for the noisy observation
    [int(round(np.random.normal(loc=r_t, scale=sqrt(sigma_n))))]; [sqrt] of a
    negative variance raises [ValueError]. *)
Definition observePrice (draw : Z -> Z -> Z) (o : t) (sym : string)
           (currentTime : Z) (sigma_n : Z) : outcome Z :=
  r_t ← (if mkt_close o <=? currentTime
         then series_at o sym (mkt_close o - 1)
         else series_at o sym currentTime);
  if sigma_n =? 0 then Ok r_t
  else if sigma_n <? 0 then Raise ValueError
  else Ok (draw r_t sigma_n).

(** [getDailyOpenPrice].  The constructor stores [mkt_open], so the branch
    that remembers the argument when the oracle has no [mkt_open] yet is
    not taken, and the value is read at the oracle's own [mkt_open]. *)
Definition getDailyOpenPrice (o : t) (sym : string) (mkt_open_arg : option Z) : outcome Z :=
  series_at o sym (mkt_open o).

(** The series the constructor builds cover the trading day exactly. *)
Definition covers_day (o : t) : Prop :=
  mkt_open o < mkt_close o /\
  forall sym s, r o !! sym = Some s ->
    s_start s = mkt_open o /\
    Z.of_nat (length (s_values s)) = mkt_close o - mkt_open o.

End MeanRevertingOracle.

(** ** The order book *)

Module OrderBook.

(** A price level: the orders resting at one price, oldest first. *)
Definition Level : Type := list LimitOrder.

(** One side of the book: price levels, best price first. *)
Definition Side : Type := list Level.

(** Modelled from the spec: the owner of a book is the exchange agent
    ([agent/ExchangeAgent.py], not among the sources).  The book reads two
    things from it, its [currentTime] and its [oracle], and calls two of its
    methods: [sendMessage], whose arguments are collected in [r_msgs] below,
    and [logEvent], whose lines are not kept.  Both are taken to return. *)
Record Owner : Type := mkOwner {
  owner_currentTime : Z;
  owner_oracle      : MeanRevertingOracle.t
}.

(** [book_log] keeps, per call, the two depth lists ([getInsideBids],
    [getInsideAsks]) that the logged row is built from.  [owner] is the
    owner as the book finds it when a method runs. *)
Record t : Type := mkBook {
  owner       : Owner;
  book_symbol : string;
  bids        : Side;
  asks        : Side;
  last_trade  : option Z;
  book_log    : list (list (Z * Z) * list (Z * Z))
}.

(** [OrderBook.__init__]. *)
Definition init (o : Owner) (sym : string) : t := mkBook o sym [] [] None [].

Definition set_bids (b : t) (s : Side) : t :=
  mkBook (owner b) (book_symbol b) s (asks b) (last_trade b) (book_log b).

Definition set_asks (b : t) (s : Side) : t :=
  mkBook (owner b) (book_symbol b) (bids b) s (last_trade b) (book_log b).

(** What happens to a book from outside its methods: the owner's clock and
    oracle move on, and [last_trade] is an attribute the owner assigns. *)
Definition set_owner (b : t) (o : Owner) : t :=
  mkBook o (book_symbol b) (bids b) (asks b) (last_trade b) (book_log b).

Definition set_last_trade (b : t) (p : option Z) : t :=
  mkBook (owner b) (book_symbol b) (bids b) (asks b) p (book_log b).

(** The side an incoming order rests on, and the side it trades against. *)
Definition own_side (b : t) (order : LimitOrder) : Side :=
  if is_buy_order order then bids b else asks b.

Definition opp_side (b : t) (order : LimitOrder) : Side :=
  if is_buy_order order then asks b else bids b.

Definition set_own_side (b : t) (order : LimitOrder) (s : Side) : t :=
  if is_buy_order order then set_bids b s else set_asks b s.

Definition set_opp_side (b : t) (order : LimitOrder) (s : Side) : t :=
  if is_buy_order order then set_asks b s else set_bids b s.

(** [isMatch]. *)
Definition isMatch (order o : LimitOrder) : bool :=
  if Bool.eqb (is_buy_order order) (is_buy_order o) then false
  else if is_buy_order order && (limit_price o <=? limit_price order) then true
  else if negb (is_buy_order order) && (limit_price order <=? limit_price o) then true
  else false.

(** [isBetterPrice]. *)
Definition isBetterPrice (order o : LimitOrder) : bool :=
  if negb (Bool.eqb (is_buy_order order) (is_buy_order o)) then false
  else if is_buy_order order && (limit_price o <? limit_price order) then true
  else if negb (is_buy_order order) && (limit_price order <? limit_price o) then true
  else false.

(** [isEqualPrice]. *)
Definition isEqualPrice (order o : LimitOrder) : bool :=
  limit_price order =? limit_price o.

(** The [for i, o in enumerate(book)] loop of [executeOrder]: the first level
    whose head matches is hit; the head is popped when the incoming order
    covers it, and only decremented otherwise.  [o[0]] on an empty level is
    an [IndexError]. *)
Fixpoint execute_scan (order : LimitOrder) (book : Side)
  : outcome (option (LimitOrder * Side)) :=
  match book with
  | [] => Ok None
  | lvl :: rest =>
      match lvl with
      | [] => Raise IndexError
      | o0 :: tl =>
          if isMatch order o0 then
            if quantity o0 <=? quantity order then
              let matched_order := o0 in
              let book' := match tl with [] => rest | _ => tl :: rest end in
              Ok (Some (set_fill_price matched_order (Some (limit_price matched_order)), book'))
            else
              let matched_order := set_quantity o0 (quantity order) in
              let o0' := set_quantity o0 (quantity o0 - quantity matched_order) in
              Ok (Some (set_fill_price matched_order (Some (limit_price matched_order)),
                        (o0' :: tl) :: rest))
          else
            r ← execute_scan order rest;
            match r with
            | Some (m, rest') => Ok (Some (m, lvl :: rest'))
            | None => Ok None
            end
      end
  end.

(** [executeOrder]: the matched order (if any) and the book after it. *)
Definition executeOrder (b : t) (order : LimitOrder)
  : outcome (option LimitOrder * t) :=
  match opp_side b order with
  | [] => Ok (None, b)
  | [] :: _ => Raise IndexError
  | (o0 :: _) :: _ =>
      if negb (isMatch order o0) then Ok (None, b)
      else
        r ← execute_scan order (opp_side b order);
        match r with
        | Some (m, s) => Ok (Some m, set_opp_side b order s)
        | None => Ok (None, b)
        end
  end.

(** The [for] loop of [enterOrder]; when no level is better or equal the
    loop ends without inserting. *)
Fixpoint enter_scan (order : LimitOrder) (book : Side) : outcome Side :=
  match book with
  | [] => Ok []
  | lvl :: rest =>
      match lvl with
      | [] => Raise IndexError
      | o0 :: _ =>
          if isBetterPrice order o0 then Ok ([order] :: lvl :: rest)
          else if isEqualPrice order o0 then Ok ((lvl ++ [order]) :: rest)
          else rest' ← enter_scan order rest; Ok (lvl :: rest')
      end
  end.

(** [enterOrder]. *)
Definition enterOrder (b : t) (order : LimitOrder) : outcome t :=
  let book := own_side b order in
  match last book with
  | None => Ok (set_own_side b order [[order]])
  | Some [] => Raise IndexError
  | Some (w :: _) =>
      if negb (isBetterPrice order w) && negb (isEqualPrice order w)
      then Ok (set_own_side b order (book ++ [[order]]))
      else s ← enter_scan order book; Ok (set_own_side b order s)
  end.

(** The inner loop of [cancelOrder]: the first order of the level with the
    given id is removed. *)
Fixpoint cancel_in_level (oid : nat) (lvl : Level) : option (LimitOrder * Level) :=
  match lvl with
  | [] => None
  | co :: tl =>
      if Nat.eqb oid (order_id co) then Some (co, tl)
      else match cancel_in_level oid tl with
           | Some (c, tl') => Some (c, co :: tl')
           | None => None
           end
  end.

(** The outer loop of [cancelOrder]. *)
Fixpoint cancel_scan (order : LimitOrder) (book : Side)
  : outcome (option (LimitOrder * Side)) :=
  match book with
  | [] => Ok None
  | lvl :: rest =>
      match lvl with
      | [] => Raise IndexError
      | o0 :: _ =>
          let continue :=
            r ← cancel_scan order rest;
            match r with
            | Some (c, rest') => Ok (Some (c, lvl :: rest'))
            | None => Ok None
            end in
          if isEqualPrice order o0 then
            match cancel_in_level (order_id order) lvl with
            | Some (c, []) => Ok (Some (c, rest))
            | Some (c, lvl') => Ok (Some (c, lvl' :: rest))
            | None => continue
            end
          else continue
      end
  end.

(** [cancelOrder]: the book afterwards and the messages sent. *)
Definition cancelOrder (b : t) (order : LimitOrder)
  : outcome (t * list (nat * ExchangeMsg)) :=
  r ← cancel_scan order (own_side b order);
  match r with
  | Some (c, s) => Ok (set_own_side b order s, [(agent_id order, ORDER_CANCELLED c)])
  | None => Ok (b, [])
  end.

(** [getInsideBids] and [getInsideAsks] at the default depth: one
    (price, total shares) pair per level. *)
Fixpoint inside (s : Side) : outcome (list (Z * Z)) :=
  match s with
  | [] => Ok []
  | [] :: _ => Raise IndexError
  | (o0 :: tl) :: rest =>
      more ← inside rest;
      Ok ((limit_price o0, fold_left (fun qty o => qty + quantity o) (o0 :: tl) 0) :: more)
  end.

Definition getInsideBids (b : t) : outcome (list (Z * Z)) := inside (bids b).
Definition getInsideAsks (b : t) : outcome (list (Z * Z)) := inside (asks b).

(** What a call of [handleLimitOrder] leaves behind: the book, the messages
    handed to the owner's [sendMessage] in order, and the list [executed] of
    (quantity, fill price) pairs. *)
Record result : Type := mkResult {
  r_book     : t;
  r_msgs     : list (nat * ExchangeMsg);
  r_executed : list (Z * option Z)
}.

(** The [while matching] loop.  [fuel] bounds the number of iterations;
    [None] means the bound was reached. *)
Fixpoint match_loop (fuel : nat) (b : t) (order : LimitOrder)
         (msgs : list (nat * ExchangeMsg)) (executed : list (Z * option Z))
  : option (outcome result) :=
  match fuel with
  | O => None
  | S fuel' =>
      match executeOrder b order with
      | Raise e => Some (Raise e)
      | Ok (Some matched_order, b1) =>
          let filled_order :=
            set_fill_price (set_quantity order (quantity matched_order))
                           (fill_price matched_order) in
          let order' := set_quantity order (quantity order - quantity filled_order) in
          let msgs' := msgs ++ [(agent_id order', ORDER_EXECUTED filled_order);
                                (agent_id matched_order, ORDER_EXECUTED matched_order)] in
          let executed' := executed ++ [(quantity filled_order, fill_price filled_order)] in
          if quantity order' <=? 0
          then Some (Ok (mkResult b1 msgs' executed'))
          else match_loop fuel' b1 order' msgs' executed'
      | Ok (None, b1) =>
          match enterOrder b1 order with
          | Raise e => Some (Raise e)
          | Ok b2 =>
              Some (Ok (mkResult b2 (msgs ++ [(agent_id order, ORDER_ACCEPTED order)])
                                 executed))
          end
      end
  end.

(** Number of orders resting on a side. *)
Definition side_size (s : Side) : nat := length (concat s).

(** The bookkeeping after the loop: best quotes are read for the log, the
    last trade becomes the volume-weighted average fill price, and the depth
    of both sides is appended to [book_log]. *)
Definition best_price (s : Side) : outcome (option Z) :=
  match s with
  | [] => Ok None
  | [] :: _ => Raise IndexError
  | (o0 :: _) :: _ => Ok (Some (limit_price o0))
  end.

Fixpoint executed_totals (executed : list (Z * option Z)) (trade_qty trade_price : Z)
  : outcome (Z * Z) :=
  match executed with
  | [] => Ok (trade_qty, trade_price)
  | (q, Some p) :: more => executed_totals more (trade_qty + q) (trade_price + p * q)
  | (_, None) :: _ => Raise TypeError
  end.

Section Matching.

Variable fl : Floats.

(** [prettyPrint].  The arguments of the second [format] are evaluated first,
    so the oracle is asked for its noiseless observation at the owner's time
    and the value is divided by 100; then [last_trade] is formatted with
    [{:0.2f}], a [TypeError] while it is [None]; then the asks are listed,
    worst price first, and then the bids, each price divided by 100.  The
    text itself goes to [print]. *)
Definition prettyPrint (b : t) : outcome unit :=
  v ← MeanRevertingOracle.observePrice (fun r_t _ => r_t) (owner_oracle (owner b))
        (book_symbol b) (owner_currentTime (owner b)) 0;
  _ ← hundredth fl v;
  match last_trade b with
  | None => Raise TypeError
  | Some p =>
      _ ← format_f fl p;
      la ← getInsideAsks b;
      _ ← each (fun qv => hundredth fl (fst qv)) (rev la);
      lb ← getInsideBids b;
      each (fun qv => hundredth fl (fst qv)) lb
  end.

(** The last trade after the loop.  The code goes through [executed] once,
    printing each fill with [dollarize] before it adds it to the totals; the
    two are separate passes here, which raises the same exception, because
    [dollarize] has left on a fill price [None] before it could be
    multiplied. *)
Definition new_last_trade (b : t) (executed : list (Z * option Z)) : outcome (option Z) :=
  match executed with
  | [] => Ok (last_trade b)
  | _ => _ ← each (FinancialAgent.dollarize fl) (map snd executed);
         '(trade_qty, trade_price) ← executed_totals executed 0 0;
         if trade_qty =? 0 then Raise ZeroDivisionError
         else avg_price ← float_avg fl trade_price trade_qty;
              _ ← format_f fl avg_price;
              Ok (Some avg_price)
  end.

(** [dollarize] of the best price of a side, if the side has one. *)
Definition log_best (best : option Z) : outcome unit :=
  match best with
  | Some p => FinancialAgent.dollarize fl (Some p)
  | None => Ok tt
  end.

Definition after_loop (r : result) : outcome result :=
  let b := r_book r in
  best_bid ← best_price (bids b);
  _ ← log_best best_bid;
  best_ask ← best_price (asks b);
  _ ← log_best best_ask;
  lt ← new_last_trade b (r_executed r);
  db ← getInsideBids b;
  da ← getInsideAsks b;
  Ok (mkResult (mkBook (owner b) (book_symbol b) (bids b) (asks b) lt
                       (book_log b ++ [(db, da)]))
               (r_msgs r) (r_executed r)).

(** [handleLimitOrder].  An order for another symbol, or with a quantity
    that is not positive, is discarded; quantities are integers here, so the
    test that the quantity is whole has nothing to reject.  The book is
    printed before the loop and once more at the end.  The loop pops a
    resting order on every iteration but its last, so one more iteration than
    there are resting orders on the opposite side is enough. *)
Definition handleLimitOrder (b : t) (order : LimitOrder) : option (outcome result) :=
  if negb (String.eqb (symbol order) (book_symbol b)) then Some (Ok (mkResult b [] []))
  else if quantity order <=? 0 then Some (Ok (mkResult b [] []))
  else
    match prettyPrint b with
    | Raise e => Some (Raise e)
    | Ok _ =>
        match match_loop (S (side_size (opp_side b order))) b order [] [] with
        | None => None
        | Some (Raise e) => Some (Raise e)
        | Some (Ok r) =>
            Some (r' ← after_loop r; _ ← prettyPrint (r_book r'); Ok r')
        end
    end.

(** *** Well-formed books *)

(** [better buy p q]: on the given side, price [p] has priority over [q]. *)
Definition better (buy : bool) (p q : Z) : Prop :=
  if buy then q < p else p < q.

Definition lprice (l : Level) : Z :=
  match l with
  | o :: _ => limit_price o
  | [] => 0
  end.

Definition order_ok (buy : bool) (p : Z) (o : LimitOrder) : Prop :=
  is_buy_order o = buy /\ limit_price o = p /\ 0 < quantity o.

(** A level is never empty, and its orders agree on side and price. *)
Definition level_ok (buy : bool) (l : Level) : Prop :=
  l <> [] /\ Forall (order_ok buy (lprice l)) l.

Fixpoint sorted_prices (buy : bool) (ps : list Z) : Prop :=
  match ps with
  | [] => True
  | p :: rest => Forall (better buy p) rest /\ sorted_prices buy rest
  end.

Definition side_wf (buy : bool) (s : Side) : Prop :=
  Forall (level_ok buy) s /\ sorted_prices buy (map lprice s).

Definition head_price (s : Side) : option Z :=
  match s with
  | (o :: _) :: _ => Some (limit_price o)
  | _ => None
  end.

(** The best bid lies strictly below the best ask. *)
Definition noncross (b : t) : Prop :=
  forall pb pa, head_price (bids b) = Some pb -> head_price (asks b) = Some pa -> pb < pa.

Definition book_wf (b : t) : Prop :=
  side_wf true (bids b) /\ side_wf false (asks b) /\ noncross b.

(** The books a run can hold: a new book, then, in any order, the owner
    moving on, the owner assigning [last_trade], and calls of
    [handleLimitOrder] and [cancelOrder] that return.  Nothing in the
    sources catches an exception, so a call that raises ends the run and no
    later call sees the book it leaves. *)
Inductive reachable : t -> Prop :=
| reach_init o sym : reachable (init o sym)
| reach_owner b o : reachable b -> reachable (set_owner b o)
| reach_last_trade b p : reachable b -> reachable (set_last_trade b p)
| reach_limit b order r :
    reachable b -> handleLimitOrder b order = Some (Ok r) -> reachable (r_book r)
| reach_cancel b order b' msgs :
    reachable b -> cancelOrder b order = Ok (b', msgs) -> reachable b'.

(** An order the book accepts for matching. *)
Definition valid_order (b : t) (order : LimitOrder) : Prop :=
  symbol order = book_symbol b /\ 0 < quantity order.

(** The messages of one match: the fill reported to the incoming order's
    agent, then the fill reported to the resting order's agent. *)
Definition exec_msgs (order : LimitOrder) (m : LimitOrder * Z) : list (nat * ExchangeMsg) :=
  let '(x, q) := m in
  [(agent_id order,
    ORDER_EXECUTED (set_fill_price (set_quantity order q) (Some (limit_price x))));
   (agent_id x,
    ORDER_EXECUTED (set_fill_price (set_quantity x q) (Some (limit_price x))))].

(** *** Vocabulary of the statements *)

(** What [enter_scan] and [enterOrder] promise about the side they return. *)
Definition entered (buy : bool) (order : LimitOrder) (s s' : Side) : Prop :=
  side_wf buy s' /\
  (forall p, In p (map lprice s') -> p = limit_price order \/ In p (map lprice s)) /\
  (forall p, head_price s' = Some p -> p = limit_price order \/ head_price s = Some p) /\
  (forall pre lvl post, s = pre ++ lvl :: post -> lprice lvl = limit_price order ->
     s' = pre ++ (lvl ++ [order]) :: post).

(** A resting order hit for all of its shares. *)
Definition full_hit (m : LimitOrder * Z) : Prop := snd m = quantity (fst m).

(** What the loop reports for one hit in the list [executed]. *)
Definition exec_entry (m : LimitOrder * Z) : Z * option Z :=
  (snd m, Some (limit_price (fst m))).

(** The trace of the loop: [hits] are the resting orders matched, in order,
    each with the number of shares filled; [k] is the part of the opposite
    side that is never looked at; [accepted] is the final acceptance message,
    if the order came to rest. *)
Definition loop_trace (b : t) (order : LimitOrder)
           (msgs : list (nat * ExchangeMsg)) (ex : list (Z * option Z)) (r : result)
           (hits : list (LimitOrder * Z)) (k : list LimitOrder)
           (accepted : list (nat * ExchangeMsg)) : Prop :=
  concat (opp_side b order) = map fst hits ++ k /\
  r_msgs r = msgs ++ flat_map (exec_msgs order) hits ++ accepted /\
  r_executed r = ex ++ map exec_entry hits /\
  ((Forall full_hit hits /\ concat (opp_side (r_book r) order) = k) \/
   (exists hits0 h q,
      hits = hits0 ++ [(h, q)] /\ Forall full_hit hits0 /\ 0 < q < quantity h /\
      concat (opp_side (r_book r) order) = set_quantity h (quantity h - q) :: k)) /\
  ((accepted = [] /\ own_side (r_book r) order = own_side b order) \/
   (exists b_mid q,
      accepted = [(agent_id order, ORDER_ACCEPTED (set_quantity order q))] /\
      0 < q /\
      own_side b_mid order = own_side b order /\
      exists b_end,
        enterOrder b_mid (set_quantity order q) = Ok b_end /\
        own_side b_end order = own_side (r_book r) order)).

(** [apart buy own opp]: the best price on the incoming order's own side does
    not reach the best price on the opposite side. *)
Definition apart (buy : bool) (own opp : Side) : Prop :=
  forall po pp, head_price own = Some po -> head_price opp = Some pp ->
                if buy then po < pp else pp < po.

(** Every entry of [executed] has a positive quantity and a price. *)
Definition pos_exec (e : Z * option Z) : Prop := 0 < fst e /\ is_Some (snd e).

(** *** Further vocabulary: volumes, limits, ids *)

(** Shares resting in a list of orders, and on a side of the book. *)
Definition volume (l : list LimitOrder) : Z :=
  fold_right (fun o acc => quantity o + acc) 0 l.

Definition side_volume (s : Side) : Z := volume (concat s).

(** Shares reported in the list [executed]. *)
Definition executed_volume (ex : list (Z * option Z)) : Z :=
  fold_right (fun e acc => fst e + acc) 0 ex.

(** A price the incoming order agreed to: at most its limit for a buy, at
    least its limit for a sell. *)
Definition honours_limit (order : LimitOrder) (p : Z) : Prop :=
  if is_buy_order order then p <= limit_price order else limit_price order <= p.

(** No order resting on the side carries the id. *)
Definition id_free (oid : nat) (s : Side) : Prop :=
  Forall (fun o => order_id o <> oid) (concat s).

(** [getInsideBids] and [getInsideAsks] with an explicit [depth]: the loop
    runs over [range(min(depth, len(side)))]. *)
Fixpoint inside_upto (depth : nat) (s : Side) : outcome (list (Z * Z)) :=
  match depth, s with
  | O, _ => Ok []
  | _, [] => Ok []
  | S _, [] :: _ => Raise IndexError
  | S d, (o0 :: tl) :: rest =>
      more ← inside_upto d rest;
      Ok ((limit_price o0, fold_left (fun qty o => qty + quantity o) (o0 :: tl) 0) :: more)
  end.

Definition getInsideBids_depth (b : t) (depth : Z) : outcome (list (Z * Z)) :=
  inside_upto (Z.to_nat depth) (bids b).

Definition getInsideAsks_depth (b : t) (depth : Z) : outcome (list (Z * Z)) :=
  inside_upto (Z.to_nat depth) (asks b).

(** *** First in, first out, in the words of the specification *)

(** Modelled from the spec: resting orders are consumed in arrival order.
    [resting] is the opposite side read best price first and, within a
    price, oldest first; [q] shares are still wanted.  The head is taken as
    long as it matches: whole when the shares wanted cover it, and then the
    next order is looked at only if shares are still wanted; in part
    otherwise.  The result is the orders hit with the shares filled, the
    orders left, and the shares that found no match. *)
Fixpoint fifo_fills (order : LimitOrder) (q : Z) (resting : list LimitOrder)
  : list (LimitOrder * Z) * list LimitOrder * Z :=
  match resting with
  | [] => ([], [], q)
  | x :: rest =>
      if isMatch order x then
        if quantity x <=? q then
          if q - quantity x <=? 0 then ([(x, quantity x)], rest, 0)
          else
            let '(hits, remaining, unfilled) := fifo_fills order (q - quantity x) rest in
            ((x, quantity x) :: hits, remaining, unfilled)
        else ([(x, q)], set_quantity x (quantity x - q) :: rest, 0)
      else ([], x :: rest, q)
  end.

(** [inserted o s s']: side [s'] is side [s] with [o] added, at the tail of
    the level of its price if there is one, as a level of its own
    otherwise. *)
Definition inserted (o : LimitOrder) (s s' : Side) : Prop :=
  (exists pre lvl post,
     s = pre ++ lvl :: post /\ lprice lvl = limit_price o /\
     s' = pre ++ (lvl ++ [o]) :: post) \/
  (Forall (fun lvl => lprice lvl <> limit_price o) s /\
   exists pre post, s = pre ++ post /\ s' = pre ++ [o] :: post).

(** What [prettyPrint] needs of a book: a last trade price that can be
    formatted, a value from the owner's oracle for the book's symbol at the
    owner's time that can be divided by 100, and resting orders whose prices
    can. *)
Definition printable (b : t) : Prop :=
  (exists p, last_trade b = Some p /\ format_f fl p = Ok tt) /\
  (exists v, MeanRevertingOracle.observePrice (fun r_t _ => r_t) (owner_oracle (owner b))
               (book_symbol b) (owner_currentTime (owner b)) 0 = Ok v /\
             hundredth fl v = Ok tt) /\
  Forall (fun o => hundredth fl (limit_price o) = Ok tt)
         (concat (bids b) ++ concat (asks b)).

(** What the bookkeeping after the loop needs of an order on a book: the
    order's price can be divided by 100, and the average price of its fills,
    the ones [fifo_fills] takes, is defined and can be formatted. *)
Definition loggable (b : t) (order : LimitOrder) : Prop :=
  hundredth fl (limit_price order) = Ok tt /\
  forall hits remaining unfilled trade_qty trade_price,
    fifo_fills order (quantity order) (concat (opp_side b order))
      = (hits, remaining, unfilled) ->
    executed_totals (map exec_entry hits) 0 0 = Ok (trade_qty, trade_price) ->
    0 < trade_qty ->
    exists avg_price, float_avg fl trade_price trade_qty = Ok avg_price /\
                      format_f fl avg_price = Ok tt.

End Matching.

End OrderBook.

(** ** The trading agent *)

Module TradingAgent.

(** Messages a trading agent sends to the exchange. *)
Inductive AgentMsg : Type :=
| WHEN_MKT_OPEN    (sender : nat)
| WHEN_MKT_CLOSE   (sender : nat)
| LIMIT_ORDER      (sender : nat) (order : LimitOrder)
| CANCEL_ORDER     (sender : nat) (order : LimitOrder)
| QUERY_LAST_TRADE (sender : nat) (sym : string)
| QUERY_SPREAD     (sender : nat) (sym : string) (depth : Z).

(** Entries of the agent's event log. *)
Inductive LogEvent : Type :=
| MARK_TO_MARKET   (shares : Z) (sym : string) (price value : Z)
| MARKED_TO_MARKET (cash : Z)
| ORDER_SUBMITTED  (order : LimitOrder)
| CANCEL_SUBMITTED (order : LimitOrder)
| LOG_ORDER_EXECUTED  (order : LimitOrder)
| LOG_ORDER_CANCELLED (order : LimitOrder)
| HOLDINGS_UPDATED (holdings : list (string * Z)).

(** [holdings] is a Python dict that is iterated: an association list in
    insertion order, without repeated keys. *)
Definition Holdings : Type := list (string * Z).

Fixpoint dict_get (k : string) (d : Holdings) : option Z :=
  match d with
  | [] => None
  | (k', v) :: rest => if String.eqb k k' then Some v else dict_get k rest
  end.

(** [d[k] = v]: an existing key keeps its place, a new key goes last. *)
Fixpoint dict_set (k : string) (v : Z) (d : Holdings) : Holdings :=
  match d with
  | [] => [(k, v)]
  | (k', v') :: rest =>
      if String.eqb k k' then (k', v) :: rest else (k', v') :: dict_set k v rest
  end.

(** [del d[k]]. *)
Fixpoint dict_del (k : string) (d : Holdings) : Holdings :=
  match d with
  | [] => []
  | (k', v') :: rest => if String.eqb k k' then rest else (k', v') :: dict_del k rest
  end.

Definition CASH : string := "CASH".

(** The fields of a [TradingAgent] that placing and tracking orders touch.
    [outbox] collects the messages handed to [sendMessage], [log] the events
    handed to [logEvent]; [next_order_id] is the counter new orders draw their
    [order_id] from. *)
Record t : Type := mkAgent {
  id            : nat;
  currentTime   : Z;
  startingCash  : Z;
  exchangeID    : option nat;
  holdings      : Holdings;
  orders        : gmap nat LimitOrder;
  last_trade    : gmap string Z;
  outbox        : list (nat * AgentMsg);
  log           : list LogEvent;
  next_order_id : nat
}.

(** [TradingAgent.__init__]. *)
Definition init (agent_id : nat) (cash : Z) : t :=
  mkAgent agent_id 0 cash None [(CASH, cash)] ∅ ∅ [] [] 0.

Definition set_holdings (st : t) (h : Holdings) : t :=
  mkAgent (id st) (currentTime st) (startingCash st) (exchangeID st) h
          (orders st) (last_trade st) (outbox st) (log st) (next_order_id st).

Definition set_orders (st : t) (o : gmap nat LimitOrder) : t :=
  mkAgent (id st) (currentTime st) (startingCash st) (exchangeID st) (holdings st)
          o (last_trade st) (outbox st) (log st) (next_order_id st).

Definition set_outbox (st : t) (o : list (nat * AgentMsg)) : t :=
  mkAgent (id st) (currentTime st) (startingCash st) (exchangeID st) (holdings st)
          (orders st) (last_trade st) o (log st) (next_order_id st).

Definition set_log (st : t) (l : list LogEvent) : t :=
  mkAgent (id st) (currentTime st) (startingCash st) (exchangeID st) (holdings st)
          (orders st) (last_trade st) (outbox st) l (next_order_id st).

Definition set_next_order_id (st : t) (n : nat) : t :=
  mkAgent (id st) (currentTime st) (startingCash st) (exchangeID st) (holdings st)
          (orders st) (last_trade st) (outbox st) (log st) n.

(** A method of the agent: it may raise, and it leaves a state behind either
    way. *)
Definition M (A : Type) : Type := t -> outcome A * t.

Definition ret {A : Type} (a : A) : M A := fun st => (Ok a, st).

Definition raise {A : Type} (e : exn) : M A := fun st => (Raise e, st).

Definition bind {A B : Type} (m : M A) (f : A -> M B) : M B :=
  fun st =>
    match m st with
    | (Ok a, st') => f a st'
    | (Raise e, st') => (Raise e, st')
    end.

Notation "x <~ m ; k" := (bind m (fun x => k))
  (at level 20, m at level 100, k at level 200, only parsing).

(** Modelled from the spec: [Agent.logEvent] is declared in [agent/Agent.py],
    which is not among the sources; it appends the event to the agent's log. *)
Definition logEvent (e : LogEvent) : M unit :=
  fun st => (Ok tt, set_log st (log st ++ [e])).

(** Modelled from the spec: [Agent.sendMessage] is declared in
    [agent/Agent.py], which is not among the sources; it hands the message to
    [Kernel.sendMessage], which raises [ValueError] when the recipient is
    [None] and schedules the delivery otherwise. *)
Definition sendMessage (recipient : option nat) (msg : AgentMsg) : M unit :=
  fun st =>
    match recipient with
    | None => (Raise ValueError, st)
    | Some r => (Ok tt, set_outbox st (outbox st ++ [(r, msg)]))
    end.

(** Modelled from the spec: the constructor of [LimitOrder]
    ([util/order/LimitOrder.py], not among the sources) stores its arguments
    and draws an [order_id] that is unique within the run. *)
Definition newLimitOrder (sym : string) (qty : Z) (is_buy : bool) (price : Z) : M LimitOrder :=
  fun st =>
    (Ok (mkOrder (next_order_id st) (id st) (currentTime st) sym qty is_buy price None),
     set_next_order_id st (S (next_order_id st))).

(** [d[k]] for reading: a missing key raises [KeyError]. *)
Definition lookup_holding (k : string) (h : Holdings) : M Z :=
  match dict_get k h with
  | Some v => ret v
  | None => raise KeyError
  end.

(** The loop of [markToMarket] over [holdings.items()]. *)
Fixpoint mark_items (items : Holdings) (cash : Z) : M Z :=
  match items with
  | [] => ret cash
  | (sym, shares) :: rest =>
      if String.eqb sym CASH then mark_items rest cash
      else
        fun st =>
          match last_trade st !! sym with
          | None => (Raise KeyError, st)
          | Some price =>
              let value := price * shares in
              (_ <~ logEvent (MARK_TO_MARKET shares sym price value);
               mark_items rest (cash + value)) st
          end
  end.

(** [markToMarket]. *)
Definition markToMarket (h : Holdings) : M Z :=
  cash <~ lookup_holding CASH h;
  cash <~ mark_items h cash;
  _ <~ logEvent (MARKED_TO_MARKET cash);
  ret cash.

(** The hypothetical holdings of [placeLimitOrder]: a copy of the holdings
    with the signed quantity applied to the symbol. *)
Definition apply_order (h : Holdings) (sym : string) (q : Z) : Holdings :=
  match dict_get sym h with
  | Some v => dict_set sym (v + q) h
  | None => dict_set sym q h
  end.

(** [placeLimitOrder]. *)
Definition placeLimitOrder (sym : string) (qty : Z) (is_buy : bool) (price : Z) : M unit :=
  order <~ newLimitOrder sym qty is_buy price;
  if 0 <? qty then
    fun st =>
      let new_holdings :=
        apply_order (holdings st) (symbol order)
                    (if is_buy_order order then quantity order else - quantity order) in
      (mtm <~ markToMarket (holdings st);
       cash <~ lookup_holding CASH (holdings st);
       let at_risk := mtm - cash in
       new_mtm <~ markToMarket new_holdings;
       new_cash <~ lookup_holding CASH new_holdings;
       let new_at_risk := new_mtm - new_cash in
       if (at_risk <? new_at_risk) && (startingCash st <? new_at_risk) then ret tt
       else
         _ <~ (fun st' => (Ok tt, set_orders st' (<[order_id order := order]> (orders st'))));
         _ <~ sendMessage (exchangeID st) (LIMIT_ORDER (id st) order);
         logEvent (ORDER_SUBMITTED order)) st
  else ret tt.

(** [cancelOrder]. *)
Definition cancelOrder (order : LimitOrder) : M unit :=
  fun st =>
    (_ <~ sendMessage (exchangeID st) (CANCEL_ORDER (id st) order);
     logEvent (CANCEL_SUBMITTED order)) st.

(** [orderExecuted]. *)
Definition orderExecuted (order : LimitOrder) : M unit :=
  _ <~ logEvent (LOG_ORDER_EXECUTED order);
  fun st =>
    let qty := if is_buy_order order then quantity order else -1 * quantity order in
    let sym := symbol order in
    let h1 := apply_order (holdings st) sym qty in
    let h2 := match dict_get sym h1 with
              | Some 0 => dict_del sym h1
              | _ => h1
              end in
    match dict_get CASH h2, fill_price order with
    | None, _ => (Raise KeyError, set_holdings st h2)
    | Some _, None => (Raise TypeError, set_holdings st h2)
    | Some cash, Some fp =>
        let h3 := dict_set CASH (cash - qty * fp) h2 in
        let os :=
          match orders st !! order_id order with
          | Some o =>
              if quantity o <=? quantity order then delete (order_id order) (orders st)
              else <[order_id order := set_quantity o (quantity o - quantity order)]> (orders st)
          | None => orders st
          end in
        logEvent (HOLDINGS_UPDATED h3) (set_orders (set_holdings st h3) os)
    end.

(** [orderCancelled]. *)
Definition orderCancelled (order : LimitOrder) : M unit :=
  _ <~ logEvent (LOG_ORDER_CANCELLED order);
  fun st => (Ok tt, set_orders st (delete (order_id order) (orders st))).

(** [getHoldings]. *)
Definition getHoldings (st : t) (sym : string) : Z :=
  match dict_get sym (holdings st) with
  | Some v => v
  | None => 0
  end.

(** At-risk capital of a holdings dict, as [placeLimitOrder] computes it:
    [markToMarket(h) - h['CASH']]. *)
Definition at_risk (st : t) (h : Holdings) : outcome Z :=
  mtm ← fst (markToMarket h st);
  match dict_get CASH h with
  | Some cash => Ok (mtm - cash)
  | None => Raise KeyError
  end.

(** The precondition of [markToMarket]: there is cash, and every other symbol
    held has a last trade price. *)
Definition priced (st : t) (h : Holdings) : Prop :=
  is_Some (dict_get CASH h) /\
  Forall (fun kv => fst kv = CASH \/ is_Some (last_trade st !! fst kv)) h.


(** The value the loop of [markToMarket] computes, read off without the
    logging. *)
Fixpoint mark_result (lt : gmap string Z) (items : Holdings) (cash : Z) : outcome Z :=
  match items with
  | [] => Ok cash
  | (sym, shares) :: rest =>
      if String.eqb sym CASH then mark_result lt rest cash
      else match lt !! sym with
           | None => Raise KeyError
           | Some price => mark_result lt rest (cash + price * shares)
           end
  end.

(** [logged st st']: [st'] is [st] with more entries in its log. *)
Definition logged (st st' : t) : Prop :=
  exists l, st' = set_log st (log st ++ l).

(** *** Further vocabulary *)

(** The change in shares an execution books: [order.quantity] for a buy,
    [-1 * order.quantity] for a sell. *)
Definition signed_quantity (order : LimitOrder) : Z :=
  if is_buy_order order then quantity order else -1 * quantity order.

(** A dict has no repeated keys. *)
Definition dict_ok (h : Holdings) : Prop := NoDup (map fst h).

(** Every open order is filed under its own id and has shares left to fill. *)
Definition open_orders_ok (st : t) : Prop :=
  map_Forall (fun k o => order_id o = k /\ 0 < quantity o) (orders st).

(** The shares and the cash that the recipient's [orderExecuted] books for a
    message of the exchange; only [ORDER_EXECUTED] reaches [orderExecuted]. *)
Definition share_flow (m : ExchangeMsg) : Z :=
  match m with
  | ORDER_EXECUTED o => signed_quantity o
  | _ => 0
  end.

Definition cash_flow (m : ExchangeMsg) : Z :=
  match m with
  | ORDER_EXECUTED o => - (signed_quantity o * default 0 (fill_price o))
  | _ => 0
  end.

Definition total_flow (f : ExchangeMsg -> Z) (msgs : list (nat * ExchangeMsg)) : Z :=
  fold_right (fun m acc => f (snd m) + acc) 0 msgs.

End TradingAgent.

(** ** The zero-intelligence agent *)

Module ZeroIntelligenceAgent.

(** [havePositions]: more than one entry in the holdings, or a single entry
    that is not [CASH]. *)
Definition havePositions (st : TradingAgent.t) : bool :=
  let h := TradingAgent.holdings st in
  (1 <? length h)%nat ||
  ((length h =? 1)%nat &&
   negb (match TradingAgent.dict_get TradingAgent.CASH h with
         | Some _ => true
         | None => false
         end)).

End ZeroIntelligenceAgent.

(** ** The kernel *)

Module Kernel.

(** Modelled from the spec: the enumeration [MessageType] is declared in
    [message/Message.py], which is not among the sources; the kernel knows the
    two kinds [WAKEUP] and [MESSAGE], so the [else] branch of the dispatch,
    which raises on any other kind, has no case here. *)
Inductive MessageType : Type :=
| MESSAGE
| WAKEUP.

Section Model.

(** [Msg] is the type of message bodies and [St] the state of an agent. *)
Context {Msg St : Type}.

(** An entry of the queue: [(deliverAt, (recipient, type, msg))]. *)
Definition Entry : Type := Z * (nat * MessageType * option Msg).

Definition deliverAt (e : Entry) : Z := fst e.
Definition recipient (e : Entry) : nat := fst (fst (snd e)).

(** Modelled from the spec: how Python orders two [(type, msg)] pairs depends
    on the comparison methods of [MessageType] and [Message], declared in
    [message/Message.py], which is not among the sources.  It is a parameter. *)
Variable tail_ltb : MessageType * option Msg -> MessageType * option Msg -> bool.

(** Python's [<] on queue entries: tuples compare lexicographically. *)
Definition entry_ltb (e1 e2 : Entry) : bool :=
  let '(t1, (r1, ty1, m1)) := e1 in
  let '(t2, (r2, ty2, m2)) := e2 in
  (t1 <? t2) ||
  ((t1 =? t2) && ((r1 <? r2)%nat || ((r1 =? r2)%nat && tail_ltb (ty1, m1) (ty2, m2)))).

(** [queue.PriorityQueue]: the entries waiting, in the order they were put.
    [get] removes an entry that no other entry is smaller than; among entries
    that compare equal the heap's shape decides in Python, and the earliest
    put is taken here. *)
Definition Queue : Type := list Entry.

Definition put (q : Queue) (e : Entry) : Queue := q ++ [e].

Fixpoint extract_min (e : Entry) (rest : Queue) : Entry * Queue :=
  match rest with
  | [] => (e, [])
  | e' :: rest' =>
      let '(m, others) := extract_min e' rest' in
      if entry_ltb m e then (m, e :: others) else (e, e' :: rest')
  end.

Definition get (q : Queue) : option (Entry * Queue) :=
  match q with
  | [] => None
  | e :: rest => Some (extract_min e rest)
  end.

(** One entry into [wakeup] or [receiveMessage]: who was called with which
    time, and what the agent's clock and the kernel's clock read at that
    moment. *)
Record Call : Type := mkCall {
  c_agent       : nat;
  c_type        : MessageType;
  c_time        : Z;
  c_msg         : option Msg;
  c_agent_clock : option Z;
  c_kernel_time : option Z
}.

(** The kernel.  [draws] counts the latency noise values drawn so far and
    [calls] records every callback entry, oldest first. *)
Record t : Type := mkKernel {
  messages                    : Queue;
  currentTime                 : option Z;
  stopTime                    : Z;
  agentCurrentTimes           : list Z;
  agentComputationDelays      : list Z;
  agentLatency                : list (list Z);
  currentAgentAdditionalDelay : Z;
  draws                       : nat;
  agents                      : list St;
  calls                       : list Call
}.

Definition set_messages (k : t) (q : Queue) : t :=
  mkKernel q (currentTime k) (stopTime k) (agentCurrentTimes k)
           (agentComputationDelays k) (agentLatency k)
           (currentAgentAdditionalDelay k) (draws k) (agents k) (calls k).

Definition set_currentTime (k : t) (now : option Z) : t :=
  mkKernel (messages k) now (stopTime k) (agentCurrentTimes k)
           (agentComputationDelays k) (agentLatency k)
           (currentAgentAdditionalDelay k) (draws k) (agents k) (calls k).

Definition set_agentCurrentTimes (k : t) (l : list Z) : t :=
  mkKernel (messages k) (currentTime k) (stopTime k) l
           (agentComputationDelays k) (agentLatency k)
           (currentAgentAdditionalDelay k) (draws k) (agents k) (calls k).

Definition set_agentComputationDelays (k : t) (l : list Z) : t :=
  mkKernel (messages k) (currentTime k) (stopTime k) (agentCurrentTimes k)
           l (agentLatency k)
           (currentAgentAdditionalDelay k) (draws k) (agents k) (calls k).

Definition set_currentAgentAdditionalDelay (k : t) (d : Z) : t :=
  mkKernel (messages k) (currentTime k) (stopTime k) (agentCurrentTimes k)
           (agentComputationDelays k) (agentLatency k)
           d (draws k) (agents k) (calls k).

Definition set_draws (k : t) (n : nat) : t :=
  mkKernel (messages k) (currentTime k) (stopTime k) (agentCurrentTimes k)
           (agentComputationDelays k) (agentLatency k)
           (currentAgentAdditionalDelay k) n (agents k) (calls k).

Definition set_agents (k : t) (l : list St) : t :=
  mkKernel (messages k) (currentTime k) (stopTime k) (agentCurrentTimes k)
           (agentComputationDelays k) (agentLatency k)
           (currentAgentAdditionalDelay k) (draws k) l (calls k).

Definition set_calls (k : t) (l : list Call) : t :=
  mkKernel (messages k) (currentTime k) (stopTime k) (agentCurrentTimes k)
           (agentComputationDelays k) (agentLatency k)
           (currentAgentAdditionalDelay k) (draws k) (agents k) l.

(** [noise_draw n] is the value of the [n]-th call of
    [np.random.choice(len(self.latencyNoise), 1, self.latencyNoise)[0]]. *)
Variable noise_draw : nat -> Z.

(** [l[i]] on a Python list: out of range raises [IndexError]. *)
Definition index {A : Type} (l : list A) (i : nat) : outcome A :=
  match l !! i with
  | Some x => Ok x
  | None => Raise IndexError
  end.

(** [sendMessage].  Before the clock is started [currentTime] is [None]; the
    code then adds a [pd.Timedelta] to [None], which pandas evaluates to
    [NaT], and puts the message into the queue with [NaT] as its delivery
    time.  The entries of [Queue] carry integer times: the model ends there
    with [NotATime].  The [while] loop of [runner] sets [currentTime] from
    the entry it pops before any agent is called, so that a send from inside
    [wakeup] or [receiveMessage] always finds a time. *)
Definition sendMessage (k : t) (sender recipient : option nat) (msg : option Msg)
           (delay : Z) : outcome t :=
  match sender, recipient, msg with
  | None, _, _ => Raise ValueError
  | _, None, _ => Raise ValueError
  | _, _, None => Raise ValueError
  | Some s, Some r, Some m =>
      cd ← index (agentComputationDelays k) s;
      match currentTime k with
      | None => Raise NotATime
      | Some now =>
          let sentTime := now + (cd + currentAgentAdditionalDelay k + delay) in
          row ← index (agentLatency k) s;
          latency ← index row r;
          let noise := noise_draw (draws k) in
          let deliverAt := sentTime + (latency + noise) in
          let k' := set_draws (set_messages k (put (messages k) (deliverAt, (r, MESSAGE, Some m))))
                              (S (draws k)) in
          _ ← index (agents k) s;
          _ ← index (agents k) r;
          Ok k'
      end
  end.

(** [setWakeup].  Without a requested time the code reaches for
    [pd.TimeDelta], which does not exist. *)
Definition setWakeup (k : t) (sender : option nat) (requestedTime : option Z) : outcome t :=
  match requestedTime with
  | None => Raise AttributeError
  | Some requested =>
      match sender with
      | None => Raise ValueError
      | Some s =>
          match currentTime k with
          | Some now =>
              if requested <? now then Raise ValueError
              else Ok (set_messages k (put (messages k) (requested, (s, WAKEUP, None))))
          | None => Ok (set_messages k (put (messages k) (requested, (s, WAKEUP, None))))
          end
      end
  end.

(** [setAgentComputeDelay]. *)
Definition setAgentComputeDelay (k : t) (sender : nat) (requestedDelay : Z) : outcome t :=
  if requestedDelay <? 0 then Raise ValueError
  else
    _ ← index (agentComputationDelays k) sender;
    Ok (set_agentComputationDelays k (<[sender := requestedDelay]> (agentComputationDelays k))).

(** [delayAgent]. *)
Definition delayAgent (k : t) (sender : nat) (additionalDelay : Z) : outcome t :=
  if additionalDelay <? 0 then Raise ValueError
  else Ok (set_currentAgentAdditionalDelay k (currentAgentAdditionalDelay k + additionalDelay)).

(** What an agent asks of the kernel from inside a callback. *)
Inductive Request : Type :=
| SendMessage (sender recipient : option nat) (msg : option Msg) (delay : Z)
| SetWakeup (sender : option nat) (requestedTime : option Z)
| SetAgentComputeDelay (sender : nat) (requestedDelay : Z)
| DelayAgent (sender : nat) (additionalDelay : Z).

Definition serve (k : t) (rq : Request) : outcome t :=
  match rq with
  | SendMessage s r m d => sendMessage k s r m d
  | SetWakeup s rt => setWakeup k s rt
  | SetAgentComputeDelay s d => setAgentComputeDelay k s d
  | DelayAgent s d => delayAgent k s d
  end.

Fixpoint serve_all (k : t) (rqs : list Request) : outcome t :=
  match rqs with
  | [] => Ok k
  | rq :: more => k' ← serve k rq; serve_all k' more
  end.

(** The agents: a callback takes the agent's id, the time it is called with
    and the agent's state, and gives the new state and the requests the agent
    made of the kernel, in order. *)
Variable agent_kernelStarting : nat -> Z -> St -> St * list Request.
Variable agent_wakeup : nat -> Z -> St -> St * list Request.
Variable agent_receiveMessage : nat -> Z -> option Msg -> St -> St * list Request.

(** Entering a callback of agent [agent] at time [now]. *)
Definition dispatch (k : t) (agent : nat) (ty : MessageType) (msg : option Msg) (now : Z)
  : outcome t :=
  st ← index (agents k) agent;
  let call := mkCall agent ty now msg (agentCurrentTimes k !! agent) (currentTime k) in
  let '(st', rqs) :=
    match ty with
    | WAKEUP => agent_wakeup agent now st
    | MESSAGE => agent_receiveMessage agent now msg st
    end in
  serve_all (set_calls (set_agents k (<[agent := st']> (agents k))) (calls k ++ [call])) rqs.

(** The condition of the [while] loop of [runner]. *)
Definition running (k : t) : bool :=
  match messages k, currentTime k with
  | _ :: _, Some now => now <=? stopTime k
  | _, _ => false
  end.

(** One turn of the [while] loop of [runner].  The loop only pops when the
    queue is not empty, so the first case is never met in a run. *)
Definition step (k : t) : outcome t :=
  match get (messages k) with
  | None => Raise IndexError
  | Some ((now, (agent, ty, msg)), q) =>
      let k := set_currentAgentAdditionalDelay
                 (set_currentTime (set_messages k q) (Some now)) 0 in
      clock ← index (agentCurrentTimes k) agent;
      if now <? clock then
        Ok (set_messages k (put (messages k) (clock, (agent, ty, msg))))
      else
        let k := set_agentCurrentTimes k (<[agent := now]> (agentCurrentTimes k)) in
        k ← dispatch k agent ty msg now;
        clock ← index (agentCurrentTimes k) agent;
        cd ← index (agentComputationDelays k) agent;
        Ok (set_agentCurrentTimes k
              (<[agent := clock + (cd + currentAgentAdditionalDelay k)]> (agentCurrentTimes k)))
  end.

(** The [while] loop of [runner], cut after [fuel] turns. *)
Fixpoint run (fuel : nat) (k : t) : outcome t :=
  match fuel with
  | O => Ok k
  | S fuel' => if running k then k' ← step k; run fuel' k' else Ok k
  end.

(** The part of [runner] before the loop, for the first simulation: clocks
    and delays are set up, every agent gets [kernelStarting] (after
    [kernelInitializing], which only hands the kernel to the agent), and the
    kernel clock is set to the start time.  The clock is not started while
    the agents get [kernelStarting]: a message sent from there has no
    integer delivery time, and [boot] ends with [NotATime] (see
    [sendMessage]); a wakeup asked for from there is queued as asked. *)
Fixpoint start_agents (k : t) (startTime : Z) (i : nat) (sts : list St) : outcome t :=
  match sts with
  | [] => Ok k
  | _ :: more =>
      st ← index (agents k) i;
      let '(st', rqs) := agent_kernelStarting i startTime st in
      k' ← serve_all (set_agents k (<[i := st']> (agents k))) rqs;
      start_agents k' startTime (S i) more
  end.

Definition boot (sts : list St) (startTime stopTime defaultComputationDelay defaultLatency : Z)
  : outcome t :=
  let n := length sts in
  let k := mkKernel [] None stopTime (replicate n startTime)
                    (replicate n defaultComputationDelay)
                    (replicate n (replicate n defaultLatency)) 0 0 sts [] in
  k' ← start_agents k startTime 0 sts;
  Ok (set_currentTime k' (Some startTime)).

(** At a callback entry the three clocks agree. *)
Definition call_in_step (c : Call) : Prop :=
  c_agent_clock c = Some (c_time c) /\ c_kernel_time c = Some (c_time c).

(** [key_le e1 e2]: [e1] is not after [e2] by delivery time, then recipient. *)
Definition key_le (e1 e2 : Entry) : Prop :=
  deliverAt e1 < deliverAt e2 \/
  (deliverAt e1 = deliverAt e2 /\ (recipient e1 <= recipient e2)%nat).

(** What serving requests never changes. *)
Definition kept (k k' : t) : Prop :=
  currentTime k' = currentTime k /\ stopTime k' = stopTime k /\
  agentCurrentTimes k' = agentCurrentTimes k /\ calls k' = calls k /\
  agents k' = agents k.

(** The kernel after the pop, before the recipient is looked at. *)
Definition popped (k : t) (now : Z) (q : Queue) : t :=
  set_currentAgentAdditionalDelay (set_currentTime (set_messages k q) (Some now)) 0.

(** *** Further vocabulary: time and order *)

(** A request that asks for no negative delay on a message. *)
Definition forward (rq : Request) : Prop :=
  match rq with
  | SendMessage _ _ _ delay => 0 <= delay
  | _ => True
  end.

(** Callbacks were entered in the order of their times: an earlier entry
    of the list never carries a later time. *)
Definition chronological (cs : list Call) : Prop :=
  forall i j c1 c2, (i < j)%nat -> cs !! i = Some c1 -> cs !! j = Some c2 ->
                    c_time c1 <= c_time c2.

(** The same, agent by agent. *)
Definition chronological_per_agent (cs : list Call) : Prop :=
  forall i j c1 c2, (i < j)%nat -> cs !! i = Some c1 -> cs !! j = Some c2 ->
                    c_agent c1 = c_agent c2 -> c_time c1 <= c_time c2.

(** No computation delay and no accumulated delay is negative. *)
Definition delays_ok (k : t) : Prop :=
  Forall (fun d => 0 <= d) (agentComputationDelays k) /\
  0 <= currentAgentAdditionalDelay k.

(** Every agent's clock is at or after all of its callbacks so far. *)
Definition clocks_cover_calls (k : t) : Prop :=
  forall c, In c (calls k) ->
            exists clock, agentCurrentTimes k !! c_agent c = Some clock /\ c_time c <= clock.

(** Nothing waits in the past: the kernel has a time, no entry of the queue
    and no callback so far lies before it, and no latency or delay is
    negative. *)
Definition timely (k : t) : Prop :=
  exists now, currentTime k = Some now /\
    Forall (fun e => now <= deliverAt e) (messages k) /\
    Forall (fun c => c_time c <= now) (calls k) /\
    Forall (Forall (fun l => 0 <= l)) (agentLatency k) /\
    delays_ok k.

End Model.

End Kernel.

(** ** Concrete scenarios *)

Module Scenario.

Local Open Scope string_scope.

(** A trading day of five nanoseconds, from 100 to 105. *)
Definition day_oracle : MeanRevertingOracle.t :=
  MeanRevertingOracle.mkOracle 100 105
    {["ABC" := MeanRevertingOracle.mkSeries 100 [1000; 1003; 998; 1001; 1005]]}.

(** The exchange at time 102 of that day. *)
Definition exchange : OrderBook.Owner := OrderBook.mkOwner 102 day_oracle.

(** Floats on the small numbers of the trades below, where every average
    is a whole number that a float holds exactly and nothing overflows. *)
Definition floats : Floats :=
  mkFloats (fun trade_price trade_qty => Ok (trade_price / trade_qty))
           (fun _ => Ok tt) (fun _ => Ok tt).

(** A book for ABC that the exchange has given a last trade price of 10000,
    and one it has not. *)
Definition new_book : OrderBook.t := OrderBook.init exchange "ABC".
Definition open_book : OrderBook.t := OrderBook.set_last_trade new_book (Some 10000).

(** The book after one more limit order. *)
Definition after (b : OrderBook.t) (order : LimitOrder) : OrderBook.t :=
  match OrderBook.handleLimitOrder floats b order with
  | Some (Ok r) => OrderBook.r_book r
  | _ => b
  end.

(** Two sell orders of 10 shares at 10000, X entered before Y, and a buy order
    of 10 shares at the same price. *)
Definition sell_x : LimitOrder := mkOrder 1 7 0 "ABC" 10 false 10000 None.
Definition sell_y : LimitOrder := mkOrder 2 8 0 "ABC" 10 false 10000 None.
Definition buy_10 : LimitOrder := mkOrder 3 9 0 "ABC" 10 true 10000 None.

Definition book_xy : OrderBook.t := after (after open_book sell_x) sell_y.

(** A resting bid at 9900 and a resting ask of 50 shares at 10100; a buy order
    of 20 shares at 10200 and one of 80 shares at 10200. *)
Definition bid_9900 : LimitOrder := mkOrder 4 5 0 "ABC" 10 true 9900 None.
Definition ask_10100 : LimitOrder := mkOrder 5 6 0 "ABC" 50 false 10100 None.
Definition buy_20 : LimitOrder := mkOrder 6 9 0 "ABC" 20 true 10200 None.
Definition buy_80 : LimitOrder := mkOrder 7 9 0 "ABC" 80 true 10200 None.

Definition book_two_sided : OrderBook.t :=
  after (after open_book bid_9900) ask_10100.

(** A resting ask at 100 and a buy order at 102. *)
Definition ask_100 : LimitOrder := mkOrder 8 6 0 "ABC" 10 false 100 None.
Definition buy_102 : LimitOrder := mkOrder 9 9 0 "ABC" 10 true 102 None.

Definition book_ask_100 : OrderBook.t := after open_book ask_100.

(** A sell order at the price of X and Y whose id the book has never seen. *)
Definition sell_unknown : LimitOrder := mkOrder 99 7 0 "ABC" 10 false 10000 None.

(** An order for no shares. *)
Definition buy_none : LimitOrder := mkOrder 10 9 0 "ABC" 0 true 10000 None.

(** A trader with 100,000 cents, no position, a last trade price of 1000 for
    X, and the exchange as agent 0. *)
Definition trader : TradingAgent.t :=
  TradingAgent.mkAgent 1 0 100000 (Some 0%nat) [("CASH", 100000)] ∅ {["X" := 1000]} [] [] 0.

(** What the exchange reports to the trader for a buy of 10 shares of X filled
    at 1000, and for a sell of 10 shares of X filled at 1000. *)
Definition filled_buy_x : LimitOrder := mkOrder 11 1 0 "X" 10 true 1000 (Some 1000).
Definition filled_sell_x : LimitOrder := mkOrder 12 1 0 "X" 10 false 1000 (Some 1000).

(** Kernels whose agents have no state and whose messages are numbers; no
    latency noise; entries that agree on time and recipient compare equal. *)
Definition no_tail_order (a b : Kernel.MessageType * option nat) : bool := false.
Definition no_noise (n : nat) : Z := 0.
Definition idle (i : nat) (now : Z) (st : unit) : unit * list (@Kernel.Request nat) := (st, []).
Definition idle_receive (i : nat) (now : Z) (m : option nat) (st : unit)
  : unit * list (@Kernel.Request nat) := (st, []).

(** Every agent asks at the start for wakeups at 5000 and at 5001. *)
Definition two_wakeups (i : nat) (now : Z) (st : unit) : unit * list (@Kernel.Request nat) :=
  (st, [Kernel.SetWakeup (Some i) (Some 5000); Kernel.SetWakeup (Some i) (Some 5001)]).

(** Every agent asks at the start for wakeups at 20 and at 30. *)
Definition late_wakeups (i : nat) (now : Z) (st : unit) : unit * list (@Kernel.Request nat) :=
  (st, [Kernel.SetWakeup (Some i) (Some 20); Kernel.SetWakeup (Some i) (Some 30)]).

(** Agent 2 asks at the start for a wakeup at 100; woken, it sends message 11
    to agent 1 and then message 10 to agent 0. *)
Definition only_agent_2 (i : nat) (now : Z) (st : unit) : unit * list (@Kernel.Request nat) :=
  (st, if Nat.eqb i 2 then [Kernel.SetWakeup (Some i) (Some 100)] else []).

Definition send_to_1_then_0 (i : nat) (now : Z) (st : unit)
  : unit * list (@Kernel.Request nat) :=
  (st, [Kernel.SendMessage (Some i) (Some 1%nat) (Some 11%nat) 0;
        Kernel.SendMessage (Some i) (Some 0%nat) (Some 10%nat) 0]).

(** One agent with a computation delay of 1,000,000 that asked for wakeups
    at 5000 and 5001, as [boot] leaves the kernel. *)
Definition busy_kernel : @Kernel.t nat unit :=
  Kernel.mkKernel [(5000, (0%nat, Kernel.WAKEUP, None)); (5001, (0%nat, Kernel.WAKEUP, None))]
                  (Some 0) 2000000 [0] [1000000] [[1]] 0 0 [tt] [].

(** One agent, stop time 10, wakeups waiting at 20 and at 30. *)
Definition late_kernel : @Kernel.t nat unit :=
  Kernel.mkKernel [(20, (0%nat, Kernel.WAKEUP, None)); (30, (0%nat, Kernel.WAKEUP, None))]
                  (Some 0) 10 [0] [1] [[1]] 0 0 [tt] [].

(** The same kernel one turn of the loop later. *)
Definition late_kernel_next : @Kernel.t nat unit :=
  Kernel.mkKernel [(30, (0%nat, Kernel.WAKEUP, None))]
                  (Some 20) 10 [21] [1] [[1]] 0 0 [tt]
                  [Kernel.mkCall 0 Kernel.WAKEUP 20 None (Some 20) (Some 20)].

(** Three agents; agent 2 has a wakeup waiting at 100. *)
Definition fan_kernel : @Kernel.t nat unit :=
  Kernel.mkKernel [(100, (2%nat, Kernel.WAKEUP, None))]
                  (Some 0) 1000 [0; 0; 0] [1; 1; 1]
                  [[1; 1; 1]; [1; 1; 1]; [1; 1; 1]] 0 0 [tt; tt; tt] [].

(** The two messages of agent 2, in the order they were put into the queue. *)
Definition to_agent_1 : @Kernel.Entry nat := (102, (1%nat, Kernel.MESSAGE, Some 11%nat)).
Definition to_agent_0 : @Kernel.Entry nat := (102, (0%nat, Kernel.MESSAGE, Some 10%nat)).
Definition fan_queue : @Kernel.Queue nat := [to_agent_1; to_agent_0].

(** The three agents inside the wakeup of agent 2 at 100, before it has asked
    anything of the kernel. *)
Definition fan_kernel_at_100 : @Kernel.t nat unit :=
  Kernel.mkKernel [] (Some 100) 1000 [0; 0; 100] [1; 1; 1]
                  [[1; 1; 1]; [1; 1; 1]; [1; 1; 1]] 0 0 [tt; tt; tt]
                  [Kernel.mkCall 2 Kernel.WAKEUP 100 None (Some 100) (Some 100)].

End Scenario.

(** * Facts about the order book *)

Module OrderBookFacts.
Import OrderBook.

Section Facts.

Variable fl : Floats.

Local Abbreviation prettyPrint := (OrderBook.prettyPrint fl).
Local Abbreviation handleLimitOrder := (OrderBook.handleLimitOrder fl).
Local Abbreviation after_loop := (OrderBook.after_loop fl).
Local Abbreviation new_last_trade := (OrderBook.new_last_trade fl).
Local Abbreviation log_best := (OrderBook.log_best fl).
Local Abbreviation reachable := (OrderBook.reachable fl).
Local Abbreviation printable := (OrderBook.printable fl).
Local Abbreviation loggable := (OrderBook.loggable fl).

Lemma opp_side_set_opp b order s : opp_side (set_opp_side b order s) order = s.
Proof. unfold opp_side, set_opp_side. destruct (is_buy_order order); reflexivity. Qed.

Lemma own_side_set_opp b order s : own_side (set_opp_side b order s) order = own_side b order.
Proof. unfold own_side, set_opp_side. destruct (is_buy_order order); reflexivity. Qed.

Lemma own_side_set_own b order s : own_side (set_own_side b order s) order = s.
Proof. unfold own_side, set_own_side. destruct (is_buy_order order); reflexivity. Qed.

Lemma opp_side_set_own b order s : opp_side (set_own_side b order s) order = opp_side b order.
Proof. unfold opp_side, set_own_side. destruct (is_buy_order order); reflexivity. Qed.

(** [executeOrder] only ever hits the head of the best opposite level. *)
Lemma executeOrder_head b order :
  executeOrder b order =
  match opp_side b order with
  | [] => Ok (None, b)
  | [] :: _ => Raise IndexError
  | (o0 :: tl) :: rest =>
      if isMatch order o0 then
        if quantity o0 <=? quantity order then
          Ok (Some (set_fill_price o0 (Some (limit_price o0))),
              set_opp_side b order (match tl with [] => rest | _ => tl :: rest end))
        else
          Ok (Some (set_fill_price (set_quantity o0 (quantity order)) (Some (limit_price o0))),
              set_opp_side b order ((set_quantity o0 (quantity o0 - quantity order) :: tl) :: rest))
      else Ok (None, b)
  end.
Proof.
  unfold executeOrder.
  destruct (opp_side b order) as [|[|o0 tl] rest]; try reflexivity.
  simpl. destruct (isMatch order o0); simpl; [|reflexivity].
  destruct (quantity o0 <=? quantity order); reflexivity.
Qed.

(** Side and price tests, read as propositions. *)
Lemma isMatch_true order o :
  is_buy_order o = negb (is_buy_order order) ->
  isMatch order o = true <->
  (if is_buy_order order then limit_price o <= limit_price order
   else limit_price order <= limit_price o).
Proof.
  unfold isMatch. intros ->.
  destruct (is_buy_order order); simpl;
    destruct (Z.leb_spec0 (limit_price o) (limit_price order));
    destruct (Z.leb_spec0 (limit_price order) (limit_price o));
    simpl; split; intros; (lia || congruence).
Qed.

Lemma isBetterPrice_true buy order o :
  is_buy_order order = buy -> is_buy_order o = buy ->
  isBetterPrice order o = true <-> better buy (limit_price order) (limit_price o).
Proof.
  unfold isBetterPrice, better. intros <- ->.
  destruct (is_buy_order order); simpl;
    destruct (Z.ltb_spec0 (limit_price o) (limit_price order));
    destruct (Z.ltb_spec0 (limit_price order) (limit_price o));
    simpl; split; intros; (lia || congruence).
Qed.

Lemma isEqualPrice_true order o :
  isEqualPrice order o = true <-> limit_price order = limit_price o.
Proof. unfold isEqualPrice. apply Z.eqb_eq. Qed.

Lemma better_trans buy p q r : better buy p q -> better buy q r -> better buy p r.
Proof. unfold better. destruct buy; lia. Qed.

Lemma better_irrefl buy p : ~ better buy p p.
Proof. unfold better. destruct buy; lia. Qed.

Lemma better_total buy p q : better buy p q \/ p = q \/ better buy q p.
Proof. unfold better. destruct buy; lia. Qed.

(** *** Levels and sides stay well formed *)

Lemma level_ok_cons buy o tl :
  level_ok buy (o :: tl) ->
  order_ok buy (limit_price o) o /\ Forall (order_ok buy (limit_price o)) tl.
Proof. intros [_ H]. simpl in H. apply Forall_cons_1 in H. exact H. Qed.

Lemma level_ok_intro buy o tl :
  order_ok buy (limit_price o) o -> Forall (order_ok buy (limit_price o)) tl ->
  level_ok buy (o :: tl).
Proof. intros H1 H2. split; [discriminate|]. simpl. constructor; assumption. Qed.

Lemma level_ok_tail buy o o' tl :
  level_ok buy (o :: o' :: tl) ->
  level_ok buy (o' :: tl) /\ lprice (o' :: tl) = lprice (o :: tl).
Proof.
  intros H. apply level_ok_cons in H as [Ho Htl].
  apply Forall_cons_1 in Htl as [Ho' Htl].
  assert (E : limit_price o' = limit_price o) by apply Ho'.
  split; [|exact E]. apply level_ok_intro; rewrite E; assumption.
Qed.

Lemma level_ok_snoc buy l order :
  level_ok buy l -> order_ok buy (lprice l) order -> level_ok buy (l ++ [order]).
Proof.
  intros [Hne H] Ho. destruct l as [|o tl]; [congruence|].
  split; [discriminate|]. simpl in *. apply Forall_cons_1 in H as [H1 H2].
  constructor; [assumption|]. apply Forall_app; split; [assumption|]. constructor; [assumption|constructor].
Qed.

Lemma lprice_snoc l order : l <> [] -> lprice (l ++ [order]) = lprice l.
Proof. destruct l; [congruence|reflexivity]. Qed.

Lemma side_wf_nil buy : side_wf buy [].
Proof. split; simpl; constructor. Qed.

Lemma side_wf_cons buy l s :
  side_wf buy (l :: s) <->
  level_ok buy l /\ Forall (better buy (lprice l)) (map lprice s) /\ side_wf buy s.
Proof.
  unfold side_wf. simpl. rewrite Forall_cons. tauto.
Qed.

(** Popping the oldest order of the best level. *)
Lemma side_wf_pop buy o tl rest :
  side_wf buy ((o :: tl) :: rest) ->
  side_wf buy (match tl with [] => rest | _ => tl :: rest end).
Proof.
  intros H. apply side_wf_cons in H as (Hl & Hb & Hs).
  destruct tl as [|o' tl]; [assumption|].
  apply level_ok_tail in Hl as [Hl E].
  apply side_wf_cons. rewrite E. auto.
Qed.

(** Shrinking the oldest order of the best level. *)
Lemma side_wf_shrink buy o tl rest q :
  0 < q -> side_wf buy ((o :: tl) :: rest) ->
  side_wf buy ((set_quantity o q :: tl) :: rest).
Proof.
  intros Hq H. apply side_wf_cons in H as (Hl & Hb & Hs).
  apply side_wf_cons. split; [|split; assumption].
  apply level_ok_cons in Hl as [(H1 & H2 & H3) Htl].
  apply level_ok_intro; [repeat split; assumption | exact Htl].
Qed.

(** *** Entering an order *)

Lemma order_ok_self order :
  0 < quantity order -> order_ok (is_buy_order order) (limit_price order) order.
Proof. intros; repeat split; assumption. Qed.

Lemma level_ok_single order : 0 < quantity order -> level_ok (is_buy_order order) [order].
Proof. intros H. apply level_ok_intro; [apply order_ok_self; assumption | constructor]. Qed.

Lemma level_ok_head buy l :
  level_ok buy l -> exists o tl, l = o :: tl /\ is_buy_order o = buy /\ limit_price o = lprice l.
Proof.
  intros H. destruct l as [|o tl]; [destruct H; congruence|].
  apply level_ok_cons in H as [(H1 & _ & _) _]. eauto.
Qed.

Lemma lprice_in_middle (s pre post : Side) (lvl : Level) :
  s = pre ++ lvl :: post -> In (lprice lvl) (map lprice s).
Proof. intros ->. apply in_map. apply in_elt. Qed.

Lemma enter_scan_entered order s :
  side_wf (is_buy_order order) s -> 0 < quantity order ->
  Exists (fun l => ~ better (is_buy_order order) (lprice l) (limit_price order)) s ->
  exists s', enter_scan order s = Ok s' /\ entered (is_buy_order order) order s s'.
Proof.
  set (buy := is_buy_order order).
  induction s as [|l rest IH]; intros Hwf Hq Hex; [inversion Hex|].
  pose proof Hwf as Hwf0.
  apply side_wf_cons in Hwf as (Hl & Hb & Hrest).
  destruct (level_ok_head _ _ Hl) as (o0 & tl & -> & Hside & Hp). simpl in Hp.
  simpl enter_scan. simpl lprice in Hb.
  destruct (isBetterPrice order o0) eqn:Eb.
  - (* a new level in front *)
    apply (isBetterPrice_true buy) in Eb; [|reflexivity|assumption].
    eexists; split; [reflexivity|]. split; [|split; [|split]].
    + apply side_wf_cons. split; [apply level_ok_single; assumption|]. split; [|assumption].
      simpl. constructor; [exact Eb|].
      eapply Forall_impl; [exact Hb|]. intros q Hq'. simpl in Hq'.
      eapply better_trans; eassumption.
    + simpl. intros p [<-|[<-|H]]; auto.
    + simpl. intros p [= <-]. auto.
    + intros pre lvl post E Hlp. exfalso.
      pose proof (lprice_in_middle _ _ _ _ E) as Hin.
      simpl in Hin. destruct Hin as [Hin|Hin].
      * rewrite Hlp in Hin. rewrite Hin in Eb. exact (better_irrefl _ _ Eb).
      * rewrite List.Forall_forall in Hb. specialize (Hb _ Hin). simpl in Hb.
        rewrite Hlp in Hb. exact (better_irrefl _ _ (better_trans _ _ _ _ Eb Hb)).
  - destruct (isEqualPrice order o0) eqn:Ee.
    + (* joins the tail of this level *)
      apply isEqualPrice_true in Ee.
      eexists; split; [reflexivity|]. split; [|split; [|split]].
      * apply side_wf_cons. split; [|split; [exact Hb|exact Hrest]].
        apply (level_ok_snoc buy (o0 :: tl) order); [assumption|]. simpl. rewrite <- Ee.
        apply order_ok_self; assumption.
      * simpl. intros p [<-|H]; auto.
      * simpl. intros p [= <-]. auto.
      * intros pre lvl post E Hlp. destruct pre as [|l0 pre]; simpl in E.
        { injection E as <- <-. reflexivity. }
        exfalso. injection E as <- E.
        pose proof (lprice_in_middle _ _ _ _ E) as Hin.
        rewrite List.Forall_forall in Hb. specialize (Hb _ Hin). simpl in Hb.
        rewrite Hlp, Ee in Hb. exact (better_irrefl _ _ Hb).
    + (* this level keeps its priority: look further *)
      assert (Hlb : better buy (limit_price o0) (limit_price order)).
      { destruct (better_total buy (limit_price o0) (limit_price order)) as [H|[H|H]]; [exact H| |].
        - apply eq_sym, isEqualPrice_true in H. congruence.
        - apply (isBetterPrice_true buy) in H; [congruence|reflexivity|assumption]. }
      apply Exists_cons in Hex as [Hex|Hex]; [elim Hex; exact Hlb|].
      destruct (IH Hrest Hq Hex) as (rest' & Escan & Hwf' & Hprices & Hhead & Htail).
      rewrite Escan. simpl. eexists; split; [reflexivity|]. split; [|split; [|split]].
      * apply side_wf_cons. split; [assumption|]. split; [|assumption]. simpl.
        apply List.Forall_forall. intros p Hp'. destruct (Hprices _ Hp') as [->|Hin]; [exact Hlb|].
        rewrite List.Forall_forall in Hb. apply Hb; assumption.
      * simpl. intros p [<-|H]; auto. destruct (Hprices _ H); auto.
      * simpl. intros p [= <-]. auto.
      * intros pre lvl post E Hlp. destruct pre as [|l0 pre]; simpl in E.
        { exfalso. injection E as <- <-. simpl in Hlp. rewrite Hlp in Hlb.
          exact (better_irrefl _ _ Hlb). }
        injection E as <- E. simpl. f_equal. apply Htail; assumption.
Qed.

Lemma sorted_prices_snoc buy ps q :
  sorted_prices buy ps -> Forall (fun p => better buy p q) ps ->
  sorted_prices buy (ps ++ [q]).
Proof.
  induction ps as [|p ps IH]; simpl; intros Hs Hall.
  - split; constructor.
  - destruct Hs as [Hp Hs]. apply Forall_cons_1 in Hall as [Hpq Hall]. split.
    + apply Forall_app; split; [assumption|]. constructor; [assumption|constructor].
    + apply IH; assumption.
Qed.

Lemma sorted_prices_last buy ps w :
  sorted_prices buy (ps ++ [w]) -> Forall (fun p => better buy p w) ps.
Proof.
  induction ps as [|p ps IH]; simpl; intros Hs; [constructor|].
  destruct Hs as [Hp Hs]. constructor; [|apply IH; assumption].
  apply Forall_app in Hp as [_ Hp]. apply Forall_cons_1 in Hp as [Hp _]. exact Hp.
Qed.

Lemma head_price_wf buy l s : level_ok buy l -> head_price (l :: s) = Some (lprice l).
Proof. intros [Hne _]. destruct l; [congruence|reflexivity]. Qed.

Lemma head_price_in s p : head_price s = Some p -> In p (map lprice s).
Proof. destruct s as [|[|o tl] rest]; simpl; intros [= <-]. left; reflexivity. Qed.

(** The head of a well-formed side carries its best price. *)
Lemma head_price_best buy s p0 p :
  side_wf buy s -> head_price s = Some p0 -> In p (map lprice s) ->
  p = p0 \/ better buy p0 p.
Proof.
  intros Hwf Hh Hin. destruct s as [|l rest]; [discriminate|].
  apply side_wf_cons in Hwf as (Hl & Hb & _).
  rewrite (head_price_wf _ _ _ Hl) in Hh. injection Hh as <-.
  simpl in Hin. destruct Hin as [<-|Hin]; [left; reflexivity|right].
  rewrite List.Forall_forall in Hb. apply Hb; assumption.
Qed.

Lemma enterOrder_entered b order :
  side_wf (is_buy_order order) (own_side b order) -> 0 < quantity order ->
  exists s', enterOrder b order = Ok (set_own_side b order s') /\
             entered (is_buy_order order) order (own_side b order) s'.
Proof.
  intros Hwf Hq. unfold enterOrder.
  set (buy := is_buy_order order) in *. set (s := own_side b order) in *.
  destruct (last s) as [w|] eqn:El.
  - apply last_Some in El as [s0 Es].
    assert (Hw : level_ok buy w).
    { destruct Hwf as [Hall _]. rewrite Es in Hall.
      apply Forall_app in Hall as [_ Hall]. apply Forall_cons_1 in Hall as [Hall _]. exact Hall. }
    destruct (level_ok_head _ _ Hw) as (w0 & wtl & -> & Hside & _).
    destruct (isBetterPrice order w0) eqn:Eb; simpl.
    + destruct (enter_scan_entered order s Hwf Hq) as (s' & Escan & Hent).
      { rewrite Es. apply Exists_app. right. constructor. simpl. intros Hbad.
        apply (isBetterPrice_true buy) in Eb; [|reflexivity|assumption].
        exact (better_irrefl _ _ (better_trans _ _ _ _ Eb Hbad)). }
      rewrite Escan. simpl. eauto.
    + destruct (isEqualPrice order w0) eqn:Ee; simpl.
      * destruct (enter_scan_entered order s Hwf Hq) as (s' & Escan & Hent).
        { rewrite Es. apply Exists_app. right. constructor. simpl. intros Hbad.
          apply isEqualPrice_true in Ee. rewrite Ee in Hbad. exact (better_irrefl _ _ Hbad). }
        rewrite Escan. simpl. eauto.
      * (* worse than every resting price: a new last level *)
        assert (Hlast : better buy (limit_price w0) (limit_price order)).
        { destruct (better_total buy (limit_price w0) (limit_price order)) as [H|[H|H]]; [exact H| |].
          - apply eq_sym, isEqualPrice_true in H. congruence.
          - apply (isBetterPrice_true buy) in H; [congruence|reflexivity|assumption]. }
        assert (Hall : Forall (fun p => better buy p (limit_price order)) (map lprice s)).
        { destruct Hwf as [_ Hs]. rewrite Es in Hs |- *. rewrite map_app in Hs |- *. simpl in *.
          apply Forall_app; split; [|constructor; [exact Hlast|constructor]].
          eapply Forall_impl; [apply (sorted_prices_last _ _ _ Hs)|].
          intros p Hp. simpl in Hp. eapply better_trans; eassumption. }
        eexists; split; [reflexivity|]. split; [|split; [|split]].
        -- destruct Hwf as [Hlv Hs]. split.
           ++ apply Forall_app; split; [assumption|].
              constructor; [apply level_ok_single; assumption|constructor].
           ++ rewrite map_app. simpl. apply sorted_prices_snoc; assumption.
        -- intros p Hp. rewrite map_app in Hp. apply in_app_or in Hp as [Hp|[<-|[]]]; auto.
        -- intros p Hp. right. rewrite Es in Hp |- *.
           destruct s0 as [|l0 s0]; simpl in *; [|exact Hp].
           exact Hp.
        -- intros pre lvl post E Hlp. exfalso.
           pose proof (lprice_in_middle _ _ _ _ E) as Hin.
           rewrite List.Forall_forall in Hall. specialize (Hall _ Hin). simpl in Hall.
           rewrite Hlp in Hall. exact (better_irrefl _ _ Hall).
  - apply last_None in El. rewrite El.
    eexists; split; [reflexivity|]. split; [|split; [|split]].
    + split; [constructor; [apply level_ok_single; assumption|constructor]|].
      simpl. split; constructor.
    + simpl. intros p [<-|[]]. auto.
    + simpl. intros p [= <-]. auto.
    + intros pre lvl post E. destruct pre; discriminate.
Qed.

(** *** The matching loop, step by step *)

Lemma set_quantity_same o : set_quantity o (quantity o) = o.
Proof. destruct o; reflexivity. Qed.

Lemma concat_pop (tl : Level) (rest : Side) :
  concat (match tl with [] => rest | _ => tl :: rest end) = tl ++ concat rest.
Proof. destruct tl; reflexivity. Qed.

Lemma match_loop_trace fuel : forall b order msgs ex r,
  0 < quantity order ->
  match_loop fuel b order msgs ex = Some (Ok r) ->
  exists hits k accepted, loop_trace b order msgs ex r hits k accepted.
Proof.
  induction fuel as [|fuel IH]; intros b order msgs ex r Hq Hrun; [discriminate|].
  simpl in Hrun. rewrite executeOrder_head in Hrun.
  assert (Henter : forall b2,
    enterOrder b order = Ok b2 ->
    loop_trace b order msgs ex
      (mkResult b2 (msgs ++ [(agent_id order, ORDER_ACCEPTED order)]) ex)
      [] (concat (opp_side b order)) [(agent_id order, ORDER_ACCEPTED order)]).
  { intros b2 Hb2. unfold loop_trace; simpl. rewrite !app_nil_r.
    assert (Hopp : opp_side b2 order = opp_side b order).
    { unfold enterOrder in Hb2.
      destruct (last (own_side b order)) as [[|w wt]|]; try discriminate.
      - destruct (negb (isBetterPrice order w) && negb (isEqualPrice order w)).
        + injection Hb2 as <-. apply opp_side_set_own.
        + destruct (enter_scan order (own_side b order)); simpl in Hb2; [|discriminate].
          injection Hb2 as <-. apply opp_side_set_own.
      - injection Hb2 as <-. apply opp_side_set_own. }
    repeat split; try reflexivity.
    - left. split; [constructor|]. rewrite Hopp. reflexivity.
    - right. exists b, (quantity order). rewrite set_quantity_same.
      split; [reflexivity|]. split; [assumption|]. split; [reflexivity|]. eauto. }
  destruct (opp_side b order) as [|[|o0 tl] rest] eqn:Eopp.
  - destruct (enterOrder b order) as [b2|] eqn:Eb2; [|discriminate].
    injection Hrun as <-. exists [], [], [(agent_id order, ORDER_ACCEPTED order)].
    apply (Henter b2). reflexivity.
  - discriminate.
  - destruct (isMatch order o0) eqn:Em.
    + destruct (quantity o0 <=? quantity order) eqn:Eq.
      * (* the head is consumed entirely *)
        apply Z.leb_le in Eq. cbn [quantity set_fill_price set_quantity fill_price] in Hrun.
        destruct (quantity order - quantity o0 <=? 0) eqn:Erem.
        -- injection Hrun as <-.
           exists [(o0, quantity o0)], (tl ++ concat rest), [].
           unfold loop_trace; simpl. rewrite ?app_nil_r, ?set_quantity_same.
           rewrite opp_side_set_opp, own_side_set_opp, concat_pop, Eopp.
           split; [reflexivity|]. split; [reflexivity|]. split; [reflexivity|]. split.
           ++ left. split; [|reflexivity]. constructor; [reflexivity|constructor].
           ++ left. split; reflexivity.
        -- apply Z.leb_gt in Erem.
           apply IH in Hrun; [|simpl; lia].
           destruct Hrun as (hits & k & acc & Hk & Hm & He & Hrest & Hacc).
           exists ((o0, quantity o0) :: hits), k, acc.
           unfold loop_trace.
           change (opp_side ?x (set_quantity order ?q)) with (opp_side x order) in *.
           change (own_side ?x (set_quantity order ?q)) with (own_side x order) in *.
           rewrite opp_side_set_opp in Hk. rewrite own_side_set_opp in Hacc.
           rewrite concat_pop in Hk.
           split; [rewrite Eopp; simpl; f_equal; exact Hk|].
           split.
           { rewrite Hm, <- app_assoc. reflexivity. }
           split; [rewrite He, <- app_assoc; reflexivity|].
           split.
           ++ destruct Hrest as [[Hf Hc]|(hits0 & h & q & -> & Hf & Hq' & Hc)].
              ** left. split; [constructor; [reflexivity|assumption]|assumption].
              ** right. exists ((o0, quantity o0) :: hits0), h, q.
                 split; [reflexivity|]. split; [constructor; [reflexivity|assumption]|].
                 split; assumption.
           ++ destruct Hacc as [[-> Ho]|(b_mid & q & -> & Hqp & Ho & He')].
              ** left. split; [reflexivity|assumption].
              ** right. exists b_mid, q. auto.
      * (* the head covers the incoming order and stays, decremented *)
        apply Z.leb_gt in Eq. cbn [quantity set_fill_price set_quantity fill_price] in Hrun.
        replace (quantity order - quantity order <=? 0) with true in Hrun
          by (symmetry; apply Z.leb_le; lia).
        injection Hrun as <-.
        exists [(o0, quantity order)], (tl ++ concat rest), [].
        unfold loop_trace; simpl. rewrite ?app_nil_r.
        rewrite opp_side_set_opp, own_side_set_opp, Eopp.
        split; [reflexivity|]. split; [reflexivity|]. split; [reflexivity|]. split.
        -- right. exists [], o0, (quantity order).
           split; [reflexivity|]. split; [constructor|]. split; [lia|reflexivity].
        -- left. split; reflexivity.
    + destruct (enterOrder b order) as [b2|] eqn:Eb2; [|discriminate].
      injection Hrun as <-. exists [], (concat ((o0 :: tl) :: rest)), [(agent_id order, ORDER_ACCEPTED order)].
      apply (Henter b2). reflexivity.
Qed.

(** *** The invariant, seen from the incoming order *)

Lemma book_wf_sides b order :
  book_wf b <->
  side_wf (is_buy_order order) (own_side b order) /\
  side_wf (negb (is_buy_order order)) (opp_side b order) /\
  apart (is_buy_order order) (own_side b order) (opp_side b order).
Proof.
  unfold book_wf, noncross, apart, own_side, opp_side.
  destruct (is_buy_order order); simpl; [tauto|].
  split; intros (H1 & H2 & H3); (split; [|split]); try assumption.
  - intros po pp Ho Hp. apply H3; assumption.
  - intros pb pa Hb Ha. apply (H3 pa pb); assumption.
Qed.

Lemma book_wf_set_opp b order s :
  side_wf (is_buy_order order) (own_side b order) ->
  side_wf (negb (is_buy_order order)) s ->
  apart (is_buy_order order) (own_side b order) s ->
  book_wf (set_opp_side b order s).
Proof.
  intros H1 H2 H3. apply (book_wf_sides _ order).
  rewrite own_side_set_opp, opp_side_set_opp. auto.
Qed.

Lemma book_wf_set_own b order s :
  side_wf (is_buy_order order) s ->
  side_wf (negb (is_buy_order order)) (opp_side b order) ->
  apart (is_buy_order order) s (opp_side b order) ->
  book_wf (set_own_side b order s).
Proof.
  intros H1 H2 H3. apply (book_wf_sides _ order).
  rewrite own_side_set_own, opp_side_set_own. auto.
Qed.

(** Prices only leave the opposite side: the gap cannot close. *)
Lemma apart_narrow_opp buy own opp opp' :
  side_wf (negb buy) opp ->
  (forall p, head_price opp' = Some p -> In p (map lprice opp)) ->
  apart buy own opp -> apart buy own opp'.
Proof.
  intros Hwf Hsub Hap po pp Ho Hp.
  specialize (Hsub _ Hp).
  destruct (head_price opp) as [p0|] eqn:E0.
  - specialize (Hap _ _ Ho E0).
    destruct (head_price_best _ _ _ _ Hwf E0 Hsub) as [->|Hb]; [exact Hap|].
    unfold better in Hb. destruct buy; simpl in Hb; lia.
  - destruct opp as [|l rest]; [destruct Hsub|].
    apply side_wf_cons in Hwf as (Hl & _ & _).
    rewrite (head_price_wf _ _ _ Hl) in E0. discriminate.
Qed.

Lemma apart_narrow_own buy own own' opp :
  side_wf buy own ->
  (forall p, head_price own' = Some p -> In p (map lprice own)) ->
  apart buy own opp -> apart buy own' opp.
Proof.
  intros Hwf Hsub Hap po pp Ho Hp.
  specialize (Hsub _ Ho).
  destruct (head_price own) as [p0|] eqn:E0.
  - specialize (Hap _ _ E0 Hp).
    destruct (head_price_best _ _ _ _ Hwf E0 Hsub) as [->|Hb]; [exact Hap|].
    unfold better in Hb. destruct buy; simpl in Hb; lia.
  - destruct own as [|l rest]; [destruct Hsub|].
    apply side_wf_cons in Hwf as (Hl & _ & _).
    rewrite (head_price_wf _ _ _ Hl) in E0. discriminate.
Qed.

Lemma head_price_pop_in buy o tl rest p :
  head_price (match tl with [] => rest | _ => tl :: rest end) = Some p ->
  level_ok buy (o :: tl) ->
  In p (map lprice ((o :: tl) :: rest)).
Proof.
  intros H Hl. destruct tl as [|o' tl].
  - right. apply head_price_in. exact H.
  - left. apply level_ok_tail in Hl as [_ E]. simpl in *. congruence.
Qed.

(** An order that found no match rests without crossing. *)
Lemma apart_entered order own own' opp :
  entered (is_buy_order order) order own own' ->
  apart (is_buy_order order) own opp ->
  (forall pp, head_price opp = Some pp ->
              if is_buy_order order then limit_price order < pp else pp < limit_price order) ->
  apart (is_buy_order order) own' opp.
Proof.
  intros (_ & _ & Hhead & _) Hap Hno po pp Ho Hp.
  destruct (Hhead _ Ho) as [->|Hold]; [apply Hno; assumption|].
  apply Hap; assumption.
Qed.

Lemma book_symbol_set_opp b order s : book_symbol (set_opp_side b order s) = book_symbol b.
Proof. unfold set_opp_side. destruct (is_buy_order order); reflexivity. Qed.

Lemma book_symbol_set_own b order s : book_symbol (set_own_side b order s) = book_symbol b.
Proof. unfold set_own_side. destruct (is_buy_order order); reflexivity. Qed.

Lemma side_size_pop o tl rest :
  side_size ((o :: tl) :: rest) =
  S (side_size (match tl with [] => rest | _ => tl :: rest end)).
Proof. unfold side_size. rewrite concat_pop. reflexivity. Qed.

(** The bound on the number of iterations is never reached, whatever the
    book: every iteration but the last removes a resting order. *)
Lemma match_loop_bound fuel : forall b order msgs ex,
  (side_size (opp_side b order) < fuel)%nat ->
  match_loop fuel b order msgs ex <> None.
Proof.
  induction fuel as [|fuel IH]; intros b order msgs ex Hfuel; [lia|].
  simpl. rewrite executeOrder_head.
  destruct (opp_side b order) as [|[|o0 tl] rest] eqn:Eopp.
  - destruct (enterOrder b order); discriminate.
  - discriminate.
  - destruct (isMatch order o0).
    + destruct (quantity o0 <=? quantity order).
      * cbn [quantity set_fill_price set_quantity fill_price].
        destruct (quantity order - quantity o0 <=? 0); [discriminate|].
        apply IH.
        change (opp_side ?x (set_quantity order ?q)) with (opp_side x order).
        rewrite opp_side_set_opp. rewrite side_size_pop in Hfuel. lia.
      * cbn [quantity set_fill_price set_quantity fill_price].
        replace (quantity order - quantity order <=? 0) with true
          by (symmetry; apply Z.leb_le; lia).
        discriminate.
    + destruct (enterOrder b order); discriminate.
Qed.

Lemma handleLimitOrder_bound b order : handleLimitOrder b order <> None.
Proof.
  unfold OrderBook.handleLimitOrder.
  destruct (negb _); [discriminate|]. destruct (quantity order <=? 0); [discriminate|].
  destruct (prettyPrint b); [|discriminate].
  pose proof (match_loop_bound (S (side_size (opp_side b order))) b order [] []
                ltac:(lia)) as H.
  destruct (match_loop _ b order [] []) as [[r|e]|]; [discriminate|discriminate|congruence].
Qed.

(** From a well-formed book the loop ends within its bound, raises nothing and
    leaves a well-formed book. *)
Lemma match_loop_wf fuel : forall b order msgs ex,
  book_wf b -> 0 < quantity order ->
  (side_size (opp_side b order) < fuel)%nat ->
  Forall pos_exec ex ->
  exists r, match_loop fuel b order msgs ex = Some (Ok r) /\
            book_wf (r_book r) /\
            book_symbol (r_book r) = book_symbol b /\
            Forall pos_exec (r_executed r).
Proof.
  induction fuel as [|fuel IH]; intros b order msgs ex Hwf Hq Hfuel Hex; [lia|].
  simpl. rewrite executeOrder_head.
  pose proof (proj1 (book_wf_sides b order) Hwf) as (Hown & Hopp & Hap).
  assert (Henter :
    (forall pp, head_price (opp_side b order) = Some pp ->
                if is_buy_order order then limit_price order < pp else pp < limit_price order) ->
    exists r,
      match enterOrder b order with
      | Ok b2 => Some (Ok (mkResult b2 (msgs ++ [(agent_id order, ORDER_ACCEPTED order)]) ex))
      | Raise e => Some (Raise e)
      end = Some (Ok r) /\
      book_wf (r_book r) /\ book_symbol (r_book r) = book_symbol b /\
      Forall pos_exec (r_executed r)).
  { intros Hno. destruct (enterOrder_entered b order Hown Hq) as (s' & -> & Hent).
    eexists; split; [reflexivity|]. simpl. split; [|split; [apply book_symbol_set_own|assumption]].
    apply book_wf_set_own; [apply Hent|assumption|].
    eapply apart_entered; eassumption. }
  destruct (opp_side b order) as [|[|o0 tl] rest] eqn:Eopp.
  - apply Henter. intros pp [=].
  - exfalso. apply side_wf_cons in Hopp as ([Hne _] & _). congruence.
  - pose proof Hopp as Hopp0.
    apply side_wf_cons in Hopp as (Hl & _ & _).
    pose proof Hl as Hl0.
    apply level_ok_cons in Hl as [(Hside0 & _ & Hq0) _].
    destruct (isMatch order o0) eqn:Em.
    + destruct (quantity o0 <=? quantity order) eqn:Eq.
      * apply Z.leb_le in Eq. cbn [quantity set_fill_price set_quantity fill_price].
        assert (Hwf1 : book_wf (set_opp_side b order
                                  (match tl with [] => rest | _ => tl :: rest end))).
        { apply book_wf_set_opp; [assumption|eapply side_wf_pop; eassumption|].
          eapply apart_narrow_opp; [exact Hopp0| |exact Hap].
          intros p Hp. eapply head_price_pop_in; eassumption. }
        assert (Hex1 : Forall pos_exec (ex ++ [(quantity o0, Some (limit_price o0))])).
        { apply Forall_app; split; [assumption|].
          constructor; [|constructor]. split; simpl; [assumption|eauto]. }
        destruct (quantity order - quantity o0 <=? 0) eqn:Erem.
        -- eexists; split; [reflexivity|]. simpl.
           split; [assumption|]. split; [apply book_symbol_set_opp|assumption].
        -- apply Z.leb_gt in Erem.
           edestruct (IH (set_opp_side b order (match tl with [] => rest | _ => tl :: rest end))
                         (set_quantity order (quantity order - quantity o0)))
             as (r & Hr & Hwfr & Hsym & Hexr); [exact Hwf1|simpl; lia| |exact Hex1|].
           { change (opp_side ?x (set_quantity order ?q)) with (opp_side x order).
             rewrite opp_side_set_opp. rewrite side_size_pop in Hfuel. lia. }
           exists r. split; [exact Hr|]. split; [assumption|].
           split; [rewrite Hsym; apply book_symbol_set_opp|assumption].
      * apply Z.leb_gt in Eq. cbn [quantity set_fill_price set_quantity fill_price].
        replace (quantity order - quantity order <=? 0) with true
          by (symmetry; apply Z.leb_le; lia).
        eexists; split; [reflexivity|]. simpl.
        split; [|split; [apply book_symbol_set_opp|]].
        -- apply book_wf_set_opp; [assumption|apply side_wf_shrink; [lia|assumption]|].
           eapply apart_narrow_opp; [exact Hopp0| |exact Hap].
           simpl. intros p [= <-]. left. reflexivity.
        -- apply Forall_app; split; [assumption|].
           constructor; [|constructor]. split; simpl; [assumption|eauto].
    + apply Henter. simpl. intros pp [= <-].
      assert (Hm : ~ (if is_buy_order order then limit_price o0 <= limit_price order
                      else limit_price order <= limit_price o0)).
      { intros H. apply isMatch_true in H; [congruence|assumption]. }
      destruct (is_buy_order order); lia.
Qed.

(** *** The bookkeeping after the loop *)

Lemma inside_wf buy s : side_wf buy s -> exists d, inside s = Ok d.
Proof.
  induction s as [|l rest IH]; intros Hwf; [eexists; reflexivity|].
  apply side_wf_cons in Hwf as (Hl & _ & Hrest).
  destruct (level_ok_head _ _ Hl) as (o & tl & -> & _).
  destruct (IH Hrest) as [d Hd]. simpl. rewrite Hd. eexists; reflexivity.
Qed.

Lemma best_price_wf buy s : side_wf buy s -> best_price s = Ok (head_price s).
Proof.
  destruct s as [|[|o tl] rest]; intros Hwf; try reflexivity.
  apply side_wf_cons in Hwf as ([Hne _] & _). congruence.
Qed.

Lemma executed_totals_pos ex : forall q p,
  Forall pos_exec ex ->
  exists q' p', executed_totals ex q p = Ok (q', p') /\ q <= q' /\ (ex <> [] -> q < q').
Proof.
  induction ex as [|[q0 [p0|]] ex IH]; intros q p Hex.
  - exists q, p. split; [reflexivity|]. split; [lia|congruence].
  - apply Forall_cons_1 in Hex as [[Hq0 _] Hex]. simpl in Hq0.
    destruct (IH (q + q0) (p + p0 * q0) Hex) as (q' & p' & E & Hle & _).
    exists q', p'. split; [exact E|]. split; [lia|]. intros _. lia.
  - apply Forall_cons_1 in Hex as [[_ [x Hx]] _]. discriminate.
Qed.

Lemma after_loop_inv r r' :
  after_loop r = Ok r' ->
  exists lt db da,
    new_last_trade (r_book r) (r_executed r) = Ok lt /\
    r' = mkResult (mkBook (owner (r_book r)) (book_symbol (r_book r)) (bids (r_book r))
                          (asks (r_book r)) lt (book_log (r_book r) ++ [(db, da)]))
                  (r_msgs r) (r_executed r).
Proof.
  unfold OrderBook.after_loop. intros H.
  destruct (best_price (bids (r_book r))) as [bb|]; [|discriminate].
  cbn [mbind outcome_bind] in H. destruct (log_best bb); [|discriminate].
  cbn [mbind outcome_bind] in H.
  destruct (best_price (asks (r_book r))) as [ba|]; [|discriminate].
  cbn [mbind outcome_bind] in H. destruct (log_best ba); [|discriminate].
  cbn [mbind outcome_bind] in H.
  destruct (new_last_trade (r_book r) (r_executed r)) as [lt|]; [|discriminate].
  cbn [mbind outcome_bind] in H.
  destruct (getInsideBids (r_book r)) as [db|]; [|discriminate].
  cbn [mbind outcome_bind] in H.
  destruct (getInsideAsks (r_book r)) as [da|]; [|discriminate].
  cbn [mbind outcome_bind] in H. injection H as <-. eauto.
Qed.

Lemma after_loop_same r r' :
  after_loop r = Ok r' ->
  bids (r_book r') = bids (r_book r) /\ asks (r_book r') = asks (r_book r) /\
  book_symbol (r_book r') = book_symbol (r_book r) /\
  r_msgs r' = r_msgs r /\ r_executed r' = r_executed r.
Proof.
  intros H. apply after_loop_inv in H as (lt & db & da & _ & ->). simpl. auto.
Qed.

(** The bookkeeping leaves the owner alone; the last trade price stays, or
    becomes an average that was formatted. *)
Lemma after_loop_print r r' :
  after_loop r = Ok r' ->
  owner (r_book r') = owner (r_book r) /\
  (last_trade (r_book r') = last_trade (r_book r) \/
   exists avg_price, last_trade (r_book r') = Some avg_price /\
                     format_f fl avg_price = Ok tt).
Proof.
  intros H. apply after_loop_inv in H as (lt & db & da & Elt & ->). simpl.
  split; [reflexivity|].
  unfold OrderBook.new_last_trade in Elt. destruct (r_executed r) as [|e ex].
  - injection Elt as <-. left. reflexivity.
  - destruct (each _ _); [|discriminate]. cbn [mbind outcome_bind] in Elt.
    destruct (executed_totals (e :: ex) 0 0) as [[q p]|]; [|discriminate].
    cbn [mbind outcome_bind] in Elt. destruct (q =? 0); [discriminate|].
    destruct (float_avg fl p q) as [avg|]; [|discriminate]. cbn [mbind outcome_bind] in Elt.
    destruct (format_f fl avg) as [[]|] eqn:Ef; [|discriminate].
    cbn [mbind outcome_bind] in Elt. injection Elt as <-. right. eauto.
Qed.

Lemma each_ok {A : Type} (f : A -> outcome unit) l :
  Forall (fun x => f x = Ok tt) l -> each f l = Ok tt.
Proof.
  induction l as [|x l IH]; intros H; [reflexivity|].
  apply Forall_cons_1 in H as [Hx Hl]. simpl. rewrite Hx. simpl. apply IH. exact Hl.
Qed.

(** The prices a depth list shows are prices of resting orders. *)
Lemma inside_prices s : forall d,
  inside s = Ok d -> Forall (fun qv => exists o, In o (concat s) /\ fst qv = limit_price o) d.
Proof.
  induction s as [|l rest IH]; intros d H; simpl in H.
  - injection H as <-. constructor.
  - destruct l as [|o0 tl]; [discriminate|].
    destruct (inside rest) as [more|]; [|discriminate]. simpl in H. injection H as <-.
    constructor.
    + exists o0. split; [left; reflexivity|reflexivity].
    + eapply Forall_impl; [apply IH; reflexivity|].
      intros qv (o & Hin & Hp). exists o. split; [|exact Hp].
      simpl. right. apply in_or_app. right. exact Hin.
Qed.

Lemma inside_shown s d :
  Forall (fun o => hundredth fl (limit_price o) = Ok tt) (concat s) ->
  inside s = Ok d ->
  Forall (fun qv : Z * Z => hundredth fl (fst qv) = Ok tt) d.
Proof.
  intros Hs Hd. eapply Forall_impl; [apply inside_prices; exact Hd|].
  intros qv (o & Hin & ->). rewrite List.Forall_forall in Hs. apply Hs. exact Hin.
Qed.

Lemma head_price_shown s p :
  Forall (fun o => hundredth fl (limit_price o) = Ok tt) (concat s) ->
  head_price s = Some p -> hundredth fl p = Ok tt.
Proof.
  destruct s as [|[|o tl] rest]; try discriminate. intros Hs [= <-].
  simpl in Hs. apply Forall_cons_1 in Hs as [Ho _]. exact Ho.
Qed.

Lemma after_loop_wf r :
  book_wf (r_book r) -> Forall pos_exec (r_executed r) ->
  Forall (fun o => hundredth fl (limit_price o) = Ok tt)
         (concat (bids (r_book r)) ++ concat (asks (r_book r))) ->
  Forall (fun e => exists p, snd e = Some p /\ hundredth fl p = Ok tt) (r_executed r) ->
  (forall trade_qty trade_price,
     executed_totals (r_executed r) 0 0 = Ok (trade_qty, trade_price) -> 0 < trade_qty ->
     exists avg_price, float_avg fl trade_price trade_qty = Ok avg_price /\
                       format_f fl avg_price = Ok tt) ->
  exists r', after_loop r = Ok r'.
Proof.
  intros (Hb & Ha & _) Hex Hshown Hfills Havg.
  apply Forall_app in Hshown as [Hsb Hsa].
  unfold OrderBook.after_loop, getInsideBids, getInsideAsks.
  rewrite (best_price_wf _ _ Hb), (best_price_wf _ _ Ha). cbn [mbind outcome_bind].
  assert (Hlog : forall s, Forall (fun o => hundredth fl (limit_price o) = Ok tt) (concat s) ->
                           log_best (head_price s) = Ok tt).
  { intros s Hs. unfold OrderBook.log_best. destruct (head_price s) as [p|] eqn:E; [|reflexivity].
    simpl. eapply head_price_shown; eassumption. }
  rewrite (Hlog _ Hsb), (Hlog _ Hsa). cbn [mbind outcome_bind].
  destruct (inside_wf _ _ Hb) as [db ->]. destruct (inside_wf _ _ Ha) as [da ->].
  assert (Hlt : exists lt, new_last_trade (r_book r) (r_executed r) = Ok lt).
  { unfold OrderBook.new_last_trade.
    destruct (r_executed r) as [|e ex] eqn:E; [eexists; reflexivity|].
    rewrite each_ok.
    2:{ apply Forall_map. eapply Forall_impl; [exact Hfills|].
        intros e0 (p & -> & Hp). exact Hp. }
    cbn [mbind outcome_bind].
    destruct (executed_totals_pos (e :: ex) 0 0 Hex) as (q' & p' & Et & _ & Hpos).
    specialize (Hpos ltac:(discriminate)).
    destruct (Havg q' p' Et Hpos) as (avg & Hav & Hf).
    rewrite Et. cbn [mbind outcome_bind].
    destruct (Z.eqb_spec q' 0) as [->|_]; [lia|].
    rewrite Hav. cbn [mbind outcome_bind]. rewrite Hf. eexists; reflexivity. }
  destruct Hlt as [lt ->]. cbn [mbind outcome_bind]. eexists; reflexivity.
Qed.

(** On a well-formed book [prettyPrint] returns when the book is printable. *)
Lemma prettyPrint_printable b : book_wf b -> printable b -> prettyPrint b = Ok tt.
Proof.
  intros (Hb & Ha & _) ((p & Hp & Hf) & (v & Hv & Hh) & Hshown).
  apply Forall_app in Hshown as [Hsb Hsa].
  unfold OrderBook.prettyPrint, getInsideBids, getInsideAsks.
  rewrite Hv. cbn [mbind outcome_bind]. rewrite Hh. cbn [mbind outcome_bind].
  rewrite Hp, Hf. cbn [mbind outcome_bind].
  destruct (inside_wf _ _ Ha) as [da Hda]. destruct (inside_wf _ _ Hb) as [db Hdb].
  rewrite Hda. cbn [mbind outcome_bind].
  rewrite each_ok; [|apply Forall_rev; exact (inside_shown _ _ Hsa Hda)].
  cbn [mbind outcome_bind]. rewrite Hdb. cbn [mbind outcome_bind].
  apply each_ok. exact (inside_shown _ _ Hsb Hdb).
Qed.

Lemma enterOrder_fields b order b' :
  enterOrder b order = Ok b' ->
  owner b' = owner b /\ book_symbol b' = book_symbol b /\ last_trade b' = last_trade b.
Proof.
  assert (Hset : forall s, owner (set_own_side b order s) = owner b /\
                           book_symbol (set_own_side b order s) = book_symbol b /\
                           last_trade (set_own_side b order s) = last_trade b).
  { intros s0. unfold set_own_side. destruct (is_buy_order order); auto. }
  unfold enterOrder. destruct (last (own_side b order)) as [[|w wtl]|]; try discriminate.
  - destruct (negb (isBetterPrice order w) && negb (isEqualPrice order w)).
    + intros [= <-]. apply Hset.
    + destruct (enter_scan order (own_side b order)); [|discriminate].
      intros [= <-]. apply Hset.
  - intros [= <-]. apply Hset.
Qed.

(** The loop touches neither the owner nor the last trade price. *)
Lemma match_loop_fields fuel : forall b order msgs ex r,
  match_loop fuel b order msgs ex = Some (Ok r) ->
  owner (r_book r) = owner b /\ book_symbol (r_book r) = book_symbol b /\
  last_trade (r_book r) = last_trade b.
Proof.
  induction fuel as [|fuel IH]; intros b order msgs ex r Hrun; [discriminate|].
  simpl in Hrun. rewrite executeOrder_head in Hrun.
  assert (Hset : forall s, owner (set_opp_side b order s) = owner b /\
                           book_symbol (set_opp_side b order s) = book_symbol b /\
                           last_trade (set_opp_side b order s) = last_trade b).
  { intros s0. unfold set_opp_side. destruct (is_buy_order order); auto. }
  assert (Henter :
    match enterOrder b order with
    | Ok b2 => Some (Ok (mkResult b2 (msgs ++ [(agent_id order, ORDER_ACCEPTED order)]) ex))
    | Raise e => Some (Raise e)
    end = Some (Ok r) ->
    owner (r_book r) = owner b /\ book_symbol (r_book r) = book_symbol b /\
    last_trade (r_book r) = last_trade b).
  { intros H. destruct (enterOrder b order) as [b2|e] eqn:E; [|discriminate].
    injection H as <-. simpl. eapply enterOrder_fields; exact E. }
  destruct (opp_side b order) as [|[|o0 tl] rest] eqn:Eopp; [auto|discriminate|].
  destruct (isMatch order o0); [|auto].
  destruct (quantity o0 <=? quantity order);
    cbn [quantity set_fill_price set_quantity fill_price] in Hrun;
    match type of Hrun with
    | (if ?c then _ else _) = _ => destruct c
    end;
    try (injection Hrun as <-; apply Hset).
  all: apply IH in Hrun as (H1 & H2 & H3).
  all: destruct (Hset (match tl with [] => rest | _ => tl :: rest end)) as (G1 & G2 & G3).
  all: destruct (Hset ((set_quantity o0 (quantity o0 - quantity order) :: tl) :: rest))
         as (K1 & K2 & K3).
  all: repeat split; congruence.
Qed.

Lemma book_wf_same b b' :
  bids b' = bids b -> asks b' = asks b -> book_wf b -> book_wf b'.
Proof. unfold book_wf, noncross. intros -> ->. auto. Qed.

(** *** Cancelling an order *)

Lemma cancel_in_level_Forall (P : LimitOrder -> Prop) oid : forall l c l',
  cancel_in_level oid l = Some (c, l') -> Forall P l -> Forall P l'.
Proof.
  induction l as [|co tl IH]; intros c l' H Hall; [discriminate|].
  apply Forall_cons_1 in Hall as [Hco Htl]. simpl in H.
  destruct (Nat.eqb oid (order_id co)).
  - injection H as <- <-. exact Htl.
  - destruct (cancel_in_level oid tl) as [[c' tl']|] eqn:E; [|discriminate].
    injection H as <- <-. constructor; [assumption|]. eapply IH; [reflexivity|assumption].
Qed.

Lemma level_ok_at buy p l :
  l <> [] -> Forall (order_ok buy p) l -> level_ok buy l /\ lprice l = p.
Proof.
  intros Hne Hall. destruct l as [|o tl]; [congruence|].
  pose proof Hall as Hall0. apply Forall_cons_1 in Hall as [(_ & Hp & _) _].
  simpl. split; [|exact Hp]. split; [discriminate|]. simpl. rewrite Hp. exact Hall0.
Qed.

Lemma cancel_scan_cons order o0 tl rest :
  cancel_scan order ((o0 :: tl) :: rest) =
  let continue :=
    r ← cancel_scan order rest;
    match r with
    | Some (c, rest') => Ok (Some (c, (o0 :: tl) :: rest'))
    | None => Ok None
    end in
  if isEqualPrice order o0 then
    match cancel_in_level (order_id order) (o0 :: tl) with
    | Some (c, []) => Ok (Some (c, rest))
    | Some (c, lvl') => Ok (Some (c, lvl' :: rest))
    | None => continue
    end
  else continue.
Proof. reflexivity. Qed.

Lemma cancel_scan_wf buy order : forall s c s',
  side_wf buy s -> cancel_scan order s = Ok (Some (c, s')) ->
  side_wf buy s' /\ (forall p, In p (map lprice s') -> In p (map lprice s)).
Proof.
  induction s as [|l rest IH]; intros c s' Hwf H; [discriminate|].
  pose proof Hwf as Hwf0.
  apply side_wf_cons in Hwf as (Hl & Hb & Hrest).
  destruct (level_ok_head _ _ Hl) as (o0 & tl & -> & _).
  assert (Hcont : forall r,
    (rr ← cancel_scan order rest;
     match rr with
     | Some (c, rest') => Ok (Some (c, (o0 :: tl) :: rest'))
     | None => Ok None
     end) = Ok (Some r) ->
    side_wf buy (snd r) /\
    (forall p, In p (map lprice (snd r)) -> In p (map lprice ((o0 :: tl) :: rest)))).
  { intros [c1 s1] Hr. destruct (cancel_scan order rest) as [[[c2 rest']|]|] eqn:E;
      simpl in Hr; try discriminate.
    injection Hr as <- <-. destruct (IH _ _ Hrest eq_refl) as [Hwf' Hsub]. simpl. split.
    - apply side_wf_cons. split; [assumption|]. split; [|assumption].
      apply List.Forall_forall. intros p Hp. rewrite List.Forall_forall in Hb. auto.
    - intros p [<-|Hp]; [left; reflexivity|right; auto]. }
  rewrite cancel_scan_cons in H. cbv zeta in H.
  destruct (isEqualPrice order o0); [|apply (Hcont (c, s')); exact H].
  destruct (cancel_in_level (order_id order) (o0 :: tl)) as [[c1 l1]|] eqn:Ec;
    [|apply (Hcont (c, s')); exact H].
  destruct Hl as [_ Hall]. simpl lprice in Hall.
  pose proof (cancel_in_level_Forall _ _ _ _ _ Ec Hall) as Hall1.
  destruct l1 as [|o1 l1].
  - injection H as <- <-. split; [assumption|]. intros p Hp. right. exact Hp.
  - injection H as <- <-.
    destruct (level_ok_at buy (limit_price o0) (o1 :: l1) ltac:(discriminate) Hall1) as [Hl1 Hp1].
    split.
    + apply side_wf_cons. rewrite Hp1. auto.
    + intros p Hp. simpl in Hp1. simpl in Hp |- *. rewrite Hp1 in Hp. exact Hp.
Qed.

Lemma cancelOrder_wf b order b' msgs :
  book_wf b -> cancelOrder b order = Ok (b', msgs) ->
  book_wf b' /\ book_symbol b' = book_symbol b.
Proof.
  intros Hwf H. unfold cancelOrder in H.
  destruct (cancel_scan order (own_side b order)) as [[[c s]|]|] eqn:E; simpl in H;
    try discriminate; injection H as <- <-; [|auto].
  pose proof (proj1 (book_wf_sides b order) Hwf) as (Hown & Hopp & Hap).
  destruct (cancel_scan_wf _ _ _ _ _ Hown E) as [Hs Hsub].
  split; [|apply book_symbol_set_own].
  apply book_wf_set_own; [assumption|assumption|].
  eapply apart_narrow_own; [exact Hown| |exact Hap].
  intros p Hp. apply Hsub. apply head_price_in. exact Hp.
Qed.

Lemma init_wf o sym : book_wf (init o sym).
Proof.
  split; [apply side_wf_nil|]. split; [apply side_wf_nil|]. intros pb pa [=].
Qed.

Lemma own_side_same b b' order :
  bids b' = bids b -> asks b' = asks b -> own_side b' order = own_side b order.
Proof. unfold own_side. intros -> ->. reflexivity. Qed.

Lemma opp_side_same b b' order :
  bids b' = bids b -> asks b' = asks b -> opp_side b' order = opp_side b order.
Proof. unfold opp_side. intros -> ->. reflexivity. Qed.

(** A call that returns either discarded the order or ran the loop. *)
Lemma handleLimitOrder_inv b order r' :
  handleLimitOrder b order = Some (Ok r') ->
  (r' = mkResult b [] [] /\ ~ valid_order b order) \/
  (valid_order b order /\
   exists r, match_loop (S (side_size (opp_side b order))) b order [] [] = Some (Ok r) /\
             after_loop r = Ok r').
Proof.
  unfold OrderBook.handleLimitOrder, valid_order. intros H.
  destruct (String.eqb (symbol order) (book_symbol b)) eqn:Es; cbn [negb] in H.
  - apply String.eqb_eq in Es.
    destruct (quantity order <=? 0) eqn:Eq.
    + apply Z.leb_le in Eq. left. injection H as <-. split; [reflexivity|]. lia.
    + apply Z.leb_gt in Eq. right. split; [auto|].
      destruct (prettyPrint b); [|discriminate].
      destruct (match_loop _ b order [] []) as [[r|e]|]; try discriminate.
      exists r. split; [reflexivity|]. injection H as H.
      destruct (after_loop r) as [r1|]; [|discriminate]. simpl in H.
      destruct (prettyPrint (r_book r1)); [|discriminate]. simpl in H.
      injection H as <-. reflexivity.
  - apply String.eqb_neq in Es. left. injection H as <-. split; [reflexivity|]. tauto.
Qed.

(** A call that returns keeps the book well formed. *)
Lemma handleLimitOrder_keeps_wf b order r :
  book_wf b -> handleLimitOrder b order = Some (Ok r) ->
  book_wf (r_book r) /\ book_symbol (r_book r) = book_symbol b.
Proof.
  intros Hwf H.
  destruct (handleLimitOrder_inv _ _ _ H) as [[-> _]|([_ Hq] & r0 & Hloop & Hafter)];
    [auto|].
  destruct (match_loop_wf (S (side_size (opp_side b order))) b order [] [] Hwf Hq)
    as (r1 & Hr1 & Hwfr & Hsym & _); [lia|constructor|].
  rewrite Hloop in Hr1. injection Hr1 as <-.
  apply after_loop_same in Hafter as (Hb & Ha & Hs & _).
  split; [eapply book_wf_same; eassumption|congruence].
Qed.

(** Every book a run can hold is well formed. *)
Lemma reachable_wf b : reachable b -> book_wf b.
Proof.
  induction 1 as [o sym|b o _ IH|b p _ IH|b order r _ IH Hr|b order b' msgs _ IH Hc].
  - apply init_wf.
  - exact IH.
  - exact IH.
  - eapply handleLimitOrder_keeps_wf; eassumption.
  - eapply cancelOrder_wf; eassumption.
Qed.

(** The trace of a whole call. *)
Lemma handleLimitOrder_trace b order r :
  handleLimitOrder b order = Some (Ok r) ->
  exists hits k accepted, loop_trace b order [] [] r hits k accepted.
Proof.
  intros H. destruct (handleLimitOrder_inv _ _ _ H) as [[-> _]|([_ Hq] & r0 & Hloop & Hafter)].
  - exists [], (concat (opp_side b order)), []. unfold loop_trace. simpl.
    split; [reflexivity|]. split; [reflexivity|]. split; [reflexivity|]. split; left; auto.
  - destruct (match_loop_trace _ _ _ _ _ _ Hq Hloop)
      as (hits & k & acc & Hk & Hm & He & Hrest & Hacc).
    apply after_loop_same in Hafter as (Hb & Ha & _ & Hmsgs & Hex).
    exists hits, k, acc. unfold loop_trace.
    rewrite (opp_side_same _ _ order Hb Ha), (own_side_same _ _ order Hb Ha), Hmsgs, Hex.
    auto.
Qed.

(** In a well-formed book no resting bid reaches a resting ask. *)
Lemma book_wf_all_apart b x y :
  book_wf b -> In x (concat (bids b)) -> In y (concat (asks b)) ->
  limit_price x < limit_price y.
Proof.
  intros (Hb & Ha & Hnc) Hx Hy.
  assert (Hside : forall buy s o, side_wf buy s -> In o (concat s) ->
            exists p0, head_price s = Some p0 /\
                       (limit_price o = p0 \/ better buy p0 (limit_price o))).
  { intros buy s o Hwf Ho. apply in_concat in Ho as (l & Hl & Hol).
    assert (Hlo : level_ok buy l).
    { destruct Hwf as [Hall _]. rewrite List.Forall_forall in Hall. auto. }
    assert (Hp : limit_price o = lprice l).
    { destruct Hlo as [_ Hall]. rewrite List.Forall_forall in Hall. apply (Hall o Hol). }
    destruct s as [|l0 rest]; [destruct Hl|].
    pose proof Hwf as Hwf0. apply side_wf_cons in Hwf as (Hl0 & _ & _).
    exists (lprice l0). split; [eapply head_price_wf; eassumption|].
    rewrite Hp. eapply head_price_best; [exact Hwf0|eapply head_price_wf; eassumption|].
    apply in_map. exact Hl. }
  destruct (Hside _ _ _ Hb Hx) as (pb & Hpb & Hxb).
  destruct (Hside _ _ _ Ha Hy) as (pa & Hpa & Hya).
  specialize (Hnc _ _ Hpb Hpa). unfold better in *. lia.
Qed.

(** An order that neither improves on a level nor equals it is worse. *)
Lemma worse_when_neither buy order o0 :
  is_buy_order order = buy -> is_buy_order o0 = buy ->
  isBetterPrice order o0 = false -> isEqualPrice order o0 = false ->
  better buy (limit_price o0) (limit_price order).
Proof.
  intros Ho Ho0 Eb Ee.
  destruct (better_total buy (limit_price o0) (limit_price order)) as [H|[H|H]]; [exact H| |].
  - apply eq_sym, isEqualPrice_true in H. congruence.
  - apply (isBetterPrice_true buy) in H; [congruence|assumption|assumption].
Qed.

(** *** First in, first out *)

Lemma fifo_fills_set_quantity order q' : forall l q,
  fifo_fills (set_quantity order q') q l = fifo_fills order q l.
Proof.
  induction l as [|x rest IH]; intros q; [reflexivity|].
  cbn [fifo_fills]. change (isMatch (set_quantity order q') x) with (isMatch order x).
  rewrite IH. reflexivity.
Qed.

(** What [fifo_fills] takes is an initial segment of the resting orders:
    every order but the last is taken whole, and what is left is the rest,
    behind what remains of an order taken in part. *)
Lemma fifo_fills_prefix order : forall l q hits remaining unfilled,
  0 < q ->
  fifo_fills order q l = (hits, remaining, unfilled) ->
  exists k, l = map fst hits ++ k /\
    ((Forall full_hit hits /\ remaining = k) \/
     (exists hits0 h q0,
        hits = hits0 ++ [(h, q0)] /\ Forall full_hit hits0 /\ 0 < q0 < quantity h /\
        remaining = set_quantity h (quantity h - q0) :: k)).
Proof.
  induction l as [|x rest IH]; intros q hits remaining unfilled Hq Hf; cbn [fifo_fills] in Hf.
  - injection Hf as <- <- <-. exists []. split; [reflexivity|]. left. split; [constructor|reflexivity].
  - destruct (isMatch order x).
    + destruct (Z.leb_spec (quantity x) q) as [Hle|Hgt].
      * destruct (Z.leb_spec (q - quantity x) 0) as [Hrem|Hrem].
        -- injection Hf as <- <- <-. exists rest. split; [reflexivity|]. left.
           split; [constructor; [reflexivity|constructor]|reflexivity].
        -- destruct (fifo_fills order (q - quantity x) rest) as [[h' rem'] u'] eqn:Erec.
           injection Hf as <- <- <-.
           destruct (IH _ _ _ _ Hrem Erec) as (k & Hk & Hcases).
           exists k. split; [simpl; f_equal; exact Hk|].
           destruct Hcases as [[Hfull ->]|(hits0 & h & q0 & -> & Hfull & Hq0 & ->)].
           ++ left. split; [constructor; [reflexivity|assumption]|reflexivity].
           ++ right. exists ((x, quantity x) :: hits0), h, q0.
              split; [reflexivity|]. split; [constructor; [reflexivity|assumption]|].
              split; [assumption|reflexivity].
      * injection Hf as <- <- <-. exists rest. split; [reflexivity|]. right.
        exists [], x, q. split; [reflexivity|]. split; [constructor|].
        split; [lia|reflexivity].
    + injection Hf as <- <- <-. exists (x :: rest). split; [reflexivity|]. left.
      split; [constructor|reflexivity].
Qed.

Lemma enterOrder_set b order b' :
  enterOrder b order = Ok b' -> exists s', b' = set_own_side b order s'.
Proof.
  unfold enterOrder. destruct (last (own_side b order)) as [[|w wtl]|]; try discriminate.
  - destruct (negb (isBetterPrice order w) && negb (isEqualPrice order w)).
    + intros [= <-]. eauto.
    + destruct (enter_scan order (own_side b order)); [|discriminate].
      intros [= <-]. eauto.
  - intros [= <-]. eauto.
Qed.

(** The loop does what [fifo_fills] says: the same hits in the same order,
    the same orders left, and the order comes to rest exactly when shares
    are left over. *)
Lemma match_loop_fifo fuel : forall b order msgs ex r hits remaining unfilled,
  0 < quantity order ->
  match_loop fuel b order msgs ex = Some (Ok r) ->
  fifo_fills order (quantity order) (concat (opp_side b order)) = (hits, remaining, unfilled) ->
  r_msgs r = msgs ++ flat_map (exec_msgs order) hits ++
             (if 0 <? unfilled
              then [(agent_id order, ORDER_ACCEPTED (set_quantity order unfilled))]
              else []) /\
  r_executed r = ex ++ map exec_entry hits /\
  concat (opp_side (r_book r) order) = remaining /\
  (if 0 <? unfilled
   then exists b_mid, own_side b_mid order = own_side b order /\
                      enterOrder b_mid (set_quantity order unfilled) = Ok (r_book r)
   else own_side (r_book r) order = own_side b order).
Proof.
  induction fuel as [|fuel IH]; intros b order msgs ex r hits remaining unfilled Hq Hrun Hf;
    [discriminate|].
  simpl in Hrun. rewrite executeOrder_head in Hrun.
  assert (Henter :
    match enterOrder b order with
    | Ok b2 => Some (Ok (mkResult b2 (msgs ++ [(agent_id order, ORDER_ACCEPTED order)]) ex))
    | Raise e => Some (Raise e)
    end = Some (Ok r) ->
    hits = [] -> remaining = concat (opp_side b order) -> unfilled = quantity order ->
    r_msgs r = msgs ++ flat_map (exec_msgs order) hits ++
               (if 0 <? unfilled
                then [(agent_id order, ORDER_ACCEPTED (set_quantity order unfilled))]
                else []) /\
    r_executed r = ex ++ map exec_entry hits /\
    concat (opp_side (r_book r) order) = remaining /\
    (if 0 <? unfilled
     then exists b_mid, own_side b_mid order = own_side b order /\
                        enterOrder b_mid (set_quantity order unfilled) = Ok (r_book r)
     else own_side (r_book r) order = own_side b order)).
  { intros H -> -> ->. destruct (enterOrder b order) as [b2|e] eqn:E; [|discriminate].
    injection H as <-. simpl.
    replace (0 <? quantity order) with true by (symmetry; apply Z.ltb_lt; exact Hq).
    rewrite set_quantity_same, !app_nil_r.
    destruct (enterOrder_set _ _ _ E) as [s' ->]. rewrite opp_side_set_own.
    split; [reflexivity|]. split; [reflexivity|]. split; [reflexivity|].
    exists b. split; [reflexivity|exact E]. }
  destruct (opp_side b order) as [|[|o0 tl] rest] eqn:Eopp.
  - simpl in Hf. injection Hf as <- <- <-. apply Henter; [exact Hrun| | |]; reflexivity.
  - discriminate.
  - change (concat ((o0 :: tl) :: rest)) with (o0 :: (tl ++ concat rest)) in Hf.
    cbn [fifo_fills] in Hf.
    destruct (isMatch order o0) eqn:Em.
    + destruct (quantity o0 <=? quantity order) eqn:Eq.
      * apply Z.leb_le in Eq. cbn [quantity set_fill_price set_quantity fill_price] in Hrun.
        destruct (quantity order - quantity o0 <=? 0) eqn:Erem.
        -- injection Hrun as <-. injection Hf as <- <- <-.
           simpl. rewrite ?app_nil_r, ?set_quantity_same.
           rewrite opp_side_set_opp, own_side_set_opp, concat_pop.
           split; [reflexivity|]. split; [reflexivity|]. split; reflexivity.
        -- apply Z.leb_gt in Erem.
           destruct (fifo_fills order (quantity order - quantity o0) (tl ++ concat rest))
             as [[h' rem'] u'] eqn:Erec.
           injection Hf as <- <- <-.
           apply (IH _ _ _ _ _ h' rem' u') in Hrun; [|simpl; lia|].
           2:{ change (opp_side ?x (set_quantity order ?q)) with (opp_side x order).
               rewrite opp_side_set_opp, concat_pop, fifo_fills_set_quantity.
               exact Erec. }
           destruct Hrun as (Hm & He & Hc & Hown).
           change (opp_side ?x (set_quantity order ?q)) with (opp_side x order) in *.
           change (own_side ?x (set_quantity order ?q)) with (own_side x order) in *.
           rewrite own_side_set_opp in Hown.
           split; [rewrite Hm, <- app_assoc; simpl; rewrite ?set_quantity_same; reflexivity|].
           split; [rewrite He, <- app_assoc; reflexivity|].
           split; [exact Hc|exact Hown].
      * apply Z.leb_gt in Eq. cbn [quantity set_fill_price set_quantity fill_price] in Hrun.
        replace (quantity order - quantity order <=? 0) with true in Hrun
          by (symmetry; apply Z.leb_le; lia).
        injection Hrun as <-. injection Hf as <- <- <-.
        simpl. rewrite ?app_nil_r.
        rewrite opp_side_set_opp, own_side_set_opp.
        split; [reflexivity|]. split; [reflexivity|]. split; reflexivity.
    + injection Hf as <- <- <-. apply Henter; [exact Hrun| | |]; reflexivity.
Qed.

Lemma inserted_cons o l s s' :
  lprice l <> limit_price o -> inserted o s s' -> inserted o (l :: s) (l :: s').
Proof.
  intros Hne [(pre & lvl & post & -> & Hp & ->)|(Hall & pre & post & -> & ->)].
  - left. exists (l :: pre), lvl, post. auto.
  - right. split; [constructor; assumption|]. exists (l :: pre), post. auto.
Qed.

Lemma better_neq buy p q : better buy p q -> p <> q.
Proof. intros H ->. exact (better_irrefl _ _ H). Qed.

Lemma enter_scan_inserted order : forall s s',
  side_wf (is_buy_order order) s ->
  Exists (fun l => ~ better (is_buy_order order) (lprice l) (limit_price order)) s ->
  enter_scan order s = Ok s' -> inserted order s s'.
Proof.
  set (buy := is_buy_order order).
  induction s as [|l rest IH]; intros s' Hwf Hex H; [inversion Hex|].
  apply side_wf_cons in Hwf as (Hl & Hb & Hrest).
  destruct (level_ok_head _ _ Hl) as (o0 & tl & -> & Hside & _).
  simpl in H. simpl lprice in Hb.
  destruct (isBetterPrice order o0) eqn:Eb.
  - injection H as <-. right.
    apply (isBetterPrice_true buy) in Eb; [|reflexivity|assumption].
    split; [|exists [], ((o0 :: tl) :: rest); auto].
    constructor.
    + simpl. apply not_eq_sym. eapply better_neq. exact Eb.
    + rewrite List.Forall_forall in Hb |- *. intros l Hin.
      apply not_eq_sym. eapply better_neq. eapply better_trans; [exact Eb|].
      apply Hb. apply in_map. exact Hin.
  - destruct (isEqualPrice order o0) eqn:Ee.
    + injection H as <-. left. apply isEqualPrice_true in Ee.
      exists [], (o0 :: tl), rest. auto.
    + assert (Hlb : better buy (limit_price o0) (limit_price order))
        by (eapply worse_when_neither; eauto).
      apply Exists_cons in Hex as [Hex|Hex]; [elim Hex; exact Hlb|].
      destruct (enter_scan order rest) as [rest'|e] eqn:E; [|discriminate].
      simpl in H. injection H as <-.
      apply inserted_cons; [simpl; eapply better_neq; exact Hlb|].
      apply IH; auto.
Qed.

(** Entering an order adds it to its own side, at the tail of its price
    level or as a new level, and leaves the opposite side alone. *)
Lemma enterOrder_inserted b order b' :
  side_wf (is_buy_order order) (own_side b order) ->
  enterOrder b order = Ok b' ->
  inserted order (own_side b order) (own_side b' order) /\
  opp_side b' order = opp_side b order.
Proof.
  intros Hwf H. unfold enterOrder in H.
  set (buy := is_buy_order order) in *. set (s := own_side b order) in *.
  assert (Hscan : Exists (fun l => ~ better buy (lprice l) (limit_price order)) s ->
                  (s' ← enter_scan order s; Ok (set_own_side b order s')) = Ok b' ->
                  inserted order s (own_side b' order) /\
                  opp_side b' order = opp_side b order).
  { intros Hex Hs. destruct (enter_scan order s) as [s'|e] eqn:E; [|discriminate].
    simpl in Hs. injection Hs as <-. rewrite own_side_set_own, opp_side_set_own.
    split; [|reflexivity]. eapply enter_scan_inserted; eassumption. }
  destruct (last s) as [w|] eqn:El.
  - apply last_Some in El as [s0 Es].
    assert (Hw : level_ok buy w).
    { destruct Hwf as [Hall _]. rewrite Es in Hall.
      apply Forall_app in Hall as [_ Hall]. apply Forall_cons_1 in Hall as [Hall _]. exact Hall. }
    destruct (level_ok_head _ _ Hw) as (w0 & wtl & -> & Hside & _).
    destruct (isBetterPrice order w0) eqn:Eb; simpl in H.
    + apply Hscan; [|exact H].
      rewrite Es. apply Exists_app. right. constructor. simpl. intros Hbad.
      apply (isBetterPrice_true buy) in Eb; [|reflexivity|assumption].
      exact (better_irrefl _ _ (better_trans _ _ _ _ Eb Hbad)).
    + destruct (isEqualPrice order w0) eqn:Ee; simpl in H.
      * apply Hscan; [|exact H].
        rewrite Es. apply Exists_app. right. constructor. simpl. intros Hbad.
        apply isEqualPrice_true in Ee. rewrite Ee in Hbad. exact (better_irrefl _ _ Hbad).
      * injection H as <-. rewrite own_side_set_own, opp_side_set_own.
        split; [|reflexivity]. right.
        assert (Hlast : better buy (limit_price w0) (limit_price order))
          by (eapply worse_when_neither; eauto).
        assert (Hall : Forall (fun p => better buy p (limit_price order)) (map lprice s)).
        { destruct Hwf as [_ Hs]. rewrite Es in Hs |- *. rewrite map_app in Hs |- *. simpl in *.
          apply Forall_app; split; [|constructor; [exact Hlast|constructor]].
          eapply Forall_impl; [apply (sorted_prices_last _ _ _ Hs)|].
          intros p Hp. simpl in Hp. eapply better_trans; eassumption. }
        split.
        -- rewrite List.Forall_forall in Hall |- *. intros l Hin.
           eapply better_neq. apply Hall. apply in_map. exact Hin.
        -- exists s, []. rewrite app_nil_r. auto.
  - apply last_None in El. injection H as <-.
    rewrite own_side_set_own, opp_side_set_own. split; [|reflexivity].
    rewrite El. right. split; [constructor|]. exists [], []. auto.
Qed.

(** *** When the call returns *)

Lemma inserted_Forall (P : LimitOrder -> Prop) o s s' :
  Forall P (concat s) -> P o -> inserted o s s' -> Forall P (concat s').
Proof.
  intros Hs Ho [(pre & lvl & post & -> & _ & ->)|(_ & pre & post & -> & ->)].
  - rewrite concat_app in Hs |- *. simpl in *.
    apply Forall_app in Hs as [Hpre Hs]. apply Forall_app in Hs as [Hlvl Hpost].
    apply Forall_app; split; [exact Hpre|].
    apply Forall_app; split; [|exact Hpost].
    apply Forall_app; split; [exact Hlvl|]. constructor; [exact Ho|constructor].
  - rewrite concat_app in Hs |- *. simpl.
    apply Forall_app in Hs as [Hpre Hpost].
    apply Forall_app; split; [exact Hpre|]. constructor; assumption.
Qed.

(** On a well-formed book that can be printed, with an order whose fills can
    be logged, the call returns. *)
Lemma handleLimitOrder_returns b order :
  book_wf b -> printable b -> loggable b order ->
  exists r, handleLimitOrder b order = Some (Ok r).
Proof.
  intros Hwf Hpr [Hprice Havg]. unfold OrderBook.handleLimitOrder.
  destruct (negb (String.eqb (symbol order) (book_symbol b))); [eauto|].
  destruct (quantity order <=? 0) eqn:Eq; [eauto|].
  apply Z.leb_gt in Eq. rewrite (prettyPrint_printable b Hwf Hpr).
  destruct (match_loop_wf (S (side_size (opp_side b order))) b order [] [] Hwf Eq)
    as (r & Hr & Hwfr & Hsym & Hex); [lia|constructor|].
  rewrite Hr.
  destruct (fifo_fills order (quantity order) (concat (opp_side b order)))
    as [[hits remaining] unfilled] eqn:Hf.
  destruct (match_loop_fifo _ _ _ _ _ _ _ _ _ Eq Hr Hf) as (_ & He & Hc & Hrest).
  simpl in He.
  destruct (fifo_fills_prefix _ _ _ _ _ _ Eq Hf) as (k & Hk & Hshape).
  destruct Hpr as (Hlast & (v & Hv & Hh) & Hshown).
  set (P := fun o : LimitOrder => hundredth fl (limit_price o) = Ok tt) in *.
  assert (Hsides : Forall P (concat (own_side b order)) /\
                   Forall P (concat (opp_side b order))).
  { apply Forall_app in Hshown as [H1 H2]. unfold own_side, opp_side.
    destruct (is_buy_order order); auto. }
  destruct Hsides as [Hso Hsp].
  rewrite Hk in Hsp. apply Forall_app in Hsp as [Hhits Hrestk].
  assert (Hopp' : Forall P (concat (opp_side (r_book r) order))).
  { rewrite Hc. destruct Hshape as [[_ ->]|(hits0 & h & q & -> & _ & _ & ->)];
      [exact Hrestk|].
    constructor; [|exact Hrestk].
    rewrite map_app in Hhits. apply Forall_app in Hhits as [_ Hh0].
    apply Forall_cons_1 in Hh0 as [Hh0 _]. exact Hh0. }
  assert (Hown' : Forall P (concat (own_side (r_book r) order))).
  { destruct (0 <? unfilled); [|rewrite Hrest; exact Hso].
    destruct Hrest as (b_mid & Ho & Hent).
    apply enterOrder_inserted in Hent as [Hins _].
    - change (own_side ?x (set_quantity order unfilled)) with (own_side x order) in Hins.
      rewrite Ho in Hins.
      exact (inserted_Forall P (set_quantity order unfilled) _ _ Hso Hprice Hins).
    - change (side_wf (is_buy_order order) (own_side b_mid order)). rewrite Ho.
      exact (proj1 (proj1 (book_wf_sides b order) Hwf)). }
  assert (Hshown' : Forall P (concat (bids (r_book r)) ++ concat (asks (r_book r)))).
  { apply Forall_app. revert Hown' Hopp'. unfold own_side, opp_side.
    destruct (is_buy_order order); auto. }
  destruct (after_loop_wf r Hwfr Hex Hshown') as [r' Hr'].
  { rewrite He. apply List.Forall_forall. intros e Hin.
    apply in_map_iff in Hin as ([x q] & <- & Hin). exists (limit_price x).
    split; [reflexivity|]. rewrite List.Forall_forall in Hhits. apply (Hhits x).
    apply (in_map fst) in Hin. exact Hin. }
  { intros tq tp Ht Hpos. rewrite He in Ht. exact (Havg _ _ _ _ _ eq_refl Ht Hpos). }
  rewrite Hr'. cbn [mbind outcome_bind].
  destruct (match_loop_fields _ _ _ _ _ _ Hr) as (Ho & _ & Hlt).
  destruct (after_loop_print _ _ Hr') as (Ho' & Hlt').
  pose proof Hr' as Hsame. apply after_loop_same in Hsame as (Hb & Ha & Hs' & _).
  rewrite prettyPrint_printable; [eauto| |].
  - eapply book_wf_same; eassumption.
  - split; [|split].
    + destruct Hlt' as [->|(avg & -> & Hfa)]; [rewrite Hlt; exact Hlast|eauto].
    + exists v. rewrite Ho', Ho, Hs', Hsym. auto.
    + rewrite Hb, Ha. exact Hshown'.
Qed.

(** ** Properties of the order book *)

(** C1.  On any book a run can hold, whenever [handleLimitOrder] returns, the
    best bid price is strictly below the best ask price if both sides hold
    orders, and no resting bid reaches any resting ask.  The loop of the
    call always ends.  The call returns when the book can be printed (it
    has a last trade price, the owner's oracle has a value for the symbol,
    and these and the resting prices pass through the floats) and the fills
    of the order can be logged; for a valid order on a book without a last
    trade price it raises, in the [prettyPrint] before the loop. *)
Theorem book_never_crosses b order :
  reachable b ->
  (forall r, handleLimitOrder b order = Some (Ok r) ->
     (forall pb pa, best_price (bids (r_book r)) = Ok (Some pb) ->
                    best_price (asks (r_book r)) = Ok (Some pa) -> pb < pa) /\
     (forall x y, In x (concat (bids (r_book r))) -> In y (concat (asks (r_book r))) ->
                  limit_price x < limit_price y)) /\
  handleLimitOrder b order <> None /\
  (printable b -> loggable b order ->
   exists r, handleLimitOrder b order = Some (Ok r)) /\
  (valid_order b order -> last_trade b = None ->
     exists e, handleLimitOrder b order = Some (Raise e)).
Proof.
  intros Hreach. apply reachable_wf in Hreach.
  split; [|split; [apply handleLimitOrder_bound|split]].
  - intros r Hr. destruct (handleLimitOrder_keeps_wf b order r Hreach Hr) as [Hwf _].
    split.
    + destruct Hwf as (Hb & Ha & Hnc). intros pb pa.
      rewrite (best_price_wf _ _ Hb), (best_price_wf _ _ Ha).
      intros [= Hpb] [= Hpa]. apply Hnc; assumption.
    + intros x y. apply book_wf_all_apart. exact Hwf.
  - apply handleLimitOrder_returns. exact Hreach.
  - intros [Hsym Hq] Hlt. unfold OrderBook.handleLimitOrder.
    replace (String.eqb (symbol order) (book_symbol b)) with true
      by (symmetry; apply String.eqb_eq; exact Hsym).
    replace (quantity order <=? 0) with false by (symmetry; apply Z.leb_gt; exact Hq).
    cbn [negb]. unfold OrderBook.prettyPrint. rewrite Hlt.
    destruct (MeanRevertingOracle.observePrice _ _ _ _ _) as [v|];
      cbn [mbind outcome_bind]; [|eauto].
    destruct (hundredth fl v); cbn [mbind outcome_bind]; eauto.
Qed.


(** C5.  Orders resting at one price are matched first in, first out.  For a
    valid order on a book a run can hold, a call of [handleLimitOrder] that
    returns has done what [fifo_fills] says of the opposite side read best
    price first and, within a price level, oldest first: the orders hit, in
    that order and with those shares, are the ones reported, pair by pair;
    they are an initial segment of the side, each removed entirely, except
    that the last may stay at the head with its quantity reduced; the orders
    behind are not touched.  The incoming order comes to rest exactly when
    shares are left over: it is then accepted with those shares and added
    to its own side, at the tail of the level of its price if there is one,
    as a new level otherwise; when nothing is left over its own side is as
    before. *)
Theorem fifo_within_price_level b order r hits remaining unfilled :
  reachable b -> valid_order b order ->
  handleLimitOrder b order = Some (Ok r) ->
  fifo_fills order (quantity order) (concat (opp_side b order)) = (hits, remaining, unfilled) ->
  r_msgs r = flat_map (exec_msgs order) hits ++
             (if 0 <? unfilled
              then [(agent_id order, ORDER_ACCEPTED (set_quantity order unfilled))]
              else []) /\
  r_executed r = map exec_entry hits /\
  concat (opp_side (r_book r) order) = remaining /\
  (if 0 <? unfilled
   then inserted (set_quantity order unfilled) (own_side b order) (own_side (r_book r) order)
   else own_side (r_book r) order = own_side b order) /\
  (exists k, concat (opp_side b order) = map fst hits ++ k /\
     ((Forall full_hit hits /\ remaining = k) \/
      (exists hits0 h q,
         hits = hits0 ++ [(h, q)] /\ Forall full_hit hits0 /\ 0 < q < quantity h /\
         remaining = set_quantity h (quantity h - q) :: k))).
Proof.
  intros Hreach Hvalid H Hf. apply reachable_wf in Hreach.
  pose proof (proj1 (book_wf_sides b order) Hreach) as (Hown & _).
  destruct (handleLimitOrder_inv _ _ _ H) as [[_ Hno]|([_ Hq] & r0 & Hloop & Hafter)];
    [contradiction|].
  destruct (match_loop_fifo _ _ _ _ _ _ _ _ _ Hq Hloop Hf) as (Hm & He & Hc & Hrest).
  apply after_loop_same in Hafter as (Hb & Ha & _ & Hmsgs & Hex).
  rewrite (opp_side_same _ _ order Hb Ha), (own_side_same _ _ order Hb Ha), Hmsgs, Hex.
  split; [exact Hm|]. split; [exact He|]. split; [exact Hc|].
  split; [|eapply fifo_fills_prefix; eassumption].
  destruct (0 <? unfilled); [|exact Hrest].
  destruct Hrest as (b_mid & Ho & Hent).
  apply enterOrder_inserted in Hent as [Hins _].
  - change (own_side ?x (set_quantity order unfilled)) with (own_side x order) in Hins.
    rewrite Ho in Hins. exact Hins.
  - change (side_wf (is_buy_order order) (own_side b_mid order)). rewrite Ho. exact Hown.
Qed.

End Facts.

(** *** Scenarios *)

Lemma open_book_reachable : reachable Scenario.floats Scenario.open_book.
Proof. apply reach_last_trade, reach_init. Qed.

Lemma reachable_after b order :
  reachable Scenario.floats b -> reachable Scenario.floats (Scenario.after b order).
Proof.
  intros H. unfold Scenario.after.
  destruct (handleLimitOrder Scenario.floats b order) as [[r|e]|] eqn:E; try exact H.
  eapply reach_limit; eassumption.
Qed.

(** Simple cross at the resting price: a buy at 102 meets a resting ask at
    100 and both sides are told 100. *)
Example buy_102_fills_at_100 :
  exists r,
    handleLimitOrder Scenario.floats Scenario.book_ask_100 Scenario.buy_102 = Some (Ok r) /\
    r_msgs r =
      [(9%nat, ORDER_EXECUTED (set_fill_price Scenario.buy_102 (Some 100)));
       (6%nat, ORDER_EXECUTED (set_fill_price Scenario.ask_100 (Some 100)))] /\
    r_executed r = [(10, Some 100)] /\
    last_trade (r_book r) = Some 100.
Proof. eexists. split; [vm_compute; reflexivity|]. repeat split; reflexivity. Qed.

(** First in, first out: X is filled, Y is untouched. *)
Example fifo_x_before_y :
  exists r,
    handleLimitOrder Scenario.floats Scenario.book_xy Scenario.buy_10 = Some (Ok r) /\
    asks (r_book r) = [[Scenario.sell_y]] /\ bids (r_book r) = [] /\
    r_msgs r =
      [(9%nat, ORDER_EXECUTED (set_fill_price Scenario.buy_10 (Some 10000)));
       (7%nat, ORDER_EXECUTED (set_fill_price Scenario.sell_x (Some 10000)))].
Proof. eexists. split; [vm_compute; reflexivity|]. repeat split; reflexivity. Qed.

(** Partial fill, then rest: 50 shares fill at 10100 and 30 rest at 10200. *)
Example partial_fill_then_rest :
  exists r,
    handleLimitOrder Scenario.floats Scenario.book_two_sided Scenario.buy_80 = Some (Ok r) /\
    asks (r_book r) = [] /\
    bids (r_book r) = [[set_quantity Scenario.buy_80 30]; [Scenario.bid_9900]] /\
    r_executed r = [(50, Some 10100)].
Proof. eexists. split; [vm_compute; reflexivity|]. repeat split; reflexivity. Qed.

(** A book that was never given a last trade price cannot be printed: the
    first valid order raises and nothing comes to rest. *)
Example new_book_cannot_be_printed :
  handleLimitOrder Scenario.floats Scenario.new_book Scenario.sell_x = Some (Raise TypeError).
Proof. vm_compute. reflexivity. Qed.

Lemma book_never_crosses_witness :
  exists r,
    handleLimitOrder Scenario.floats Scenario.book_two_sided Scenario.buy_20 = Some (Ok r) /\
    (forall pb pa, best_price (bids (r_book r)) = Ok (Some pb) ->
                   best_price (asks (r_book r)) = Ok (Some pa) -> pb < pa) /\
    (forall x y, In x (concat (bids (r_book r))) -> In y (concat (asks (r_book r))) ->
                 limit_price x < limit_price y).
Proof.
  eexists. split; [vm_compute; reflexivity|].
  apply (proj1 (book_never_crosses Scenario.floats Scenario.book_two_sided Scenario.buy_20
                  (reachable_after _ _ (reachable_after _ _ open_book_reachable)))).
  vm_compute. reflexivity.
Defined.


Lemma fifo_within_price_level_witness :
  exists r,
    handleLimitOrder Scenario.floats Scenario.book_xy Scenario.buy_10 = Some (Ok r) /\
    r_msgs r = flat_map (exec_msgs Scenario.buy_10) [(Scenario.sell_x, 10)] ++ [] /\
    r_executed r = map exec_entry [(Scenario.sell_x, 10)] /\
    concat (opp_side (r_book r) Scenario.buy_10) = [Scenario.sell_y] /\
    own_side (r_book r) Scenario.buy_10 = own_side Scenario.book_xy Scenario.buy_10 /\
    (exists k,
       concat (opp_side Scenario.book_xy Scenario.buy_10) =
         map fst [(Scenario.sell_x, 10)] ++ k /\
       ((Forall full_hit [(Scenario.sell_x, 10)] /\ [Scenario.sell_y] = k) \/
        (exists hits0 h q,
           [(Scenario.sell_x, 10)] = hits0 ++ [(h, q)] /\ Forall full_hit hits0 /\
           0 < q < quantity h /\
           [Scenario.sell_y] = set_quantity h (quantity h - q) :: k))).
Proof.
  eexists. split; [vm_compute; reflexivity|].
  apply (fifo_within_price_level Scenario.floats Scenario.book_xy Scenario.buy_10 _
           [(Scenario.sell_x, 10)] [Scenario.sell_y] 0).
  - apply reachable_after, reachable_after, open_book_reachable.
  - split; [reflexivity|]. simpl. lia.
  - vm_compute. reflexivity.
  - vm_compute. reflexivity.
Defined.

(** ** Shares and limits *)

Section Further.

Variable fl : Floats.

Local Abbreviation prettyPrint := (OrderBook.prettyPrint fl).
Local Abbreviation handleLimitOrder := (OrderBook.handleLimitOrder fl).
Local Abbreviation after_loop := (OrderBook.after_loop fl).
Local Abbreviation new_last_trade := (OrderBook.new_last_trade fl).
Local Abbreviation log_best := (OrderBook.log_best fl).
Local Abbreviation reachable := (OrderBook.reachable fl).
Local Abbreviation printable := (OrderBook.printable fl).
Local Abbreviation loggable := (OrderBook.loggable fl).


Lemma volume_app l1 l2 : volume (l1 ++ l2) = volume l1 + volume l2.
Proof. unfold volume. induction l1 as [|o l1 IH]; simpl; [reflexivity|rewrite IH; lia]. Qed.

Lemma volume_cons o l : volume (o :: l) = quantity o + volume l.
Proof. reflexivity. Qed.

Lemma side_volume_cons l s : side_volume (l :: s) = volume l + side_volume s.
Proof. unfold side_volume. simpl. apply volume_app. Qed.

Lemma side_volume_app s1 s2 : side_volume (s1 ++ s2) = side_volume s1 + side_volume s2.
Proof. unfold side_volume. rewrite concat_app. apply volume_app. Qed.

Lemma side_volume_pop o tl rest :
  side_volume (match tl with [] => rest | _ => tl :: rest end) =
  side_volume ((o :: tl) :: rest) - quantity o.
Proof.
  unfold side_volume. rewrite concat_pop.
  change (concat ((o :: tl) :: rest)) with (o :: (tl ++ concat rest)).
  rewrite volume_cons. lia.
Qed.

Lemma executed_volume_app ex1 ex2 :
  executed_volume (ex1 ++ ex2) = executed_volume ex1 + executed_volume ex2.
Proof.
  unfold executed_volume. induction ex1 as [|e ex1 IH]; simpl; [reflexivity|rewrite IH; lia].
Qed.

Lemma enter_scan_volume order : forall s s',
  side_wf (is_buy_order order) s ->
  Exists (fun l => ~ better (is_buy_order order) (lprice l) (limit_price order)) s ->
  enter_scan order s = Ok s' ->
  side_volume s' = side_volume s + quantity order.
Proof.
  induction s as [|l rest IH]; intros s' Hwf Hex H; [inversion Hex|].
  apply side_wf_cons in Hwf as (Hl & _ & Hrest).
  destruct (level_ok_head _ _ Hl) as (o0 & tl & -> & Hside & _).
  simpl in H.
  destruct (isBetterPrice order o0) eqn:Eb.
  - injection H as <-. rewrite (side_volume_cons [order]). unfold volume. simpl. lia.
  - destruct (isEqualPrice order o0) eqn:Ee.
    + injection H as <-. rewrite !side_volume_cons.
      change (o0 :: tl ++ [order]) with ((o0 :: tl) ++ [order]).
      rewrite volume_app. unfold volume at 2. simpl. lia.
    + apply Exists_cons in Hex as [Hex|Hex].
      { elim Hex. simpl. eapply worse_when_neither; eauto. }
      destruct (enter_scan order rest) as [rest'|e] eqn:E; [|discriminate].
      simpl in H. injection H as <-.
      rewrite !side_volume_cons, (IH rest' Hrest Hex eq_refl). lia.
Qed.

(** Entering an order adds its shares to its own side and to nothing else. *)
Lemma enterOrder_volume b order b' :
  side_wf (is_buy_order order) (own_side b order) ->
  enterOrder b order = Ok b' ->
  side_volume (own_side b' order) = side_volume (own_side b order) + quantity order /\
  opp_side b' order = opp_side b order.
Proof.
  intros Hwf H. unfold enterOrder in H.
  set (buy := is_buy_order order) in *. set (s := own_side b order) in *.
  assert (Hscan : Exists (fun l => ~ better buy (lprice l) (limit_price order)) s ->
                  (s' ← enter_scan order s; Ok (set_own_side b order s')) = Ok b' ->
                  side_volume (own_side b' order) = side_volume s + quantity order /\
                  opp_side b' order = opp_side b order).
  { intros Hex Hs. destruct (enter_scan order s) as [s'|e] eqn:E; [|discriminate].
    simpl in Hs. injection Hs as <-. rewrite own_side_set_own, opp_side_set_own.
    split; [|reflexivity]. eapply enter_scan_volume; eassumption. }
  destruct (last s) as [w|] eqn:El.
  - apply last_Some in El as [s0 Es].
    assert (Hw : level_ok buy w).
    { destruct Hwf as [Hall _]. rewrite Es in Hall.
      apply Forall_app in Hall as [_ Hall]. apply Forall_cons_1 in Hall as [Hall _]. exact Hall. }
    destruct (level_ok_head _ _ Hw) as (w0 & wtl & -> & Hside & _).
    destruct (isBetterPrice order w0) eqn:Eb; simpl in H.
    + apply Hscan; [|exact H].
      rewrite Es. apply Exists_app. right. constructor. simpl. intros Hbad.
      apply (isBetterPrice_true buy) in Eb; [|reflexivity|assumption].
      exact (better_irrefl _ _ (better_trans _ _ _ _ Eb Hbad)).
    + destruct (isEqualPrice order w0) eqn:Ee; simpl in H.
      * apply Hscan; [|exact H].
        rewrite Es. apply Exists_app. right. constructor. simpl. intros Hbad.
        apply isEqualPrice_true in Ee. rewrite Ee in Hbad. exact (better_irrefl _ _ Hbad).
      * injection H as <-. rewrite own_side_set_own, opp_side_set_own.
        split; [|reflexivity].
        rewrite side_volume_app, (side_volume_cons [order]). unfold side_volume at 2, volume.
        simpl. lia.
  - apply last_None in El. injection H as <-.
    rewrite own_side_set_own, opp_side_set_own. split; [|reflexivity].
    rewrite El. unfold side_volume, volume. simpl. lia.
Qed.

(** Popping the best resting order keeps the book well formed. *)
Lemma book_wf_pop b order o0 tl rest :
  book_wf b -> opp_side b order = (o0 :: tl) :: rest ->
  book_wf (set_opp_side b order (match tl with [] => rest | _ => tl :: rest end)).
Proof.
  intros Hwf Eopp.
  pose proof (proj1 (book_wf_sides b order) Hwf) as (Hown & Hopp & Hap).
  rewrite Eopp in Hopp, Hap.
  pose proof Hopp as Hopp0. apply side_wf_cons in Hopp as (Hl & _ & _).
  apply book_wf_set_opp; [assumption|eapply side_wf_pop; eassumption|].
  eapply apart_narrow_opp; [exact Hopp0| |exact Hap].
  intros p Hp. eapply head_price_pop_in; eassumption.
Qed.

(** The loop moves shares, it neither makes nor loses any. *)
Lemma match_loop_volume fuel : forall b order msgs ex r,
  book_wf b -> 0 < quantity order ->
  match_loop fuel b order msgs ex = Some (Ok r) ->
  exists filled,
    executed_volume (r_executed r) = executed_volume ex + filled /\
    0 <= filled <= quantity order /\
    side_volume (opp_side (r_book r) order) = side_volume (opp_side b order) - filled /\
    side_volume (own_side (r_book r) order) =
      side_volume (own_side b order) + (quantity order - filled).
Proof.
  induction fuel as [|fuel IH]; intros b order msgs ex r Hwf Hq Hrun; [discriminate|].
  simpl in Hrun. rewrite executeOrder_head in Hrun.
  pose proof (proj1 (book_wf_sides b order) Hwf) as (Hown & Hopp & _).
  assert (Henter :
    match enterOrder b order with
    | Ok b2 => Some (Ok (mkResult b2 (msgs ++ [(agent_id order, ORDER_ACCEPTED order)]) ex))
    | Raise e => Some (Raise e)
    end = Some (Ok r) ->
    exists filled,
      executed_volume (r_executed r) = executed_volume ex + filled /\
      0 <= filled <= quantity order /\
      side_volume (opp_side (r_book r) order) = side_volume (opp_side b order) - filled /\
      side_volume (own_side (r_book r) order) =
        side_volume (own_side b order) + (quantity order - filled)).
  { intros H. destruct (enterOrder b order) as [b2|e] eqn:E; [|discriminate].
    injection H as <-. simpl.
    destruct (enterOrder_volume _ _ _ Hown E) as [Hv Ho].
    exists 0. rewrite Hv, Ho. repeat split; lia. }
  destruct (opp_side b order) as [|[|o0 tl] rest] eqn:Eopp.
  - apply Henter. exact Hrun.
  - discriminate.
  - apply side_wf_cons in Hopp as (Hl & _ & _).
    apply level_ok_cons in Hl as [(_ & _ & Hq0) _].
    destruct (isMatch order o0) eqn:Em; [|apply Henter; exact Hrun].
    destruct (quantity o0 <=? quantity order) eqn:Eq.
    + apply Z.leb_le in Eq. cbn [quantity set_fill_price set_quantity fill_price] in Hrun.
      pose proof (book_wf_pop b order o0 tl rest Hwf Eopp) as Hwf1.
      destruct (quantity order - quantity o0 <=? 0) eqn:Erem.
      * apply Z.leb_le in Erem. injection Hrun as <-. simpl.
        exists (quantity o0). rewrite executed_volume_app, opp_side_set_opp, own_side_set_opp.
        rewrite (side_volume_pop o0). unfold executed_volume. simpl. repeat split; lia.
      * apply Z.leb_gt in Erem.
        apply IH in Hrun as (filled & Hex & Hf & Hvo & Hvw); [|exact Hwf1|simpl; lia].
        change (opp_side ?x (set_quantity order ?q)) with (opp_side x order) in Hvo.
        change (own_side ?x (set_quantity order ?q)) with (own_side x order) in Hvw.
        rewrite opp_side_set_opp in Hvo. rewrite own_side_set_opp in Hvw.
        rewrite (side_volume_pop o0) in Hvo. simpl in Hf, Hvw.
        rewrite executed_volume_app in Hex. unfold executed_volume at 3 in Hex. simpl in Hex.
        exists (quantity o0 + filled).
        split; [rewrite Hex; ring|]. split; [lia|].
        split; [rewrite Hvo; unfold side_volume, volume; simpl; lia|rewrite Hvw; ring].
    + apply Z.leb_gt in Eq. cbn [quantity set_fill_price set_quantity fill_price] in Hrun.
      replace (quantity order - quantity order <=? 0) with true in Hrun
        by (symmetry; apply Z.leb_le; lia).
      injection Hrun as <-. simpl.
      exists (quantity order). rewrite executed_volume_app, opp_side_set_opp, own_side_set_opp.
      rewrite !side_volume_cons, !volume_cons. unfold executed_volume. simpl.
      repeat split; lia.
Qed.

(** Every fill of the loop is at a price the incoming order agreed to. *)
Lemma match_loop_limit fuel : forall b order msgs ex r,
  match_loop fuel b order msgs ex = Some (Ok r) ->
  Forall (fun e => exists p, snd e = Some p /\ honours_limit order p) ex ->
  Forall (fun e => exists p, snd e = Some p /\ honours_limit order p) (r_executed r).
Proof.
  induction fuel as [|fuel IH]; intros b order msgs ex r Hrun Hex; [discriminate|].
  simpl in Hrun. rewrite executeOrder_head in Hrun.
  assert (Henter :
    match enterOrder b order with
    | Ok b2 => Some (Ok (mkResult b2 (msgs ++ [(agent_id order, ORDER_ACCEPTED order)]) ex))
    | Raise e => Some (Raise e)
    end = Some (Ok r) ->
    Forall (fun e => exists p, snd e = Some p /\ honours_limit order p) (r_executed r)).
  { intros H. destruct (enterOrder b order) as [b2|e]; [|discriminate].
    injection H as <-. exact Hex. }
  destruct (opp_side b order) as [|[|o0 tl] rest] eqn:Eopp; [auto|discriminate|].
  destruct (isMatch order o0) eqn:Em; [|auto].
  assert (Hp : honours_limit order (limit_price o0)).
  { unfold isMatch in Em. unfold honours_limit.
    destruct (Bool.eqb _ _); [discriminate|].
    destruct (is_buy_order order); simpl in Em.
    - destruct (Z.leb_spec0 (limit_price o0) (limit_price order)); [assumption|discriminate].
    - destruct (Z.leb_spec0 (limit_price order) (limit_price o0)); [assumption|discriminate]. }
  assert (Hex1 : forall q, Forall (fun e => exists p, snd e = Some p /\ honours_limit order p)
                             (ex ++ [(q, Some (limit_price o0))])).
  { intros q. apply Forall_app; split; [assumption|]. constructor; [|constructor]. simpl. eauto. }
  destruct (quantity o0 <=? quantity order) eqn:Eq;
    cbn [quantity set_fill_price set_quantity fill_price] in Hrun.
  - destruct (quantity order - quantity o0 <=? 0).
    + injection Hrun as <-. apply Hex1.
    + apply IH in Hrun; [exact Hrun|]. apply Hex1.
  - destruct (quantity order - quantity order <=? 0).
    + injection Hrun as <-. apply Hex1.
    + apply IH in Hrun; [exact Hrun|]. apply Hex1.
Qed.

(** X1.  [handleLimitOrder] conserves shares.  For a valid order on a book a
    run can build, the shares reported in [executed] are between 0 and the
    order's quantity, the opposite side loses exactly that many shares, and
    the order's own side gains exactly the rest of the order. *)
Theorem handleLimitOrder_conserves_shares b order r :
  reachable b -> valid_order b order ->
  handleLimitOrder b order = Some (Ok r) ->
  0 <= executed_volume (r_executed r) <= quantity order /\
  side_volume (opp_side (r_book r) order) =
    side_volume (opp_side b order) - executed_volume (r_executed r) /\
  side_volume (own_side (r_book r) order) =
    side_volume (own_side b order) + (quantity order - executed_volume (r_executed r)).
Proof.
  intros Hreach Hvalid H. apply reachable_wf in Hreach.
  destruct (handleLimitOrder_inv _ _ _ _ H) as [[_ Hno]|([_ Hq] & r0 & Hloop & Hafter)];
    [contradiction|].
  destruct (match_loop_volume _ _ _ _ _ _ Hreach Hq Hloop) as (filled & Hex & Hf & Hvo & Hvw).
  apply after_loop_same in Hafter as (Hb & Ha & _ & _ & Hexr).
  rewrite (opp_side_same _ _ order Hb Ha), (own_side_same _ _ order Hb Ha), Hexr.
  simpl in Hex. rewrite Hex. repeat split; lia.
Qed.

(** X2.  An incoming order never trades through its limit: every fill that
    [handleLimitOrder] reports has a price, and the price is at most the
    limit of a buy order and at least the limit of a sell order. *)
Theorem fills_honour_the_limit b order r :
  handleLimitOrder b order = Some (Ok r) ->
  Forall (fun e => exists p, snd e = Some p /\ honours_limit order p) (r_executed r).
Proof.
  intros H. destruct (handleLimitOrder_inv _ _ _ _ H) as [[-> _]|(_ & r0 & Hloop & Hafter)];
    [constructor|].
  apply after_loop_same in Hafter as (_ & _ & _ & _ & ->).
  eapply match_loop_limit; [exact Hloop|constructor].
Qed.

(** ** Cancelling, and entering then cancelling *)

Lemma cancel_in_level_absent oid l :
  Forall (fun o => order_id o <> oid) l -> cancel_in_level oid l = None.
Proof.
  induction l as [|co tl IH]; intros H; [reflexivity|].
  apply Forall_cons_1 in H as [Hco Htl]. simpl.
  destruct (Nat.eqb_spec oid (order_id co)) as [E|_]; [congruence|].
  rewrite (IH Htl). reflexivity.
Qed.

Lemma cancel_in_level_found oid : forall l c l',
  cancel_in_level oid l = Some (c, l') ->
  order_id c = oid /\ In c l /\ volume l = quantity c + volume l'.
Proof.
  induction l as [|co tl IH]; intros c l' H; [discriminate|]. simpl in H.
  destruct (Nat.eqb_spec oid (order_id co)) as [E|_].
  - injection H as <- <-. rewrite volume_cons. split; [auto|]. split; [left; reflexivity|lia].
  - destruct (cancel_in_level oid tl) as [[c' tl']|] eqn:E; [|discriminate].
    injection H as <- <-. destruct (IH _ _ eq_refl) as (H1 & H2 & H3).
    rewrite !volume_cons. split; [assumption|]. split; [right; assumption|lia].
Qed.

Lemma cancel_in_level_snoc oid l order :
  order_id order = oid -> Forall (fun o => order_id o <> oid) l ->
  cancel_in_level oid (l ++ [order]) = Some (order, l).
Proof.
  intros Hid. induction l as [|co tl IH]; intros H; simpl.
  - rewrite Hid, Nat.eqb_refl. reflexivity.
  - apply Forall_cons_1 in H as [Hco Htl].
    destruct (Nat.eqb_spec oid (order_id co)) as [E|_]; [congruence|].
    rewrite (IH Htl). reflexivity.
Qed.

Lemma id_free_cons oid l s :
  id_free oid (l :: s) <-> Forall (fun o => order_id o <> oid) l /\ id_free oid s.
Proof. unfold id_free. simpl. apply Forall_app. Qed.

(** An id that rests nowhere on the side is not found. *)
Lemma cancel_scan_absent buy order : forall s,
  side_wf buy s -> id_free (order_id order) s -> cancel_scan order s = Ok None.
Proof.
  induction s as [|l rest IH]; intros Hwf Hfree; [reflexivity|].
  apply side_wf_cons in Hwf as (Hl & _ & Hrest).
  destruct (level_ok_head _ _ Hl) as (o0 & tl & -> & _).
  apply id_free_cons in Hfree as [Hl0 Hfree].
  rewrite cancel_scan_cons. cbv zeta.
  rewrite (IH Hrest Hfree), (cancel_in_level_absent _ _ Hl0).
  destruct (isEqualPrice order o0); reflexivity.
Qed.

(** What is found carries the id and the price asked for, and is the only
    thing removed. *)
Lemma cancel_scan_found buy order : forall s c s',
  side_wf buy s -> cancel_scan order s = Ok (Some (c, s')) ->
  order_id c = order_id order /\ limit_price c = limit_price order /\
  is_buy_order c = buy /\ 0 < quantity c /\ In c (concat s) /\
  side_volume s = quantity c + side_volume s'.
Proof.
  induction s as [|l rest IH]; intros c s' Hwf H; [discriminate|].
  apply side_wf_cons in Hwf as (Hl & _ & Hrest).
  destruct (level_ok_head _ _ Hl) as (o0 & tl & -> & _).
  assert (Hcont :
    (rr ← cancel_scan order rest;
     match rr with
     | Some (c, rest') => Ok (Some (c, (o0 :: tl) :: rest'))
     | None => Ok None
     end) = Ok (Some (c, s')) ->
    order_id c = order_id order /\ limit_price c = limit_price order /\
    is_buy_order c = buy /\ 0 < quantity c /\ In c (concat ((o0 :: tl) :: rest)) /\
    side_volume ((o0 :: tl) :: rest) = quantity c + side_volume s').
  { intros Hr. destruct (cancel_scan order rest) as [[[c2 rest']|]|] eqn:E;
      simpl in Hr; try discriminate.
    injection Hr as <- <-. destruct (IH _ _ Hrest eq_refl) as (H1 & H2 & H3 & H4 & H5 & H6).
    repeat (split; [assumption|]). split.
    - change (concat ((o0 :: tl) :: rest)) with ((o0 :: tl) ++ concat rest).
      apply in_or_app. right. exact H5.
    - rewrite !side_volume_cons, H6. lia. }
  rewrite cancel_scan_cons in H. cbv zeta in H.
  destruct (isEqualPrice order o0) eqn:Ee; [|apply Hcont; exact H].
  destruct (cancel_in_level (order_id order) (o0 :: tl)) as [[c1 l1]|] eqn:Ec;
    [|apply Hcont; exact H].
  apply isEqualPrice_true in Ee.
  destruct (cancel_in_level_found _ _ _ _ Ec) as (Hid & Hin & Hvol).
  destruct Hl as [_ Hall]. simpl lprice in Hall.
  rewrite List.Forall_forall in Hall. destruct (Hall _ Hin) as (Hs & Hp & Hq).
  assert (Hres : s' = match l1 with [] => rest | _ => l1 :: rest end /\ c = c1).
  { destruct l1; injection H as <- <-; auto. }
  destruct Hres as [-> ->].
  split; [assumption|]. split; [congruence|]. split; [assumption|]. split; [assumption|].
  split.
  - change (concat ((o0 :: tl) :: rest)) with ((o0 :: tl) ++ concat rest).
    apply in_or_app. left. exact Hin.
  - rewrite side_volume_cons, Hvol. destruct l1 as [|o1 l1].
    + unfold volume at 1. simpl. lia.
    + rewrite side_volume_cons. lia.
Qed.

(** The order just entered is the one a cancellation finds, and removing it
    gives the side back. *)
Lemma enter_scan_cancel order : forall s s',
  side_wf (is_buy_order order) s ->
  Exists (fun l => ~ better (is_buy_order order) (lprice l) (limit_price order)) s ->
  id_free (order_id order) s ->
  enter_scan order s = Ok s' ->
  cancel_scan order s' = Ok (Some (order, s)).
Proof.
  induction s as [|l rest IH]; intros s' Hwf Hex Hfree H; [inversion Hex|].
  apply side_wf_cons in Hwf as (Hl & _ & Hrest).
  destruct (level_ok_head _ _ Hl) as (o0 & tl & -> & Hside & _).
  apply id_free_cons in Hfree as [Hl0 Hfree].
  simpl in H.
  destruct (isBetterPrice order o0) eqn:Eb.
  - injection H as <-. rewrite cancel_scan_cons. cbv zeta.
    unfold isEqualPrice. rewrite Z.eqb_refl. cbn [cancel_in_level].
    rewrite Nat.eqb_refl. reflexivity.
  - destruct (isEqualPrice order o0) eqn:Ee.
    + injection H as <-. rewrite cancel_scan_cons. cbv zeta. rewrite Ee.
      change (o0 :: tl ++ [order]) with ((o0 :: tl) ++ [order]).
      rewrite (cancel_in_level_snoc _ _ _ eq_refl Hl0). reflexivity.
    + apply Exists_cons in Hex as [Hex|Hex].
      { elim Hex. simpl. eapply worse_when_neither; eauto. }
      destruct (enter_scan order rest) as [rest'|e] eqn:E; [|discriminate].
      simpl in H. injection H as <-.
      rewrite cancel_scan_cons. cbv zeta. rewrite Ee.
      rewrite (IH rest' Hrest Hex Hfree eq_refl). reflexivity.
Qed.

Lemma cancel_scan_last order : forall s,
  Forall (fun l => l <> [] /\ lprice l <> limit_price order) s ->
  cancel_scan order (s ++ [[order]]) = Ok (Some (order, s)).
Proof.
  induction s as [|l rest IH]; intros H.
  - simpl app. rewrite cancel_scan_cons. cbv zeta.
    unfold isEqualPrice. rewrite Z.eqb_refl. cbn [cancel_in_level].
    rewrite Nat.eqb_refl. reflexivity.
  - apply Forall_cons_1 in H as [[Hne Hp] Hrest].
    destruct l as [|o0 tl]; [congruence|]. simpl in Hp.
    change (((o0 :: tl) :: rest) ++ [[order]]) with ((o0 :: tl) :: (rest ++ [[order]])).
    rewrite cancel_scan_cons. cbv zeta.
    replace (isEqualPrice order o0) with false
      by (symmetry; apply Z.eqb_neq; congruence).
    rewrite (IH Hrest). reflexivity.
Qed.

Lemma enterOrder_cancel b order b' :
  side_wf (is_buy_order order) (own_side b order) ->
  id_free (order_id order) (own_side b order) ->
  enterOrder b order = Ok b' ->
  cancel_scan order (own_side b' order) = Ok (Some (order, own_side b order)) /\
  opp_side b' order = opp_side b order.
Proof.
  intros Hwf Hfree H. unfold enterOrder in H.
  set (buy := is_buy_order order) in *. set (s := own_side b order) in *.
  assert (Hscan : Exists (fun l => ~ better buy (lprice l) (limit_price order)) s ->
                  (s' ← enter_scan order s; Ok (set_own_side b order s')) = Ok b' ->
                  cancel_scan order (own_side b' order) = Ok (Some (order, s)) /\
                  opp_side b' order = opp_side b order).
  { intros Hex Hs. destruct (enter_scan order s) as [s'|e] eqn:E; [|discriminate].
    simpl in Hs. injection Hs as <-. rewrite own_side_set_own, opp_side_set_own.
    split; [|reflexivity]. eapply enter_scan_cancel; eassumption. }
  destruct (last s) as [w|] eqn:El.
  - apply last_Some in El as [s0 Es].
    assert (Hw : level_ok buy w).
    { destruct Hwf as [Hall _]. rewrite Es in Hall.
      apply Forall_app in Hall as [_ Hall]. apply Forall_cons_1 in Hall as [Hall _]. exact Hall. }
    destruct (level_ok_head _ _ Hw) as (w0 & wtl & -> & Hside & _).
    destruct (isBetterPrice order w0) eqn:Eb; simpl in H.
    + apply Hscan; [|exact H].
      rewrite Es. apply Exists_app. right. constructor. simpl. intros Hbad.
      apply (isBetterPrice_true buy) in Eb; [|reflexivity|assumption].
      exact (better_irrefl _ _ (better_trans _ _ _ _ Eb Hbad)).
    + destruct (isEqualPrice order w0) eqn:Ee; simpl in H.
      * apply Hscan; [|exact H].
        rewrite Es. apply Exists_app. right. constructor. simpl. intros Hbad.
        apply isEqualPrice_true in Ee. rewrite Ee in Hbad. exact (better_irrefl _ _ Hbad).
      * injection H as <-. rewrite own_side_set_own, opp_side_set_own.
        split; [|reflexivity]. apply cancel_scan_last.
        assert (Hlast : better buy (limit_price w0) (limit_price order))
          by (eapply worse_when_neither; eauto).
        assert (Hall : Forall (fun p => better buy p (limit_price order)) (map lprice s)).
        { destruct Hwf as [_ Hs]. rewrite Es in Hs |- *. rewrite map_app in Hs |- *. simpl in *.
          apply Forall_app; split; [|constructor; [exact Hlast|constructor]].
          eapply Forall_impl; [apply (sorted_prices_last _ _ _ Hs)|].
          intros p Hp. simpl in Hp. eapply better_trans; eassumption. }
        destruct Hwf as [Hlv _]. apply List.Forall_forall. intros l Hl.
        rewrite List.Forall_forall in Hlv, Hall. split; [apply (Hlv l Hl)|].
        intros Hbad. specialize (Hall (lprice l) (in_map _ _ _ Hl)). simpl in Hall.
        rewrite Hbad in Hall. exact (better_irrefl _ _ Hall).
  - apply last_None in El. injection H as <-.
    rewrite own_side_set_own, opp_side_set_own. split; [|reflexivity].
    rewrite El. apply (cancel_scan_last order []). constructor.
Qed.

(** An order that found nothing to trade with was entered as it came. *)
Lemma match_loop_no_fill fuel b order msgs r :
  0 < quantity order ->
  match_loop fuel b order msgs [] = Some (Ok r) -> r_executed r = [] ->
  enterOrder b order = Ok (r_book r).
Proof.
  intros Hq Hrun Hnone. destruct fuel as [|fuel]; [discriminate|].
  simpl in Hrun. rewrite executeOrder_head in Hrun.
  assert (Henter :
    match enterOrder b order with
    | Ok b2 => Some (Ok (mkResult b2 (msgs ++ [(agent_id order, ORDER_ACCEPTED order)]) []))
    | Raise e => Some (Raise e)
    end = Some (Ok r) -> enterOrder b order = Ok (r_book r)).
  { intros H. destruct (enterOrder b order) as [b2|e]; [|discriminate].
    injection H as <-. reflexivity. }
  destruct (opp_side b order) as [|[|o0 tl] rest] eqn:Eopp; [auto|discriminate|].
  destruct (isMatch order o0); [exfalso|auto].
  destruct (quantity o0 <=? quantity order);
    cbn [quantity set_fill_price set_quantity fill_price] in Hrun;
    match type of Hrun with
    | (if ?c then _ else _) = _ => destruct c eqn:Erem
    end;
    try (injection Hrun as <-; discriminate).
  all: apply Z.leb_gt in Erem.
  all: apply match_loop_trace in Hrun as (hits & k & acc & _ & _ & He & _); [|simpl; lia].
  all: rewrite Hnone in He; simpl in He; discriminate.
Qed.

(** X3.  A cancellation for an order that rests nowhere on its side of the
    book is silent: on any book a run can build, [cancelOrder] returns, leaves
    the book exactly as it was and sends no message. *)
Theorem cancel_of_absent_order_is_silent b order :
  reachable b -> id_free (order_id order) (own_side b order) ->
  cancelOrder b order = Ok (b, []).
Proof.
  intros Hreach Hfree. apply reachable_wf in Hreach.
  pose proof (proj1 (book_wf_sides b order) Hreach) as (Hown & _).
  unfold cancelOrder. rewrite (cancel_scan_absent _ _ _ Hown Hfree). reflexivity.
Qed.

(** X4.  [cancelOrder] removes at most one order.  On any book a run can
    build the opposite side is untouched, and either nothing is sent and the
    book is unchanged, or one [ORDER_CANCELLED] goes to the requesting order's
    agent: it carries a resting order with the requested id, price and side,
    with its remaining (positive) quantity, and the own side loses exactly
    those shares. *)
Theorem cancelOrder_removes_one_order b order b' msgs :
  reachable b -> cancelOrder b order = Ok (b', msgs) ->
  opp_side b' order = opp_side b order /\
  ((msgs = [] /\ b' = b) \/
   exists c, msgs = [(agent_id order, ORDER_CANCELLED c)] /\
             order_id c = order_id order /\ limit_price c = limit_price order /\
             is_buy_order c = is_buy_order order /\ 0 < quantity c /\
             In c (concat (own_side b order)) /\
             side_volume (own_side b' order) = side_volume (own_side b order) - quantity c).
Proof.
  intros Hreach H. apply reachable_wf in Hreach.
  pose proof (proj1 (book_wf_sides b order) Hreach) as (Hown & _).
  unfold cancelOrder in H.
  destruct (cancel_scan order (own_side b order)) as [[[c s]|]|] eqn:E; simpl in H;
    try discriminate; injection H as <- <-; [|auto].
  rewrite opp_side_set_own, own_side_set_own. split; [reflexivity|]. right.
  destruct (cancel_scan_found _ _ _ _ _ Hown E) as (H1 & H2 & H3 & H4 & H5 & H6).
  exists c. split; [reflexivity|]. repeat (split; [assumption|]). lia.
Qed.

(** X5.  Resting and cancelling is a round trip.  If a valid order with an id
    not yet on its side of the book comes to rest without trading, then
    cancelling it finds exactly that order, reports it in one
    [ORDER_CANCELLED] message, and leaves bids and asks as they were before
    the order arrived. *)
Theorem rest_then_cancel_restores_book b order r :
  reachable b -> valid_order b order ->
  id_free (order_id order) (own_side b order) ->
  handleLimitOrder b order = Some (Ok r) -> r_executed r = [] ->
  exists b', cancelOrder (r_book r) order =
               Ok (b', [(agent_id order, ORDER_CANCELLED order)]) /\
             bids b' = bids b /\ asks b' = asks b.
Proof.
  intros Hreach Hvalid Hfree H Hnone. apply reachable_wf in Hreach.
  pose proof (proj1 (book_wf_sides b order) Hreach) as (Hown & _).
  destruct (handleLimitOrder_inv _ _ _ _ H) as [[_ Hno]|([_ Hq] & r0 & Hloop & Hafter)];
    [contradiction|].
  apply after_loop_same in Hafter as (Hb & Ha & _ & _ & Hex).
  rewrite Hnone in Hex. symmetry in Hex.
  pose proof (match_loop_no_fill _ _ _ _ _ Hq Hloop Hex) as Hent.
  destruct (enterOrder_cancel _ _ _ Hown Hfree Hent) as [Hc Ho].
  unfold cancelOrder. rewrite (own_side_same _ _ order Hb Ha), Hc. simpl.
  eexists; split; [reflexivity|].
  unfold set_own_side, own_side, opp_side in *.
  destruct (is_buy_order order); simpl; split; congruence.
Qed.

(** ** Depth queries *)

Lemma fold_left_volume l : forall acc,
  fold_left (fun qty o => qty + quantity o) l acc = acc + volume l.
Proof.
  induction l as [|o l IH]; intros acc.
  - unfold volume. simpl. lia.
  - cbn [fold_left]. rewrite IH, volume_cons. lia.
Qed.

Lemma volume_pos buy l : level_ok buy l -> 0 < volume l.
Proof.
  intros [Hne Hall]. assert (H : Forall (fun o => 0 < quantity o) l).
  { eapply Forall_impl; [exact Hall|]. intros o (_ & _ & Hq). exact Hq. }
  clear Hall. destruct l as [|o l]; [congruence|].
  apply Forall_cons_1 in H as [Ho Hl]. rewrite volume_cons.
  assert (0 <= volume l); [|lia].
  clear -Hl. induction l as [|o' l IH]; [unfold volume; simpl; lia|].
  apply Forall_cons_1 in Hl as [Ho' Hl]. rewrite volume_cons. specialize (IH Hl). lia.
Qed.

Lemma inside_upto_wf buy : forall n s,
  side_wf buy s ->
  exists d, inside_upto n s = Ok d /\
            map fst d = take n (map lprice s) /\
            map snd d = take n (map volume s).
Proof.
  induction n as [|n IH]; intros s Hwf.
  - exists []. destruct s; auto.
  - destruct s as [|l rest]; [exists []; auto|].
    apply side_wf_cons in Hwf as (Hl & _ & Hrest).
    destruct (level_ok_head _ _ Hl) as (o & tl & -> & _).
    destruct (IH rest Hrest) as (d & Hd & Hp & Hv).
    cbn [inside_upto]. rewrite Hd. eexists; split; [reflexivity|].
    cbn [map take fst snd lprice]. rewrite Hp, Hv, fold_left_volume. split; [reflexivity|].
    f_equal.
Qed.

Lemma sorted_prices_take buy : forall n ps,
  sorted_prices buy ps -> sorted_prices buy (take n ps).
Proof.
  induction n as [|n IH]; intros ps Hs; [exact I|].
  destruct ps as [|p ps]; [exact I|]. destruct Hs as [Hp Hs]. simpl. split; [|auto].
  apply List.Forall_forall. intros q Hq. rewrite List.Forall_forall in Hp. apply Hp.
  clear -Hq. revert n Hq. induction ps as [|p' ps IH']; intros [|n] Hq; simpl in Hq;
    try contradiction.
  destruct Hq as [<-|Hq]; [left; reflexivity|right; eauto].
Qed.

Lemma inside_upto_side buy n s :
  side_wf buy s ->
  exists d, inside_upto n s = Ok d /\
            length d = Nat.min n (length s) /\
            map fst d = take n (map lprice s) /\
            map snd d = take n (map volume s) /\
            sorted_prices buy (map fst d) /\
            Forall (fun pq => 0 < snd pq) d.
Proof.
  intros Hwf. destruct (inside_upto_wf buy n s Hwf) as (d & Hd & Hp & Hv).
  exists d. split; [assumption|]. split; [|split; [assumption|split; [assumption|split]]].
  - rewrite <- (length_map fst d), Hp, length_take, length_map. reflexivity.
  - rewrite Hp. apply sorted_prices_take. apply Hwf.
  - assert (Hall : Forall (fun v => 0 < v) (map snd d)).
    { rewrite Hv. apply Forall_take. apply Forall_map.
      eapply Forall_impl; [apply Hwf|]. intros l Hl. simpl. eapply volume_pos; eassumption. }
    rewrite List.Forall_forall in Hall |- *. intros pq Hpq. apply Hall.
    apply (in_map snd). exact Hpq.
Qed.

(** X6.  A depth query on a book a run can build never raises and returns
    the best [min(depth, levels)] price levels of the side, best first: each
    pair is the level's price with the sum of the quantities resting there,
    the volumes are positive, bid prices strictly fall and ask prices strictly
    rise down the list. *)
Theorem inside_depth_lists_best_levels b depth :
  reachable b ->
  (exists d, getInsideBids_depth b depth = Ok d /\
             length d = Nat.min (Z.to_nat depth) (length (bids b)) /\
             map fst d = take (Z.to_nat depth) (map lprice (bids b)) /\
             map snd d = take (Z.to_nat depth) (map volume (bids b)) /\
             sorted_prices true (map fst d) /\
             Forall (fun pq => 0 < snd pq) d) /\
  (exists d, getInsideAsks_depth b depth = Ok d /\
             length d = Nat.min (Z.to_nat depth) (length (asks b)) /\
             map fst d = take (Z.to_nat depth) (map lprice (asks b)) /\
             map snd d = take (Z.to_nat depth) (map volume (asks b)) /\
             sorted_prices false (map fst d) /\
             Forall (fun pq => 0 < snd pq) d).
Proof.
  intros Hreach. apply reachable_wf in Hreach. destruct Hreach as (Hb & Ha & _).
  split; apply inside_upto_side; assumption.
Qed.

End Further.

(** *** Scenarios for the further properties *)

Lemma handleLimitOrder_conserves_shares_witness :
  exists r,
    handleLimitOrder Scenario.floats Scenario.book_two_sided Scenario.buy_80 = Some (Ok r) /\
    0 <= executed_volume (r_executed r) <= quantity Scenario.buy_80 /\
    side_volume (opp_side (r_book r) Scenario.buy_80) =
      side_volume (opp_side Scenario.book_two_sided Scenario.buy_80)
      - executed_volume (r_executed r) /\
    side_volume (own_side (r_book r) Scenario.buy_80) =
      side_volume (own_side Scenario.book_two_sided Scenario.buy_80)
      + (quantity Scenario.buy_80 - executed_volume (r_executed r)).
Proof.
  eexists. split; [vm_compute; reflexivity|].
  apply (handleLimitOrder_conserves_shares Scenario.floats).
  - apply reachable_after, reachable_after, open_book_reachable.
  - split; [reflexivity|]. simpl. lia.
  - vm_compute. reflexivity.
Defined.

Lemma fills_honour_the_limit_witness :
  exists r,
    handleLimitOrder Scenario.floats Scenario.book_ask_100 Scenario.buy_102 = Some (Ok r) /\
    Forall (fun e => exists p, snd e = Some p /\ honours_limit Scenario.buy_102 p)
           (r_executed r).
Proof.
  eexists. split; [vm_compute; reflexivity|].
  apply (fills_honour_the_limit Scenario.floats Scenario.book_ask_100).
  vm_compute. reflexivity.
Defined.

Lemma cancel_of_absent_order_is_silent_witness :
  cancelOrder Scenario.book_xy Scenario.sell_unknown = Ok (Scenario.book_xy, []).
Proof.
  apply (cancel_of_absent_order_is_silent Scenario.floats).
  - apply reachable_after, reachable_after, open_book_reachable.
  - vm_compute. apply List.Forall_forall. intros o [<-|[<-|[]]]; simpl; lia.
Defined.

Lemma cancelOrder_removes_one_order_witness :
  exists b' msgs,
    cancelOrder Scenario.book_xy Scenario.sell_x = Ok (b', msgs) /\
    opp_side b' Scenario.sell_x = opp_side Scenario.book_xy Scenario.sell_x /\
    ((msgs = [] /\ b' = Scenario.book_xy) \/
     exists c, msgs = [(agent_id Scenario.sell_x, ORDER_CANCELLED c)] /\
               order_id c = order_id Scenario.sell_x /\
               limit_price c = limit_price Scenario.sell_x /\
               is_buy_order c = is_buy_order Scenario.sell_x /\ 0 < quantity c /\
               In c (concat (own_side Scenario.book_xy Scenario.sell_x)) /\
               side_volume (own_side b' Scenario.sell_x) =
                 side_volume (own_side Scenario.book_xy Scenario.sell_x) - quantity c).
Proof.
  eexists. eexists. split; [vm_compute; reflexivity|].
  apply (cancelOrder_removes_one_order Scenario.floats).
  - apply reachable_after, reachable_after, open_book_reachable.
  - vm_compute. reflexivity.
Defined.

Lemma rest_then_cancel_restores_book_witness :
  exists r,
    handleLimitOrder Scenario.floats Scenario.book_xy Scenario.ask_10100 = Some (Ok r) /\
    r_executed r = [] /\
    exists b', cancelOrder (r_book r) Scenario.ask_10100 =
                 Ok (b', [(agent_id Scenario.ask_10100, ORDER_CANCELLED Scenario.ask_10100)]) /\
               bids b' = bids Scenario.book_xy /\ asks b' = asks Scenario.book_xy.
Proof.
  eexists. split; [vm_compute; reflexivity|]. split; [reflexivity|].
  apply (rest_then_cancel_restores_book Scenario.floats Scenario.book_xy).
  - apply reachable_after, reachable_after, open_book_reachable.
  - split; [reflexivity|]. simpl. lia.
  - vm_compute. apply List.Forall_forall. intros o [<-|[<-|[]]]; simpl; lia.
  - vm_compute. reflexivity.
  - reflexivity.
Defined.

Lemma inside_depth_lists_best_levels_witness :
  (exists d, getInsideBids_depth Scenario.book_two_sided 1 = Ok d /\
             length d = Nat.min (Z.to_nat 1) (length (bids Scenario.book_two_sided)) /\
             map fst d = take (Z.to_nat 1) (map lprice (bids Scenario.book_two_sided)) /\
             map snd d = take (Z.to_nat 1) (map volume (bids Scenario.book_two_sided)) /\
             sorted_prices true (map fst d) /\
             Forall (fun pq => 0 < snd pq) d) /\
  (exists d, getInsideAsks_depth Scenario.book_two_sided 1 = Ok d /\
             length d = Nat.min (Z.to_nat 1) (length (asks Scenario.book_two_sided)) /\
             map fst d = take (Z.to_nat 1) (map lprice (asks Scenario.book_two_sided)) /\
             map snd d = take (Z.to_nat 1) (map volume (asks Scenario.book_two_sided)) /\
             sorted_prices false (map fst d) /\
             Forall (fun pq => 0 < snd pq) d).
Proof.
  apply (inside_depth_lists_best_levels Scenario.floats).
  apply reachable_after, reachable_after, open_book_reachable.
Defined.

End OrderBookFacts.

(** * Facts about the trading agent *)

Module TradingAgentFacts.
Import TradingAgent.

Lemma logged_refl st : logged st st.
Proof. exists []. rewrite app_nil_r. destruct st; reflexivity. Qed.

Lemma logged_trans st1 st2 st3 : logged st1 st2 -> logged st2 st3 -> logged st1 st3.
Proof.
  intros [l1 ->] [l2 ->]. exists (l1 ++ l2). simpl. rewrite app_assoc. reflexivity.
Qed.

Lemma logged_logEvent e st : logged st (snd (logEvent e st)).
Proof. exists [e]. reflexivity. Qed.

Lemma logged_fields st st' :
  logged st st' ->
  last_trade st' = last_trade st /\ holdings st' = holdings st /\
  orders st' = orders st /\ outbox st' = outbox st /\
  exchangeID st' = exchangeID st /\ startingCash st' = startingCash st /\
  id st' = id st /\ next_order_id st' = next_order_id st /\
  currentTime st' = currentTime st.
Proof. intros [l ->]. simpl. repeat split. Qed.

(** The loop of [markToMarket] only writes to the log, and its value is
    [mark_result]. *)
Lemma mark_items_run items : forall cash st,
  fst (mark_items items cash st) = mark_result (last_trade st) items cash /\
  logged st (snd (mark_items items cash st)).
Proof.
  induction items as [|[sym shares] rest IH]; intros cash st.
  - split; [reflexivity|apply logged_refl].
  - simpl. destruct (String.eqb sym CASH); [apply IH|].
    destruct (last_trade st !! sym) as [price|] eqn:E; [|split; [reflexivity|apply logged_refl]].
    unfold bind. simpl.
    destruct (IH (cash + price * shares)
                 (set_log st (log st ++ [MARK_TO_MARKET shares sym price (price * shares)])))
      as [Hv Hl].
    simpl in Hv.
    destruct (mark_items rest (cash + price * shares) _) as [[v|e] st'] eqn:Em; simpl in *;
      (split; [exact Hv|]);
      (eapply logged_trans; [|exact Hl]); eexists; reflexivity.
Qed.

Lemma markToMarket_run h st :
  fst (markToMarket h st) =
    match dict_get CASH h with
    | Some cash => mark_result (last_trade st) h cash
    | None => Raise KeyError
    end /\
  logged st (snd (markToMarket h st)).
Proof.
  unfold markToMarket, lookup_holding, bind.
  destruct (dict_get CASH h) as [cash|]; simpl; [|split; [reflexivity|apply logged_refl]].
  destruct (mark_items_run h cash st) as [Hv Hl].
  destruct (mark_items h cash st) as [[v|e] st'] eqn:Em; simpl in *.
  - split; [exact Hv|]. eapply logged_trans; [exact Hl|]. eexists; reflexivity.
  - split; [exact Hv|exact Hl].
Qed.




Lemma dict_get_set_same k v d : dict_get k (dict_set k v d) = Some v.
Proof.
  induction d as [|[k' v'] rest IH]; simpl.
  - rewrite String.eqb_refl. reflexivity.
  - destruct (String.eqb k k') eqn:E; simpl; rewrite E; [reflexivity|exact IH].
Qed.

Lemma dict_get_set_other k k' v d : k' <> k -> dict_get k' (dict_set k v d) = dict_get k' d.
Proof.
  intros Hne. induction d as [|[k0 v0] rest IH]; simpl.
  - destruct (String.eqb_spec k' k); [congruence|reflexivity].
  - destruct (String.eqb_spec k k0) as [->|Hk]; simpl.
    + destruct (String.eqb_spec k' k0); [congruence|reflexivity].
    + destruct (String.eqb k' k0); [reflexivity|exact IH].
Qed.




Lemma markToMarket_raises h st :
  fst (markToMarket h st) = Raise KeyError ->
  exists st', markToMarket h st = (Raise KeyError, st').
Proof. destruct (markToMarket h st) as [res st']. simpl. intros ->. eauto. Qed.

(** ** Properties of the trading agent *)


Lemma priced_logged st st' h : logged st st' -> priced st h -> priced st' h.
Proof.
  intros L [Hc Hall]. destruct (logged_fields _ _ L) as (Hlt & _).
  unfold priced. rewrite Hlt. split; assumption.
Qed.




(** C8, as the code has it.  A limit order with a quantity that is not
    positive is dropped without an error: [handleLimitOrder] returns with the
    book unchanged and no message, and [placeLimitOrder] returns with [orders]
    and the outbox unchanged. *)
Theorem nonpositive_quantity_is_discarded (qty : Z) :
  qty <= 0 ->
  (forall fl b order,
     quantity order = qty ->
     OrderBook.handleLimitOrder fl b order = Some (Ok (OrderBook.mkResult b [] []))) /\
  (forall st sym is_buy price,
     exists st', placeLimitOrder sym qty is_buy price st = (Ok tt, st') /\
                 orders st' = orders st /\ outbox st' = outbox st /\
                 holdings st' = holdings st /\ log st' = log st).
Proof.
  intros Hq. split.
  - intros fl b order <-. unfold OrderBook.handleLimitOrder.
    destruct (negb _); [reflexivity|].
    replace (quantity order <=? 0) with true by (symmetry; apply Z.leb_le; exact Hq).
    reflexivity.
  - intros st sym is_buy price. unfold placeLimitOrder, bind, newLimitOrder.
    replace (0 <? qty) with false by (symmetry; apply Z.ltb_ge; exact Hq).
    eexists. split; [reflexivity|]. simpl. auto.
Qed.

(** *** Scenarios *)

(** At-risk rejection: with 100,000 in cash and X last traded at 1000, buying
    200 shares would put 200,000 at risk; the order is dropped. *)
Example at_risk_rejection :
  exists st', placeLimitOrder "X" 200 true 1000 Scenario.trader = (Ok tt, st') /\
              orders st' = orders Scenario.trader /\ outbox st' = [].
Proof. eexists. split; [vm_compute; reflexivity|]. split; reflexivity. Qed.

(** Buying 100 shares puts exactly the starting cash at risk: admitted. *)
Example at_risk_admitted :
  exists st', placeLimitOrder "X" 100 true 1000 Scenario.trader = (Ok tt, st') /\
              outbox st' = [(0%nat, LIMIT_ORDER 1 (mkOrder 0 1 0 "X" 100 true 1000 None))].
Proof. eexists. split; [vm_compute; reflexivity|]. reflexivity. Qed.



(** No price for Y: the call raises before anything is recorded or sent. *)
Example unpriced_symbol_raises :
  fst (placeLimitOrder "Y" 1 true 1000 Scenario.trader) = Raise KeyError.
Proof. vm_compute. reflexivity. Qed.

(** C8, a case where no error is raised: an order for no shares is dropped
    silently, by the book and by the agent. *)
Lemma nonpositive_quantity_raises_nothing :
  quantity Scenario.buy_none <= 0 /\
  OrderBook.handleLimitOrder Scenario.floats Scenario.open_book Scenario.buy_none
    = Some (Ok (OrderBook.mkResult Scenario.open_book [] [])) /\
  fst (placeLimitOrder "X" 0 true 1000 Scenario.trader) = Ok tt /\
  ~ (exists e, OrderBook.handleLimitOrder Scenario.floats Scenario.open_book
                 Scenario.buy_none = Some (Raise e)) /\
  ~ (exists e, fst (placeLimitOrder "X" 0 true 1000 Scenario.trader) = Raise e).
Proof.
  split; [simpl; lia|]. split; [reflexivity|]. split; [reflexivity|].
  split; intros [e He]; discriminate.
Qed.

Lemma nonpositive_quantity_is_discarded_witness :
  OrderBook.handleLimitOrder Scenario.floats Scenario.book_xy
    (set_quantity Scenario.buy_10 (-5))
    = Some (Ok (OrderBook.mkResult Scenario.book_xy [] [])) /\
  exists st', placeLimitOrder "X" (-5) true 1000 Scenario.trader = (Ok tt, st') /\
              orders st' = orders Scenario.trader /\ outbox st' = outbox Scenario.trader /\
              holdings st' = holdings Scenario.trader /\ log st' = log Scenario.trader.
Proof.
  destruct (nonpositive_quantity_is_discarded (-5)) as [Hbook Hagent]; [lia|].
  split.
  - apply Hbook. reflexivity.
  - apply Hagent.
Defined.

(** ** Executions and the holdings *)

Lemma dict_get_del_other k k' d : k' <> k -> dict_get k' (dict_del k d) = dict_get k' d.
Proof.
  intros Hne. induction d as [|[k0 v0] rest IH]; simpl; [reflexivity|].
  destruct (String.eqb_spec k k0) as [->|Hk]; simpl.
  - destruct (String.eqb_spec k' k0); [congruence|reflexivity].
  - destruct (String.eqb k' k0); [reflexivity|exact IH].
Qed.

Lemma dict_get_None k d : dict_get k d = None <-> ~ In k (map fst d).
Proof.
  induction d as [|[k0 v0] rest IH]; simpl; [tauto|].
  destruct (String.eqb_spec k k0) as [->|Hk].
  - split; [discriminate|]. intros H. elim H. left. reflexivity.
  - rewrite IH. split; [intros H [E|Hin]; [congruence|auto]|tauto].
Qed.

Lemma dict_get_del_same k d : dict_ok d -> dict_get k (dict_del k d) = None.
Proof.
  unfold dict_ok. induction d as [|[k0 v0] rest IH]; simpl; intros Hnd; [reflexivity|].
  apply NoDup_cons in Hnd as [Hk0 Hnd].
  destruct (String.eqb_spec k k0) as [->|Hk]; simpl.
  - apply dict_get_None. rewrite <- list_elem_of_In. exact Hk0.
  - destruct (String.eqb_spec k k0); [congruence|]. apply IH. exact Hnd.
Qed.

Lemma dict_keys_set k v d :
  forall k', In k' (map fst (dict_set k v d)) -> k' = k \/ In k' (map fst d).
Proof.
  induction d as [|[k0 v0] rest IH]; simpl; intros k' H.
  - destruct H as [<-|[]]. left. reflexivity.
  - destruct (String.eqb_spec k k0) as [->|Hk]; simpl in H; [right; exact H|].
    destruct H as [<-|H]; [right; left; reflexivity|]. destruct (IH _ H); auto.
Qed.

Lemma dict_keys_del k d : forall k', In k' (map fst (dict_del k d)) -> In k' (map fst d).
Proof.
  induction d as [|[k0 v0] rest IH]; simpl; intros k' H; [exact H|].
  destruct (String.eqb_spec k k0) as [->|Hk]; simpl in H; [right; exact H|].
  destruct H as [<-|H]; [left; reflexivity|right; auto].
Qed.

Lemma dict_ok_set k v d : dict_ok d -> dict_ok (dict_set k v d).
Proof.
  unfold dict_ok. induction d as [|[k0 v0] rest IH]; simpl; intros Hnd.
  - apply NoDup_cons. split; [apply not_elem_of_nil|constructor].
  - apply NoDup_cons in Hnd as [Hk0 Hnd].
    destruct (String.eqb_spec k k0) as [->|Hk]; simpl.
    + apply NoDup_cons. auto.
    + apply NoDup_cons. split; [|auto]. rewrite list_elem_of_In. intros H.
      apply dict_keys_set in H as [E|H]; [congruence|].
      apply Hk0. rewrite list_elem_of_In. exact H.
Qed.

Lemma dict_ok_del k d : dict_ok d -> dict_ok (dict_del k d).
Proof.
  unfold dict_ok. induction d as [|[k0 v0] rest IH]; simpl; intros Hnd; [exact Hnd|].
  apply NoDup_cons in Hnd as [Hk0 Hnd].
  destruct (String.eqb_spec k k0) as [->|Hk]; simpl; [exact Hnd|].
  apply NoDup_cons. split; [|auto]. rewrite list_elem_of_In. intros H.
  apply dict_keys_del in H. apply Hk0. rewrite list_elem_of_In. exact H.
Qed.

Lemma dict_get_apply_same h sym q :
  dict_get sym (apply_order h sym q) = Some (default 0 (dict_get sym h) + q).
Proof.
  unfold apply_order. destruct (dict_get sym h); rewrite dict_get_set_same; reflexivity.
Qed.

Lemma dict_get_apply_other h sym q k :
  k <> sym -> dict_get k (apply_order h sym q) = dict_get k h.
Proof.
  intros Hne. unfold apply_order.
  destruct (dict_get sym h); apply dict_get_set_other; exact Hne.
Qed.

Lemma dict_ok_apply h sym q : dict_ok h -> dict_ok (apply_order h sym q).
Proof. intros H. unfold apply_order. destruct (dict_get sym h); apply dict_ok_set; exact H. Qed.

(** The holdings once the shares of an execution are booked: the position is
    adjusted, and dropped when it comes to zero. *)
Lemma booked_shares h sym q :
  dict_ok h ->
  let h1 := apply_order h sym q in
  let h2 := match dict_get sym h1 with Some 0 => dict_del sym h1 | _ => h1 end in
  dict_ok h2 /\
  default 0 (dict_get sym h2) = default 0 (dict_get sym h) + q /\
  (dict_get sym h2 = None <-> default 0 (dict_get sym h) + q = 0) /\
  (forall k, k <> sym -> dict_get k h2 = dict_get k h).
Proof.
  intros Hok h1 h2. subst h2.
  pose proof (dict_ok_apply h sym q Hok) as Hok1. fold h1 in Hok1.
  pose proof (dict_get_apply_same h sym q) as Hs. fold h1 in Hs.
  assert (Ho : forall k, k <> sym -> dict_get k h1 = dict_get k h)
    by (intros; apply dict_get_apply_other; assumption).
  rewrite Hs. destruct (Z.eq_dec (default 0 (dict_get sym h) + q) 0) as [E|E].
  - rewrite E. split; [apply dict_ok_del; assumption|].
    rewrite (dict_get_del_same _ _ Hok1). simpl. split; [lia|]. split; [tauto|].
    intros k Hk. rewrite dict_get_del_other; auto.
  - assert (Hsame : match default 0 (dict_get sym h) + q with
                    | 0 => dict_del sym h1
                    | _ => h1
                    end = h1).
    { destruct (default 0 (dict_get sym h) + q); [congruence|reflexivity|reflexivity]. }
    rewrite Hsame, Hs. simpl. split; [assumption|]. split; [reflexivity|].
    split; [split; [discriminate|contradiction]|exact Ho].
Qed.

(** [orderExecuted] with cash at hand and a fill price on the order. *)
Lemma orderExecuted_run order st cash fp :
  symbol order <> CASH ->
  dict_get CASH (holdings st) = Some cash -> fill_price order = Some fp ->
  exists st',
    orderExecuted order st = (Ok tt, st') /\
    last_trade st' = last_trade st /\
    holdings st' =
      dict_set CASH (cash - signed_quantity order * fp)
        (let h1 := apply_order (holdings st) (symbol order) (signed_quantity order) in
         match dict_get (symbol order) h1 with
         | Some 0 => dict_del (symbol order) h1
         | _ => h1
         end).
Proof.
  intros Hsym Hc Hfp. unfold orderExecuted, bind, logEvent. cbn [holdings set_log].
  fold (signed_quantity order).
  set (h1 := apply_order (holdings st) (symbol order) (signed_quantity order)).
  set (h2 := match dict_get (symbol order) h1 with
             | Some 0 => dict_del (symbol order) h1
             | _ => h1
             end).
  assert (Hc2 : dict_get CASH h2 = Some cash).
  { assert (Hc1 : dict_get CASH h1 = Some cash).
    { unfold h1. rewrite dict_get_apply_other; [exact Hc|congruence]. }
    unfold h2. destruct (dict_get (symbol order) h1) as [[| |]|]; try exact Hc1.
    rewrite dict_get_del_other; [exact Hc1|congruence]. }
  rewrite Hc2, Hfp. eexists; split; [reflexivity|]. split; reflexivity.
Qed.

Lemma orderExecuted_holdings order st cash fp :
  dict_ok (holdings st) -> symbol order <> CASH ->
  dict_get CASH (holdings st) = Some cash -> fill_price order = Some fp ->
  exists st',
    orderExecuted order st = (Ok tt, st') /\
    last_trade st' = last_trade st /\
    dict_ok (holdings st') /\
    getHoldings st' (symbol order) = getHoldings st (symbol order) + signed_quantity order /\
    dict_get CASH (holdings st') = Some (cash - signed_quantity order * fp) /\
    (dict_get (symbol order) (holdings st') = None <->
     getHoldings st (symbol order) + signed_quantity order = 0) /\
    (forall k, k <> symbol order -> k <> CASH ->
               dict_get k (holdings st') = dict_get k (holdings st)).
Proof.
  intros Hok Hsym Hc Hfp.
  destruct (orderExecuted_run order st cash fp Hsym Hc Hfp) as (st' & Hrun & Hlt & Hh).
  exists st'. split; [exact Hrun|]. split; [exact Hlt|].
  destruct (booked_shares (holdings st) (symbol order) (signed_quantity order) Hok)
    as (Hok2 & Hv & Hz & Ho).
  cbv zeta in Hh, Hok2, Hv, Hz, Ho.
  unfold getHoldings. rewrite Hh.
  split; [apply dict_ok_set; exact Hok2|].
  rewrite !dict_get_set_other by congruence. rewrite dict_get_set_same.
  split; [|split; [reflexivity|split]].
  - destruct (dict_get (symbol order) (holdings st)), (dict_get (symbol order) _);
      simpl in Hv; exact Hv.
  - rewrite Hz. destruct (dict_get (symbol order) (holdings st)); simpl; tauto.
  - intros k Hk Hkc. rewrite dict_get_set_other by congruence. apply Ho. exact Hk.
Qed.

(** X7.  [orderExecuted] books a fill.  For an order in a symbol other than
    [CASH] that carries a fill price, with cash among the holdings: the call
    returns, the position in the symbol moves by the quantity (up for a buy,
    down for a sell), cash moves by quantity times fill price the other way,
    no other holding changes, and the symbol is dropped from the holdings
    exactly when the position comes to zero. *)
Theorem orderExecuted_books_the_fill order st cash fp :
  dict_ok (holdings st) -> symbol order <> CASH ->
  dict_get CASH (holdings st) = Some cash -> fill_price order = Some fp ->
  exists st',
    orderExecuted order st = (Ok tt, st') /\
    dict_ok (holdings st') /\
    getHoldings st' (symbol order) = getHoldings st (symbol order) + signed_quantity order /\
    getHoldings st' CASH = cash - signed_quantity order * fp /\
    (dict_get (symbol order) (holdings st') = None <->
     getHoldings st (symbol order) + signed_quantity order = 0) /\
    (forall k, k <> symbol order -> k <> CASH -> getHoldings st' k = getHoldings st k).
Proof.
  intros Hok Hsym Hc Hfp.
  destruct (orderExecuted_holdings order st cash fp Hok Hsym Hc Hfp)
    as (st' & Hrun & _ & Hok' & Hs & Hcash & Hz & Ho).
  exists st'. repeat (split; [assumption|]). split; [|split; [exact Hz|]].
  - unfold getHoldings. rewrite Hcash. reflexivity.
  - intros k Hk Hkc. unfold getHoldings. rewrite (Ho k Hk Hkc). reflexivity.
Qed.

(** ** Executions and the marked value *)








(** ** The list of open orders *)

Lemma markToMarket_orders h st : orders (snd (markToMarket h st)) = orders st.
Proof.
  destruct (markToMarket_run h st) as [_ L].
  destruct (logged_fields _ _ L) as (_ & _ & Ho & _). exact Ho.
Qed.

Lemma placeLimitOrder_orders sym qty is_buy price st st' :
  snd (placeLimitOrder sym qty is_buy price st) = st' ->
  orders st' = orders st \/
  exists o, 0 < quantity o /\ orders st' = <[order_id o := o]> (orders st).
Proof.
  unfold placeLimitOrder, bind at 1, newLimitOrder.
  destruct (0 <? qty) eqn:Eq; [|intros <-; left; reflexivity].
  apply Z.ltb_lt in Eq.
  set (st0 := set_next_order_id st (S (next_order_id st))).
  set (order := mkOrder (next_order_id st) (id st) (currentTime st) sym qty is_buy price None).
  change (orders st) with (orders st0).
  unfold bind at 1.
  pose proof (markToMarket_orders (holdings st0) st0) as H1.
  destruct (markToMarket (holdings st0) st0) as [[mtm|e] st1]; simpl in H1;
    [|intros <-; left; exact H1].
  unfold bind at 1. unfold lookup_holding at 1.
  destruct (dict_get CASH (holdings st0)) as [cash|]; [|intros <-; left; exact H1].
  cbn [ret]. unfold bind at 1.
  set (new_holdings := apply_order _ _ _).
  pose proof (markToMarket_orders new_holdings st1) as H2.
  destruct (markToMarket new_holdings st1) as [[new_mtm|e] st2]; simpl in H2;
    [|intros <-; left; simpl; congruence].
  unfold bind at 1. unfold lookup_holding at 1.
  destruct (dict_get CASH new_holdings) as [new_cash|]; [|intros <-; left; simpl; congruence].
  cbn [ret].
  destruct ((mtm - cash <? new_mtm - new_cash) && (startingCash st0 <? new_mtm - new_cash));
    [intros <-; left; simpl; congruence|].
  intros <-. right. exists order. split; [exact Eq|].
  unfold bind, sendMessage, logEvent. cbn [exchangeID st0 set_next_order_id].
  destruct (exchangeID st); simpl; congruence.
Qed.

Lemma orderExecuted_orders order st :
  orders (snd (orderExecuted order st)) =
    match orders st !! order_id order with
    | Some o =>
        if quantity o <=? quantity order then delete (order_id order) (orders st)
        else <[order_id order := set_quantity o (quantity o - quantity order)]> (orders st)
    | None => orders st
    end \/
  orders (snd (orderExecuted order st)) = orders st.
Proof.
  unfold orderExecuted, bind, logEvent. cbn [holdings set_log orders].
  destruct (dict_get CASH _) as [cash|]; [|right; reflexivity].
  destruct (fill_price order) as [fp|]; [|right; reflexivity].
  left. reflexivity.
Qed.

(** X9.  The agent's list of open orders stays sound.  If every open order
    is filed under its own id with a positive quantity, the same holds after
    [placeLimitOrder], [orderExecuted], [orderCancelled] and [cancelOrder],
    whatever their arguments and whether or not they raise: an order is
    never filed under another id, and an order filled for all its shares or
    more is removed rather than kept with nothing left. *)
Theorem open_orders_stay_sound st :
  open_orders_ok st ->
  (forall sym qty is_buy price,
     open_orders_ok (snd (placeLimitOrder sym qty is_buy price st))) /\
  (forall order, open_orders_ok (snd (orderExecuted order st))) /\
  (forall order, open_orders_ok (snd (orderCancelled order st))) /\
  (forall order, open_orders_ok (snd (cancelOrder order st))).
Proof.
  unfold open_orders_ok. intros Hok. split; [|split; [|split]].
  - intros sym qty is_buy price.
    destruct (placeLimitOrder_orders sym qty is_buy price st _ eq_refl) as [->|(o & Hq & ->)];
      [exact Hok|].
    apply map_Forall_insert_2; auto.
  - intros order. destruct (orderExecuted_orders order st) as [->| ->]; [|exact Hok].
    destruct (orders st !! order_id order) as [o|] eqn:E; [|exact Hok].
    destruct (Hok _ _ E) as [Hid Hq].
    destruct (quantity o <=? quantity order) eqn:El.
    + apply map_Forall_delete. exact Hok.
    + apply Z.leb_gt in El. apply map_Forall_insert_2; [|exact Hok].
      simpl. split; [exact Hid|lia].
  - intros order. unfold orderCancelled, bind, logEvent. simpl.
    apply map_Forall_delete. exact Hok.
  - intros order. unfold cancelOrder, bind, sendMessage, logEvent.
    destruct (exchangeID st); simpl; exact Hok.
Qed.

(** X10.  Buying and selling back is a round trip on the holdings.  Booking
    the execution of a buy and then of a sell of the same symbol, quantity
    and fill price brings every holding, cash included, back to what it was;
    [getHoldings] reads a symbol not held as 0. *)
Theorem buy_then_sell_restores_holdings buy sell st cash fp :
  dict_ok (holdings st) -> dict_get CASH (holdings st) = Some cash ->
  symbol buy <> CASH -> symbol sell = symbol buy ->
  is_buy_order buy = true -> is_buy_order sell = false ->
  quantity sell = quantity buy ->
  fill_price buy = Some fp -> fill_price sell = Some fp ->
  exists st1 st2,
    orderExecuted buy st = (Ok tt, st1) /\
    orderExecuted sell st1 = (Ok tt, st2) /\
    forall k, getHoldings st2 k = getHoldings st k.
Proof.
  intros Hok Hc Hsym Hss Hb Hs Hq Hfb Hfs.
  destruct (orderExecuted_holdings buy st cash fp Hok Hsym Hc Hfb)
    as (st1 & Hrun1 & _ & Hok1 & Hp1 & Hc1 & _ & Ho1).
  assert (Hsym' : symbol sell <> CASH) by congruence.
  destruct (orderExecuted_holdings sell st1 _ fp Hok1 Hsym' Hc1 Hfs)
    as (st2 & Hrun2 & _ & _ & Hp2 & Hc2 & _ & Ho2).
  exists st1, st2. split; [exact Hrun1|]. split; [exact Hrun2|].
  assert (Hqb : signed_quantity buy = quantity buy) by (unfold signed_quantity; rewrite Hb; reflexivity).
  assert (Hqs : signed_quantity sell = - quantity buy)
    by (unfold signed_quantity; rewrite Hs, Hq; lia).
  intros k. destruct (String.eqb_spec k (symbol buy)) as [->|Hk].
  - rewrite Hss in Hp2. rewrite Hp2, Hp1, Hqb, Hqs. lia.
  - destruct (String.eqb_spec k CASH) as [->|Hkc].
    + unfold getHoldings. rewrite Hc2, Hc, Hqb, Hqs. lia.
    + unfold getHoldings. rewrite Ho2 by congruence. rewrite Ho1 by assumption. reflexivity.
Qed.

(** ** The book and the agents together *)

Lemma total_flow_app f l1 l2 : total_flow f (l1 ++ l2) = total_flow f l1 + total_flow f l2.
Proof.
  unfold total_flow. induction l1 as [|m l1 IH]; simpl; [reflexivity|rewrite IH; lia].
Qed.

Lemma side_wf_is_buy buy s o :
  OrderBook.side_wf buy s -> In o (concat s) -> is_buy_order o = buy.
Proof.
  intros [Hall _] Hin. apply in_concat in Hin as (l & Hl & Hol).
  rewrite List.Forall_forall in Hall. destruct (Hall l Hl) as [_ Hlvl].
  rewrite List.Forall_forall in Hlvl. apply (Hlvl o Hol).
Qed.

Lemma exec_msgs_zero_sum order hits :
  Forall (fun m => is_buy_order (fst m) = negb (is_buy_order order)) hits ->
  total_flow share_flow (flat_map (OrderBook.exec_msgs order) hits) = 0 /\
  total_flow cash_flow (flat_map (OrderBook.exec_msgs order) hits) = 0.
Proof.
  induction hits as [|[x q] hits IH]; intros Hall; [split; reflexivity|].
  apply Forall_cons_1 in Hall as [Hx Hall]. simpl in Hx.
  destruct (IH Hall) as [IHs IHc].
  cbn [flat_map]. rewrite !total_flow_app, IHs, IHc.
  unfold total_flow, OrderBook.exec_msgs, share_flow, cash_flow, signed_quantity. simpl.
  rewrite Hx. destruct (is_buy_order order); simpl; split; lia.
Qed.

(** X14.  Trading is zero-sum.  For one call of [handleLimitOrder] on a book
    a run can build, add up what the recipients' [orderExecuted] will book
    for the messages sent: the changes in shares cancel out, and so do the
    changes in cash.  Every match moves shares and money between two
    agents and creates none. *)
Theorem matches_are_zero_sum fl b order r :
  OrderBook.reachable fl b ->
  OrderBook.handleLimitOrder fl b order = Some (Ok r) ->
  total_flow share_flow (OrderBook.r_msgs r) = 0 /\
  total_flow cash_flow (OrderBook.r_msgs r) = 0.
Proof.
  intros Hreach H. apply OrderBookFacts.reachable_wf in Hreach.
  pose proof (proj1 (OrderBookFacts.book_wf_sides b order) Hreach) as (_ & Hopp & _).
  destruct (OrderBookFacts.handleLimitOrder_trace _ _ _ _ H)
    as (hits & k & acc & Hk & Hm & _ & _ & Hacc).
  assert (Hsides : Forall (fun m => is_buy_order (fst m) = negb (is_buy_order order)) hits).
  { apply List.Forall_forall. intros m Hin.
    apply (side_wf_is_buy _ _ _ Hopp). rewrite Hk. apply in_or_app. left.
    apply in_map. exact Hin. }
  destruct (exec_msgs_zero_sum order hits Hsides) as [Hs Hc].
  assert (Ha : total_flow share_flow acc = 0 /\ total_flow cash_flow acc = 0).
  { destruct Hacc as [[-> _]|(b_mid & q & -> & _)]; split; reflexivity. }
  destruct Ha as [Has Hac].
  rewrite Hm. simpl. rewrite !total_flow_app, Hs, Hc, Has, Hac. split; reflexivity.
Qed.

(** *** Scenarios for the further properties *)

Lemma orderExecuted_books_the_fill_witness :
  exists st',
    orderExecuted Scenario.filled_buy_x Scenario.trader = (Ok tt, st') /\
    dict_ok (holdings st') /\
    getHoldings st' (symbol Scenario.filled_buy_x) =
      getHoldings Scenario.trader (symbol Scenario.filled_buy_x)
      + signed_quantity Scenario.filled_buy_x /\
    getHoldings st' CASH = 100000 - signed_quantity Scenario.filled_buy_x * 1000 /\
    (dict_get (symbol Scenario.filled_buy_x) (holdings st') = None <->
     getHoldings Scenario.trader (symbol Scenario.filled_buy_x)
     + signed_quantity Scenario.filled_buy_x = 0) /\
    (forall k, k <> symbol Scenario.filled_buy_x -> k <> CASH ->
               getHoldings st' k = getHoldings Scenario.trader k).
Proof.
  apply orderExecuted_books_the_fill.
  - unfold dict_ok. simpl. apply NoDup_singleton.
  - discriminate.
  - reflexivity.
  - reflexivity.
Defined.


Lemma open_orders_stay_sound_witness :
  (forall sym qty is_buy price,
     open_orders_ok (snd (placeLimitOrder sym qty is_buy price Scenario.trader))) /\
  (forall order, open_orders_ok (snd (orderExecuted order Scenario.trader))) /\
  (forall order, open_orders_ok (snd (orderCancelled order Scenario.trader))) /\
  (forall order, open_orders_ok (snd (cancelOrder order Scenario.trader))).
Proof.
  apply open_orders_stay_sound.
  unfold open_orders_ok. simpl. apply map_Forall_empty.
Defined.

Lemma buy_then_sell_restores_holdings_witness :
  exists st1 st2,
    orderExecuted Scenario.filled_buy_x Scenario.trader = (Ok tt, st1) /\
    orderExecuted Scenario.filled_sell_x st1 = (Ok tt, st2) /\
    forall k, getHoldings st2 k = getHoldings Scenario.trader k.
Proof.
  apply (buy_then_sell_restores_holdings Scenario.filled_buy_x Scenario.filled_sell_x
           Scenario.trader 100000 1000).
  - unfold dict_ok. simpl. apply NoDup_singleton.
  - reflexivity.
  - discriminate.
  - reflexivity.
  - reflexivity.
  - reflexivity.
  - reflexivity.
  - reflexivity.
  - reflexivity.
Defined.

Lemma matches_are_zero_sum_witness :
  exists r,
    OrderBook.handleLimitOrder Scenario.floats Scenario.book_two_sided Scenario.buy_80
      = Some (Ok r) /\
    total_flow share_flow (OrderBook.r_msgs r) = 0 /\
    total_flow cash_flow (OrderBook.r_msgs r) = 0.
Proof.
  eexists. split; [vm_compute; reflexivity|].
  apply (matches_are_zero_sum Scenario.floats Scenario.book_two_sided Scenario.buy_80).
  - apply OrderBookFacts.reachable_after, OrderBookFacts.reachable_after, OrderBookFacts.open_book_reachable.
  - vm_compute. reflexivity.
Defined.

(** ** Positions *)

(** X16.  [havePositions] of the zero-intelligence agent answers what its
    name says.  On holdings without repeated keys it is true exactly when
    some symbol other than [CASH] is held: counting the entries of the dict
    and looking for [CASH] among them is enough. *)
Theorem havePositions_iff_symbol_held st :
  dict_ok (holdings st) ->
  ZeroIntelligenceAgent.havePositions st = true <->
  exists sym, sym <> CASH /\ is_Some (dict_get sym (holdings st)).
Proof.
  unfold ZeroIntelligenceAgent.havePositions, dict_ok.
  destruct (holdings st) as [|[k1 v1] [|[k2 v2] rest]]; intros Hnd.
  - simpl. split; [discriminate|]. intros (sym & _ & [v Hv]). discriminate.
  - cbn [length Nat.ltb Nat.leb Nat.eqb orb andb dict_get].
    destruct (String.eqb_spec CASH k1) as [<-|Hk1]; cbn [negb]; split.
    + discriminate.
    + intros (sym & Hsym & [v Hv]).
      destruct (String.eqb_spec sym CASH); [congruence|discriminate].
    + intros _. exists k1. split; [congruence|]. rewrite String.eqb_refl. eauto.
    + reflexivity.
  - split; [intros _|reflexivity].
    apply NoDup_cons in Hnd as [Hk1 _]. simpl in Hk1.
    assert (Hne : k1 <> k2) by (intros ->; apply Hk1; left).
    destruct (String.eqb_spec k1 CASH) as [E1|E1].
    + exists k2. split; [congruence|]. cbn [dict_get].
      destruct (String.eqb_spec k2 k1); [congruence|]. rewrite String.eqb_refl. eauto.
    + exists k1. split; [exact E1|]. cbn [dict_get]. rewrite String.eqb_refl. eauto.
Qed.

Lemma havePositions_iff_symbol_held_witness :
  ZeroIntelligenceAgent.havePositions Scenario.trader = true <->
  exists sym, sym <> CASH /\ is_Some (dict_get sym (holdings Scenario.trader)).
Proof.
  apply havePositions_iff_symbol_held.
  unfold dict_ok. simpl. apply NoDup_singleton.
Defined.

End TradingAgentFacts.

(** * Facts about the oracle *)

Module OracleFacts.
Import MeanRevertingOracle.

(** Inside its index a series has a value. *)
Lemma loc_in_range s time :
  s_start s <= time < s_start s + Z.of_nat (length (s_values s)) ->
  exists v, loc s time = Ok v /\ s_values s !! Z.to_nat (time - s_start s) = Some v.
Proof.
  intros [Hlo Hhi]. unfold loc.
  replace (time <? s_start s) with false by (symmetry; apply Z.ltb_ge; lia).
  destruct (s_values s !! Z.to_nat (time - s_start s)) as [v|] eqn:E; [eauto|].
  apply lookup_ge_None in E. lia.
Qed.

(** C9.  With [sigma_n = 0], [observePrice] returns the fundamental value
    itself: the series value at [t] when [t] is before [mkt_close], and the
    series value at [mkt_close] minus one nanosecond otherwise.  For an oracle
    whose series cover the trading day, a known symbol and a time not before
    [mkt_open], that value exists. *)
Theorem observePrice_noiseless (draw : Z -> Z -> Z) (o : t) (sym : string) (time : Z) :
  (time < mkt_close o ->
     observePrice draw o sym time 0 = series_at o sym time) /\
  (mkt_close o <= time ->
     observePrice draw o sym time 0 = series_at o sym (mkt_close o - 1)) /\
  (covers_day o -> is_Some (r o !! sym) -> mkt_open o <= time ->
     exists v, observePrice draw o sym time 0 = Ok v).
Proof.
  assert (Hobs : forall m : outcome Z,
            (r_t ← m; if 0 =? 0 then Ok r_t
                      else if 0 <? 0 then Raise ValueError else Ok (draw r_t 0)) = m).
  { intros [v|e]; reflexivity. }
  split; [|split].
  - intros Hlt. unfold observePrice.
    replace (mkt_close o <=? time) with false by (symmetry; apply Z.leb_gt; exact Hlt).
    apply Hobs.
  - intros Hge. unfold observePrice.
    replace (mkt_close o <=? time) with true by (symmetry; apply Z.leb_le; exact Hge).
    apply Hobs.
  - intros [Hday Hcov] [s Hs] Hopen. destruct (Hcov _ _ Hs) as [Hstart Hlen].
    unfold observePrice. rewrite Hobs. unfold series_at, series. rewrite Hs. simpl.
    destruct (mkt_close o <=? time) eqn:E.
    + destruct (loc_in_range s (mkt_close o - 1)) as (v & -> & _); [lia|eauto].
    + apply Z.leb_gt in E.
      destruct (loc_in_range s time) as (v & -> & _); [lia|eauto].
Qed.

(** *** Scenarios *)

Lemma observePrice_noiseless_witness :
  observePrice (fun r_t _ => r_t) Scenario.day_oracle "ABC" 102 0 = Ok 998 /\
  observePrice (fun r_t _ => r_t) Scenario.day_oracle "ABC" 200 0 = Ok 1005 /\
  exists v, observePrice (fun r_t _ => r_t) Scenario.day_oracle "ABC" 105 0 = Ok v.
Proof.
  split; [|split].
  - destruct (observePrice_noiseless (fun r_t _ => r_t) Scenario.day_oracle "ABC" 102)
      as (Hbefore & _ & _).
    rewrite Hbefore; [reflexivity|simpl; lia].
  - destruct (observePrice_noiseless (fun r_t _ => r_t) Scenario.day_oracle "ABC" 200)
      as (_ & Hafter & _).
    rewrite Hafter; [reflexivity|simpl; lia].
  - destruct (observePrice_noiseless (fun r_t _ => r_t) Scenario.day_oracle "ABC" 105)
      as (_ & _ & Hexists).
    apply Hexists.
    + split; [simpl; lia|]. intros sym s Hs. simpl in Hs.
      apply lookup_singleton_Some in Hs as [_ <-]. split; reflexivity.
    + eexists. reflexivity.
    + simpl. lia.
Defined.

(** Before the open there is no value to observe. *)
Example observePrice_before_open :
  observePrice (fun r_t _ => r_t) Scenario.day_oracle "ABC" 99 0 = Raise KeyError.
Proof. reflexivity. Qed.

(** ** The open price *)

(** X15.  For an oracle whose series cover the trading day and a symbol it
    knows, [getDailyOpenPrice] returns, whatever [mkt_open] it is passed, the
    first value of the symbol's series, and a noiseless [observePrice] at the
    open returns the same value.  For a symbol the oracle does not know it
    raises [KeyError]. *)
Theorem getDailyOpenPrice_is_first_value (draw : Z -> Z -> Z) (o : t) (sym : string)
        (mkt_open_arg : option Z) :
  (forall s, covers_day o -> r o !! sym = Some s ->
     exists v, getDailyOpenPrice o sym mkt_open_arg = Ok v /\
               head (s_values s) = Some v /\
               observePrice draw o sym (mkt_open o) 0 = Ok v) /\
  (r o !! sym = None -> getDailyOpenPrice o sym mkt_open_arg = Raise KeyError).
Proof.
  split.
  - intros s [Hday Hcov] Hs. destruct (Hcov _ _ Hs) as [Hstart Hlen].
    destruct (loc_in_range s (mkt_open o)) as (v & Hloc & Hv); [lia|].
    exists v. unfold getDailyOpenPrice, observePrice, series_at, series. rewrite Hs.
    replace (mkt_close o <=? mkt_open o) with false by (symmetry; apply Z.leb_gt; lia).
    cbn [mbind outcome_bind]. rewrite Hloc. cbn [mbind outcome_bind].
    split; [reflexivity|]. split; [|reflexivity].
    rewrite Hstart, Z.sub_diag in Hv. simpl in Hv.
    destruct (s_values s); [discriminate|]. exact Hv.
  - intros Hs. unfold getDailyOpenPrice, series_at, series. rewrite Hs. reflexivity.
Qed.

Lemma getDailyOpenPrice_is_first_value_witness :
  (exists v, getDailyOpenPrice Scenario.day_oracle "ABC" (Some 7) = Ok v /\
             head [1000; 1003; 998; 1001; 1005] = Some v /\
             observePrice (fun r_t _ => r_t) Scenario.day_oracle "ABC"
                          (mkt_open Scenario.day_oracle) 0 = Ok v) /\
  getDailyOpenPrice Scenario.day_oracle "XYZ" (Some 7) = Raise KeyError.
Proof.
  split.
  - apply (proj1 (getDailyOpenPrice_is_first_value (fun r_t _ => r_t) Scenario.day_oracle
                    "ABC" (Some 7))
                 (mkSeries 100 [1000; 1003; 998; 1001; 1005])).
    + split; [simpl; lia|]. intros sym s Hs. simpl in Hs.
      apply lookup_singleton_Some in Hs as [_ <-]. split; reflexivity.
    + reflexivity.
  - apply (getDailyOpenPrice_is_first_value (fun r_t _ => r_t) Scenario.day_oracle "XYZ"
             (Some 7)).
    reflexivity.
Defined.

End OracleFacts.

(** * Facts about the kernel *)

Module KernelFacts.
Import Kernel.

Section Facts.

Context {Msg St : Type}.
Variable tail_ltb : MessageType * option Msg -> MessageType * option Msg -> bool.
Variable noise_draw : nat -> Z.
Variable agent_kernelStarting : nat -> Z -> St -> St * list (@Request Msg).
Variable agent_wakeup : nat -> Z -> St -> St * list (@Request Msg).
Variable agent_receiveMessage : nat -> Z -> option Msg -> St -> St * list (@Request Msg).

Local Abbreviation kernel := (@Kernel.t Msg St).
Local Abbreviation step := (@Kernel.step Msg St tail_ltb noise_draw agent_wakeup agent_receiveMessage).
Local Abbreviation run := (@Kernel.run Msg St tail_ltb noise_draw agent_wakeup agent_receiveMessage).
Local Abbreviation dispatch := (@Kernel.dispatch Msg St noise_draw agent_wakeup agent_receiveMessage).
Local Abbreviation boot := (@Kernel.boot Msg St noise_draw agent_kernelStarting).

(** *** The queue *)

Lemma key_le_trans (e1 e2 e3 : @Entry Msg) : key_le e1 e2 -> key_le e2 e3 -> key_le e1 e3.
Proof. unfold key_le. lia. Qed.

Lemma key_le_refl (e : @Entry Msg) : key_le e e.
Proof. unfold key_le. right. split; [reflexivity|]. apply Nat.le_refl. Qed.

Lemma entry_ltb_true e1 e2 : entry_ltb tail_ltb e1 e2 = true -> key_le e1 e2.
Proof.
  destruct e1 as [t1 [[r1 ty1] m1]], e2 as [t2 [[r2 ty2] m2]].
  unfold entry_ltb, key_le, deliverAt, recipient. simpl.
  destruct (Z.ltb_spec t1 t2); [lia|]. simpl.
  destruct (Z.eqb_spec t1 t2); [|discriminate]. simpl.
  destruct (Nat.ltb_spec r1 r2); [lia|]. simpl.
  destruct (Nat.eqb_spec r1 r2); [lia|discriminate].
Qed.

Lemma entry_ltb_false e1 e2 : entry_ltb tail_ltb e1 e2 = false -> key_le e2 e1.
Proof.
  destruct e1 as [t1 [[r1 ty1] m1]], e2 as [t2 [[r2 ty2] m2]].
  unfold entry_ltb, key_le, deliverAt, recipient. simpl.
  destruct (Z.ltb_spec t1 t2); [discriminate|]. simpl.
  destruct (Z.eqb_spec t1 t2); [|lia]. simpl.
  destruct (Nat.ltb_spec r1 r2); [discriminate|]. simpl. lia.
Qed.

Lemma extract_min_least rest : forall e m others,
  extract_min tail_ltb e rest = (m, others) ->
  In m (e :: rest) /\ (forall e', In e' (e :: rest) -> key_le m e') /\
  length others = length rest.
Proof.
  induction rest as [|e1 rest IH]; intros e m others H; simpl in H.
  - injection H as <- <-. split; [left; reflexivity|]. split; [|reflexivity].
    intros e' [<-|[]]. apply key_le_refl.
  - destruct (extract_min tail_ltb e1 rest) as [m1 others1] eqn:E1.
    destruct (IH _ _ _ E1) as (Hin & Hleast & Hlen).
    destruct (entry_ltb tail_ltb m1 e) eqn:Elt; injection H as <- <-.
    + split; [right; exact Hin|]. split; [|simpl; rewrite Hlen; reflexivity].
      intros e' [<-|He']; [apply entry_ltb_true; exact Elt|apply Hleast; exact He'].
    + split; [left; reflexivity|]. split; [|reflexivity].
      intros e' [<-|He']; [apply key_le_refl|].
      eapply key_le_trans; [apply entry_ltb_false; exact Elt|apply Hleast; exact He'].
Qed.

(** *** Requests leave the clocks alone *)

Lemma kept_refl (k : kernel) : kept k k.
Proof. repeat split. Qed.

Lemma kept_trans (k1 k2 k3 : kernel) : kept k1 k2 -> kept k2 k3 -> kept k1 k3.
Proof.
  intros (A1 & A2 & A3 & A4 & A5) (B1 & B2 & B3 & B4 & B5).
  repeat split; congruence.
Qed.

Lemma index_Ok {A : Type} (l : list A) i x : index l i = Ok x -> l !! i = Some x.
Proof. unfold index. destruct (l !! i); [intros [= ->]; reflexivity|discriminate]. Qed.

Lemma index_Some {A : Type} (l : list A) i x : l !! i = Some x -> index l i = Ok x.
Proof. unfold index. intros ->. reflexivity. Qed.

Lemma index_None {A : Type} (l : list A) i : l !! i = None -> index l i = Raise IndexError.
Proof. unfold index. intros ->. reflexivity. Qed.

Lemma serve_kept (k : kernel) rq k' : serve noise_draw k rq = Ok k' -> kept k k'.
Proof.
  destruct rq as [s r m d|s rt|s d|s d]; simpl.
  - unfold sendMessage. destruct s as [s|], r as [r|], m as [m|]; try discriminate.
    destruct (index (agentComputationDelays k) s); simpl; [|discriminate].
    destruct (currentTime k) as [now|] eqn:En; [|discriminate].
    destruct (index (agentLatency k) s) as [row|]; simpl; [|discriminate].
    destruct (index row r); simpl; [|discriminate].
    destruct (index (agents k) s); simpl; [|discriminate].
    destruct (index (agents k) r); simpl; [|discriminate].
    intros [= <-]. repeat split; simpl; auto.
  - unfold setWakeup. destruct rt as [requested|]; [|discriminate].
    destruct s as [s|]; [|discriminate].
    destruct (currentTime k) as [now|] eqn:En.
    + destruct (requested <? now); [discriminate|]. intros [= <-]. repeat split; simpl; auto.
    + intros [= <-]. repeat split; simpl; auto.
  - unfold setAgentComputeDelay. destruct (d <? 0); [discriminate|].
    destruct (index (agentComputationDelays k) s); simpl; [|discriminate].
    intros [= <-]. repeat split.
  - unfold delayAgent. destruct (d <? 0); [discriminate|].
    intros [= <-]. repeat split.
Qed.

Lemma serve_all_kept rqs : forall (k k' : kernel), serve_all noise_draw k rqs = Ok k' -> kept k k'.
Proof.
  induction rqs as [|rq more IH]; intros k k'; simpl.
  - intros [= <-]. apply kept_refl.
  - destruct (serve noise_draw k rq) as [k1|] eqn:E; simpl; [|discriminate].
    intros H. eapply kept_trans; [eapply serve_kept; exact E|apply IH; exact H].
Qed.

(** A dispatch enters exactly one callback. *)
Lemma dispatch_calls k agent ty msg now k' :
  dispatch k agent ty msg now = Ok k' ->
  calls k' = calls k ++ [mkCall agent ty now msg (agentCurrentTimes k !! agent) (currentTime k)] /\
  currentTime k' = currentTime k /\ stopTime k' = stopTime k /\
  agentCurrentTimes k' = agentCurrentTimes k.
Proof.
  unfold Kernel.dispatch.
  destruct (index (agents k) agent) as [st|]; simpl; [|discriminate].
  destruct (match ty with
            | WAKEUP => agent_wakeup agent now st
            | MESSAGE => agent_receiveMessage agent now msg st
            end) as [st' rqs].
  intros H. apply serve_all_kept in H as (H1 & H2 & H3 & H4 & _). simpl in *. auto.
Qed.

(** *** One turn of the loop *)

(** A busy recipient: the event goes back into the queue at the agent's
    clock, and nothing else happens. *)
Lemma step_busy k now agent ty msg q clock :
  get tail_ltb (messages k) = Some ((now, (agent, ty, msg)), q) ->
  agentCurrentTimes k !! agent = Some clock ->
  now < clock ->
  step k = Ok (set_messages (popped k now q) (put q (clock, (agent, ty, msg)))).
Proof.
  intros Hget Hclock Hlt. unfold Kernel.step. rewrite Hget. fold (popped k now q).
  unfold index. cbn [agentCurrentTimes popped set_currentAgentAdditionalDelay
                     set_currentTime set_messages].
  rewrite Hclock. simpl.
  replace (now <? clock) with true by (symmetry; apply Z.ltb_lt; exact Hlt).
  reflexivity.
Qed.

(** A free recipient: its clock is set to the delivery time and the callback
    is entered with that time. *)
Lemma step_free k now agent ty msg q clock k' :
  get tail_ltb (messages k) = Some ((now, (agent, ty, msg)), q) ->
  agentCurrentTimes k !! agent = Some clock ->
  clock <= now ->
  step k = Ok k' ->
  calls k' = calls k ++ [mkCall agent ty now msg (Some now) (Some now)] /\
  currentTime k' = Some now /\ stopTime k' = stopTime k.
Proof.
  intros Hget Hclock Hle. unfold Kernel.step. rewrite Hget. fold (popped k now q).
  cbn [agentCurrentTimes popped set_currentAgentAdditionalDelay
       set_currentTime set_messages].
  rewrite (index_Some _ _ _ Hclock). cbn [mbind outcome_bind].
  replace (now <? clock) with false by (symmetry; apply Z.ltb_ge; exact Hle).
  destruct (dispatch _ agent ty msg now) as [k1|] eqn:Ed; simpl; [|discriminate].
  apply dispatch_calls in Ed as (Hc & Ht & Hs & _). simpl in Hc, Ht, Hs.
  rewrite list_lookup_insert_eq in Hc by (eapply lookup_lt_Some; exact Hclock).
  destruct (index (agentCurrentTimes k1) agent); simpl; [|discriminate].
  destruct (index (agentComputationDelays k1) agent); simpl; [|discriminate].
  intros [= <-]. simpl. auto.
Qed.

(** Whatever a turn does, the callbacks it enters see the three clocks
    agree, the kernel clock becomes the delivery time, and the stop time
    stays. *)
Lemma step_calls k k' :
  step k = Ok k' ->
  exists now agent ty msg q,
    get tail_ltb (messages k) = Some ((now, (agent, ty, msg)), q) /\
    currentTime k' = Some now /\ stopTime k' = stopTime k /\
    exists cs, calls k' = calls k ++ cs /\ Forall call_in_step cs.
Proof.
  intros H. pose proof H as H0. unfold Kernel.step in H.
  destruct (get tail_ltb (messages k)) as [[[now [[agent ty] msg]] q]|] eqn:Hget; [|discriminate].
  exists now, agent, ty, msg, q. split; [reflexivity|].
  fold (popped k now q) in H.
  cbn [agentCurrentTimes popped set_currentAgentAdditionalDelay
       set_currentTime set_messages] in H.
  destruct (agentCurrentTimes k !! agent) as [clock|] eqn:Hclock;
    [|rewrite (index_None _ _ Hclock) in H; discriminate].
  destruct (Z.lt_ge_cases now clock) as [Hlt|Hge].
  - rewrite (step_busy _ _ _ _ _ _ _ Hget Hclock Hlt) in H0. injection H0 as <-.
    simpl. split; [reflexivity|]. split; [reflexivity|].
    exists []. split; [rewrite app_nil_r; reflexivity|constructor].
  - destruct (step_free _ _ _ _ _ _ _ _ Hget Hclock Hge H0) as (Hc & Ht & Hs).
    split; [exact Ht|]. split; [exact Hs|].
    eexists. split; [exact Hc|]. constructor; [|constructor]. split; reflexivity.
Qed.

Lemma run_calls fuel : forall k k',
  run fuel k = Ok k' -> Forall call_in_step (calls k) -> Forall call_in_step (calls k').
Proof.
  induction fuel as [|fuel IH]; intros k k'; simpl.
  - intros [= <-]. auto.
  - destruct (running k); [|intros [= <-]; auto].
    destruct (step k) as [k1|] eqn:Es; simpl; [|discriminate].
    intros Hrun Hall. apply (IH _ _ Hrun).
    destruct (step_calls _ _ Es) as (_ & _ & _ & _ & _ & _ & _ & _ & cs & -> & Hcs).
    apply Forall_app; split; assumption.
Qed.

Lemma start_agents_calls startTime sts : forall k i k',
  Kernel.start_agents noise_draw agent_kernelStarting k startTime i sts = Ok k' ->
  calls k' = calls k.
Proof.
  induction sts as [|s more IH]; intros k i k'; simpl.
  - intros [= <-]. reflexivity.
  - destruct (index (agents k) i) as [st|]; simpl; [|discriminate].
    destruct (agent_kernelStarting i startTime st) as [st' rqs].
    destruct (serve_all noise_draw _ rqs) as [k1|] eqn:E; simpl; [|discriminate].
    intros H. rewrite (IH _ _ _ H).
    apply serve_all_kept in E as (_ & _ & _ & Hc & _). exact Hc.
Qed.

Lemma boot_calls sts startTime stopT cd lat k :
  boot sts startTime stopT cd lat = Ok k -> calls k = [].
Proof.
  unfold Kernel.boot.
  destruct (Kernel.start_agents _ _ _ _ _ _) as [k1|] eqn:E; simpl; [|discriminate].
  intros [= <-]. simpl. apply start_agents_calls in E. exact E.
Qed.

(** A kernel whose clock is past the stop time does not turn again. *)
Lemma run_stopped fuel k now :
  currentTime k = Some now -> stopTime k < now -> run fuel k = Ok k.
Proof.
  intros Ht Hs. destruct fuel as [|fuel]; [reflexivity|]. simpl.
  unfold running. rewrite Ht.
  destruct (messages k); [reflexivity|].
  replace (now <=? stopTime k) with false by (symmetry; apply Z.leb_gt; exact Hs).
  reflexivity.
Qed.

(** ** Properties of the kernel *)

(** C2.  When the recipient's clock is strictly after the delivery time of
    the event popped, the event is not dispatched: it is put back into the
    queue with the agent's clock as its delivery time, and no callback is
    entered.  In every run of the loop, at every entry into [wakeup] or
    [receiveMessage] the time passed to the callback equals the recipient's
    clock and the kernel's current time. *)
Theorem busy_requeue_and_clocks_agree :
  (forall (k : kernel) now agent ty msg q clock,
     get tail_ltb (messages k) = Some ((now, (agent, ty, msg)), q) ->
     agentCurrentTimes k !! agent = Some clock ->
     now < clock ->
     exists k', step k = Ok k' /\
                messages k' = put q (clock, (agent, ty, msg)) /\
                calls k' = calls k /\ agents k' = agents k /\
                agentCurrentTimes k' = agentCurrentTimes k /\
                currentTime k' = Some now) /\
  (forall fuel (k k' : kernel),
     Forall call_in_step (calls k) -> run fuel k = Ok k' ->
     Forall call_in_step (calls k')) /\
  (forall sts startTime stopT cd lat fuel (k k' : kernel),
     boot sts startTime stopT cd lat = Ok k -> run fuel k = Ok k' ->
     Forall call_in_step (calls k')).
Proof.
  split; [|split].
  - intros k now agent ty msg q clock Hget Hclock Hlt.
    eexists. split; [apply (step_busy _ _ _ _ _ _ _ Hget Hclock Hlt)|].
    simpl. auto.
  - intros fuel k k' Hall Hrun. eapply run_calls; eassumption.
  - intros sts startTime stopT cd lat fuel k k' Hboot Hrun.
    eapply run_calls; [exact Hrun|]. rewrite (boot_calls _ _ _ _ _ _ Hboot). constructor.
Qed.

(** C6, as the code has it.  The queue holds the tuples
    [(deliverAt, (recipient, type, msg))] and nothing that records the order
    of insertion.  [get] removes an entry that is least by delivery time and
    then by recipient id, and that is the entry a turn of the loop handles:
    of two events with equal delivery time and different recipients the one
    for the lower agent id is popped first, whichever was inserted first. *)
Theorem equal_time_events_pop_by_recipient :
  (forall (q q' : @Queue Msg) e,
     get tail_ltb q = Some (e, q') ->
     In e q /\ length q = S (length q') /\
     forall e', In e' q ->
       deliverAt e < deliverAt e' \/
       (deliverAt e = deliverAt e' /\ (recipient e <= recipient e')%nat)) /\
  (forall (k k' : kernel),
     step k = Ok k' ->
     exists e q, get tail_ltb (messages k) = Some (e, q) /\
                 currentTime k' = Some (deliverAt e)).
Proof.
  split.
  - intros q q' e Hget. destruct q as [|e0 rest]; [discriminate|].
    simpl in Hget. injection Hget as Hget.
    destruct (extract_min_least _ _ _ _ Hget) as (Hin & Hleast & Hlen).
    split; [exact Hin|]. split; [simpl; rewrite Hlen; reflexivity|exact Hleast].
  - intros k k' Hstep.
    destruct (step_calls _ _ Hstep) as (now & agent & ty & msg & q & Hget & Ht & _).
    exists (now, (agent, ty, msg)), q. auto.
Qed.

(** C7, as the code has it.  The loop compares the kernel clock with
    [stopTime] before it pops.  The first event popped with a delivery time
    after [stopTime] is therefore still handled: its recipient's callback is
    entered, unless the recipient is busy and the event is put back.  After
    that turn the loop ends, and the events left in the queue are never
    delivered. *)
Theorem stop_time_checked_before_pop (k k' : kernel) now agent ty msg q :
  running k = true ->
  get tail_ltb (messages k) = Some ((now, (agent, ty, msg)), q) ->
  stopTime k < now ->
  step k = Ok k' ->
  (forall clock, agentCurrentTimes k !! agent = Some clock -> clock <= now ->
     calls k' = calls k ++ [mkCall agent ty now msg (Some now) (Some now)]) /\
  (forall clock, agentCurrentTimes k !! agent = Some clock -> now < clock ->
     calls k' = calls k /\ messages k' = put q (clock, (agent, ty, msg))) /\
  running k' = false /\
  (forall fuel, run fuel k' = Ok k').
Proof.
  intros _ Hget Hstop Hstep.
  destruct (step_calls _ _ Hstep) as (now' & agent' & ty' & msg' & q' & Hget' & Ht & Hs & _).
  rewrite Hget in Hget'. injection Hget' as <- <- <- <- <-.
  split; [|split; [|split]].
  - intros clock Hclock Hle.
    apply (step_free _ _ _ _ _ _ _ _ Hget Hclock Hle Hstep).
  - intros clock Hclock Hlt.
    rewrite (step_busy _ _ _ _ _ _ _ Hget Hclock Hlt) in Hstep. injection Hstep as <-.
    split; reflexivity.
  - unfold running. rewrite Ht, Hs.
    destruct (messages k'); [reflexivity|]. apply Z.leb_gt. exact Hstop.
  - intros fuel. apply (run_stopped fuel k' now Ht). rewrite Hs. exact Hstop.
Qed.

End Facts.

(** *** Scenarios *)

Local Abbreviation run_idle :=
  (Kernel.run Scenario.no_tail_order Scenario.no_noise Scenario.idle Scenario.idle_receive).
Local Abbreviation step_idle :=
  (Kernel.step Scenario.no_tail_order Scenario.no_noise Scenario.idle Scenario.idle_receive).
Local Abbreviation run_fan :=
  (Kernel.run Scenario.no_tail_order Scenario.no_noise Scenario.send_to_1_then_0
              Scenario.idle_receive).

Example busy_kernel_booted :
  Kernel.boot Scenario.no_noise Scenario.two_wakeups [tt] 0 2000000 1000000 1
  = Ok Scenario.busy_kernel.
Proof. reflexivity. Qed.

Example late_kernel_booted :
  Kernel.boot Scenario.no_noise Scenario.late_wakeups [tt] 0 10 1 1 = Ok Scenario.late_kernel.
Proof. reflexivity. Qed.

Example fan_kernel_booted :
  Kernel.boot Scenario.no_noise Scenario.only_agent_2 [tt; tt; tt] 0 1000 1 1
  = Ok Scenario.fan_kernel.
Proof. reflexivity. Qed.

(** Busy requeue: woken at 5000 with a computation delay of 1,000,000, the
    agent gets its wakeup of 5001 at 1,005,000. *)
Example busy_wakeup_is_delayed :
  exists k', run_idle 3 Scenario.busy_kernel = Ok k' /\
             map c_time (calls k') = [5000; 1005000] /\ messages k' = [].
Proof. eexists. split; [vm_compute; reflexivity|]. split; reflexivity. Qed.

Lemma busy_requeue_and_clocks_agree_witness :
  (exists k1 k2,
     run_idle 1 Scenario.busy_kernel = Ok k1 /\
     step_idle k1 = Ok k2 /\
     messages k2 = put [] (1005000, (0%nat, WAKEUP, None)) /\
     calls k2 = calls k1) /\
  (forall k', run_idle 3 Scenario.busy_kernel = Ok k' -> Forall call_in_step (calls k')).
Proof.
  pose proof (busy_requeue_and_clocks_agree Scenario.no_tail_order Scenario.no_noise
                Scenario.two_wakeups Scenario.idle Scenario.idle_receive)
    as (Hbusy & _ & Hboot).
  split.
  - eexists. 
    edestruct (Hbusy (mkKernel [(5001, (0%nat, WAKEUP, None))] (Some 5000) 2000000
                               [1005000] [1000000] [[1]] 0 0 [tt]
                               [mkCall 0 WAKEUP 5000 None (Some 5000) (Some 5000)])
                     5001 0%nat WAKEUP None [] 1005000)
      as (k2 & Hstep & Hmsgs & Hcalls & _).
    + reflexivity.
    + reflexivity.
    + lia.
    + exists k2. split; [vm_compute; reflexivity|]. split; [exact Hstep|].
      split; [exact Hmsgs|exact Hcalls].
  - intros k' Hrun.
    apply (Hboot [tt] 0 2000000 1000000 1 3%nat Scenario.busy_kernel k'); [reflexivity|exact Hrun].
Defined.

(** C6, a case where insertion order is not kept.  Agent 2 sends to agent 1 and then to agent 0;
    both messages are due at 102 and sit in the queue in that order; agent 0 is
    served first. *)
Lemma equal_time_events_pop_out_of_insertion_order :
  exists k1 k3,
    run_fan 1 Scenario.fan_kernel = Ok k1 /\
    messages k1 = Scenario.fan_queue /\
    run_fan 2 k1 = Ok k3 /\
    map (fun c => (c_agent c, c_time c, c_msg c)) (calls k3)
      = [(2%nat, 100, None); (0%nat, 102, Some 10%nat); (1%nat, 102, Some 11%nat)].
Proof.
  eexists. eexists. split; [vm_compute; reflexivity|].
  split; [reflexivity|]. split; [vm_compute; reflexivity|]. reflexivity.
Qed.

Lemma equal_time_events_pop_by_recipient_witness :
  In Scenario.to_agent_0 Scenario.fan_queue /\
  length Scenario.fan_queue = S (length [Scenario.to_agent_1]) /\
  forall e', In e' Scenario.fan_queue ->
    deliverAt Scenario.to_agent_0 < deliverAt e' \/
    (deliverAt Scenario.to_agent_0 = deliverAt e' /\
     (recipient Scenario.to_agent_0 <= recipient e')%nat).
Proof.
  apply (proj1 (equal_time_events_pop_by_recipient Scenario.no_tail_order Scenario.no_noise
                  Scenario.idle Scenario.idle_receive)
               Scenario.fan_queue [Scenario.to_agent_1]).
  reflexivity.
Defined.

(** C7, a case where an event past the stop time is delivered.  With stop time 10 the first event popped is due
    at 20; its callback is entered all the same, and only then does the loop
    end, the event due at 30 still in the queue. *)
Lemma event_past_stop_time_is_dispatched :
  stopTime Scenario.late_kernel = 10 /\
  get Scenario.no_tail_order (messages Scenario.late_kernel)
    = Some ((20, (0%nat, WAKEUP, None)), [(30, (0%nat, WAKEUP, None))]) /\
  forall fuel, run_idle (S fuel) Scenario.late_kernel = Ok Scenario.late_kernel_next.
Proof.
  split; [reflexivity|]. split; [reflexivity|].
  intros fuel. change (run_idle (S fuel) Scenario.late_kernel)
    with (run_idle fuel Scenario.late_kernel_next).
  destruct fuel; reflexivity.
Qed.

Lemma stop_time_checked_before_pop_witness :
  (forall clock, agentCurrentTimes Scenario.late_kernel !! 0%nat = Some clock -> clock <= 20 ->
     calls Scenario.late_kernel_next
     = calls Scenario.late_kernel ++ [mkCall 0 WAKEUP 20 None (Some 20) (Some 20)]) /\
  (forall clock, agentCurrentTimes Scenario.late_kernel !! 0%nat = Some clock -> 20 < clock ->
     calls Scenario.late_kernel_next = calls Scenario.late_kernel /\
     messages Scenario.late_kernel_next
     = put [(30, (0%nat, WAKEUP, None))] (clock, (0%nat, WAKEUP, None))) /\
  running Scenario.late_kernel_next = false /\
  (forall fuel, run_idle fuel Scenario.late_kernel_next = Ok Scenario.late_kernel_next).
Proof.
  apply (stop_time_checked_before_pop Scenario.no_tail_order Scenario.no_noise
           Scenario.idle Scenario.idle_receive
           Scenario.late_kernel Scenario.late_kernel_next 20 0%nat WAKEUP None
           [(30, (0%nat, WAKEUP, None))]).
  - reflexivity.
  - reflexivity.
  - simpl. lia.
  - reflexivity.
Defined.

(** ** Time in the kernel *)

Section Time.

Context {Msg St : Type}.
Variable tail_ltb : MessageType * option Msg -> MessageType * option Msg -> bool.
Variable noise_draw : nat -> Z.
Variable agent_kernelStarting : nat -> Z -> St -> St * list (@Request Msg).
Variable agent_wakeup : nat -> Z -> St -> St * list (@Request Msg).
Variable agent_receiveMessage : nat -> Z -> option Msg -> St -> St * list (@Request Msg).

Local Abbreviation kernel := (@Kernel.t Msg St).
Local Abbreviation step := (@Kernel.step Msg St tail_ltb noise_draw agent_wakeup agent_receiveMessage).
Local Abbreviation run := (@Kernel.run Msg St tail_ltb noise_draw agent_wakeup agent_receiveMessage).
Local Abbreviation dispatch := (@Kernel.dispatch Msg St noise_draw agent_wakeup agent_receiveMessage).
Local Abbreviation boot := (@Kernel.boot Msg St noise_draw agent_kernelStarting).

(** *** Delays stay non-negative *)

Lemma serve_delays_ok (k : kernel) rq k' :
  serve noise_draw k rq = Ok k' -> delays_ok k -> delays_ok k'.
Proof.
  intros H [Hcd Hx]. destruct rq as [s r m d|s rt|s d|s d]; simpl in H.
  - unfold sendMessage in H. destruct s as [s|], r as [r|], m as [m|]; try discriminate.
    destruct (index (agentComputationDelays k) s); simpl in H; [|discriminate].
    destruct (currentTime k) as [now|]; [|discriminate].
    destruct (index (agentLatency k) s) as [row|]; simpl in H; [|discriminate].
    destruct (index row r); simpl in H; [|discriminate].
    destruct (index (agents k) s); simpl in H; [|discriminate].
    destruct (index (agents k) r); simpl in H; [|discriminate].
    injection H as <-. split; assumption.
  - unfold setWakeup in H. destruct rt as [requested|]; [|discriminate].
    destruct s as [s|]; [|discriminate].
    destruct (currentTime k) as [now|].
    + destruct (requested <? now); [discriminate|]. injection H as <-. split; assumption.
    + injection H as <-. split; assumption.
  - unfold setAgentComputeDelay in H. destruct (Z.ltb_spec d 0); [discriminate|].
    destruct (index (agentComputationDelays k) s); simpl in H; [|discriminate].
    injection H as <-. split; [|assumption]. simpl. apply Forall_insert; assumption.
  - unfold delayAgent in H. destruct (Z.ltb_spec d 0); [discriminate|].
    injection H as <-. split; [assumption|]. simpl. lia.
Qed.

Lemma serve_all_delays_ok rqs : forall (k k' : kernel),
  serve_all noise_draw k rqs = Ok k' -> delays_ok k -> delays_ok k'.
Proof.
  induction rqs as [|rq more IH]; intros k k'; simpl.
  - intros [= <-]. auto.
  - destruct (serve noise_draw k rq) as [k1|] eqn:E; simpl; [|discriminate].
    intros H Hd. apply (IH _ _ H). eapply serve_delays_ok; eassumption.
Qed.

Lemma dispatch_delays_ok (k : kernel) agent ty msg now k' :
  dispatch k agent ty msg now = Ok k' -> delays_ok k -> delays_ok k'.
Proof.
  unfold Kernel.dispatch.
  destruct (index (agents k) agent) as [st|]; simpl; [|discriminate].
  destruct (match ty with
            | WAKEUP => agent_wakeup agent now st
            | MESSAGE => agent_receiveMessage agent now msg st
            end) as [st' rqs].
  intros H Hd. apply (serve_all_delays_ok _ _ _ H). exact Hd.
Qed.

(** *** Callbacks in order *)

Lemma chronological_per_agent_snoc (cs : list (@Call Msg)) c :
  chronological_per_agent cs ->
  (forall c1, In c1 cs -> c_agent c1 = c_agent c -> c_time c1 <= c_time c) ->
  chronological_per_agent (cs ++ [c]).
Proof.
  intros Hcs Hc i j c1 c2 Hij H1 H2 Ha.
  pose proof (lookup_lt_Some _ _ _ H2) as Hj. rewrite length_app in Hj. simpl in Hj.
  destruct (Nat.lt_ge_cases j (length cs)) as [Hlt|Hge].
  - rewrite lookup_app_l in H1 by lia. rewrite lookup_app_l in H2 by lia.
    exact (Hcs i j c1 c2 Hij H1 H2 Ha).
  - rewrite lookup_app_l in H1 by lia. rewrite lookup_app_r in H2 by lia.
    replace (j - length cs)%nat with 0%nat in H2 by lia. injection H2 as <-.
    apply Hc; [|exact Ha]. apply list_elem_of_In. eapply list_elem_of_lookup_2. exact H1.
Qed.

Lemma chronological_snoc (cs : list (@Call Msg)) c :
  chronological cs -> Forall (fun c1 => c_time c1 <= c_time c) cs ->
  chronological (cs ++ [c]).
Proof.
  intros Hcs Hc i j c1 c2 Hij H1 H2.
  pose proof (lookup_lt_Some _ _ _ H2) as Hj. rewrite length_app in Hj. simpl in Hj.
  destruct (Nat.lt_ge_cases j (length cs)) as [Hlt|Hge].
  - rewrite lookup_app_l in H1 by lia. rewrite lookup_app_l in H2 by lia.
    exact (Hcs i j c1 c2 Hij H1 H2).
  - rewrite lookup_app_l in H1 by lia. rewrite lookup_app_r in H2 by lia.
    replace (j - length cs)%nat with 0%nat in H2 by lia. injection H2 as <-.
    rewrite List.Forall_forall in Hc. apply Hc.
    apply list_elem_of_In. eapply list_elem_of_lookup_2. exact H1.
Qed.

(** One turn of the loop keeps every agent's clock at or after its callbacks,
    and enters a callback only at or after the recipient's clock. *)
Lemma step_clocks (k k' : kernel) :
  step k = Ok k' ->
  Forall (fun d => 0 <= d) (agentComputationDelays k) ->
  clocks_cover_calls k -> chronological_per_agent (calls k) ->
  Forall (fun d => 0 <= d) (agentComputationDelays k') /\
  clocks_cover_calls k' /\ chronological_per_agent (calls k').
Proof.
  intros H Hcd Hcov Hchr. unfold Kernel.step in H.
  destruct (get tail_ltb (messages k)) as [[[now [[agent ty] msg]] q]|] eqn:Hget; [|discriminate].
  fold (popped k now q) in H.
  cbn [agentCurrentTimes popped set_currentAgentAdditionalDelay
       set_currentTime set_messages] in H.
  destruct (agentCurrentTimes k !! agent) as [clock|] eqn:Hclock;
    [|rewrite (index_None _ _ Hclock) in H; discriminate].
  rewrite (index_Some _ _ _ Hclock) in H. cbn [mbind outcome_bind] in H.
  destruct (Z.ltb_spec now clock) as [Hlt|Hge].
  - injection H as <-. split; [exact Hcd|]. split; [exact Hcov|exact Hchr].
  - destruct (dispatch _ agent ty msg now) as [k1|] eqn:Ed; simpl in H; [|discriminate].
    pose proof (dispatch_delays_ok _ _ _ _ _ _ Ed) as Hd1.
    destruct Hd1 as [Hcd1 Hx1]; [split; [exact Hcd|simpl; lia]|].
    apply dispatch_calls in Ed as (Hc & _ & _ & Hclk). simpl in Hc, Hclk.
    destruct (index (agentCurrentTimes k1) agent) as [clock1|] eqn:E1; simpl in H; [|discriminate].
    destruct (index (agentComputationDelays k1) agent) as [cd|] eqn:E2; simpl in H; [|discriminate].
    injection H as <-. simpl.
    apply index_Ok in E1, E2.
    pose proof (lookup_lt_Some _ _ _ Hclock) as Hlen.
    rewrite Hclk, list_lookup_insert_eq in E1 by exact Hlen. injection E1 as <-.
    assert (Hcd0 : 0 <= cd) by (eapply (Forall_lookup_1 _ _ _ _ Hcd1); exact E2).
    split; [exact Hcd1|]. unfold clocks_cover_calls.
    cbn [calls agentCurrentTimes set_agentCurrentTimes]. rewrite Hc, Hclk. split.
    + intros c Hin. apply in_app_or in Hin as [Hin|[<-|[]]].
      * destruct (Hcov c Hin) as (clk & Hl & Hle).
        destruct (Nat.eq_dec (c_agent c) agent) as [Ea|Ea].
        -- rewrite Ea in Hl |- *. rewrite Hl in Hclock. injection Hclock as ->.
           rewrite list_lookup_insert_eq by (rewrite length_insert; exact Hlen).
           eexists; split; [reflexivity|]. lia.
        -- rewrite !list_lookup_insert_ne by congruence. eauto.
      * simpl. rewrite list_lookup_insert_eq by (rewrite length_insert; exact Hlen).
        eexists; split; [reflexivity|]. lia.
    + apply chronological_per_agent_snoc; [exact Hchr|].
      intros c1 Hin Ha. simpl in Ha |- *.
      destruct (Hcov c1 Hin) as (clk & Hl & Hle).
      rewrite Ha, Hclock in Hl. injection Hl as <-. lia.
Qed.

Lemma run_clocks fuel : forall (k k' : kernel),
  run fuel k = Ok k' ->
  Forall (fun d => 0 <= d) (agentComputationDelays k) ->
  clocks_cover_calls k -> chronological_per_agent (calls k) ->
  chronological_per_agent (calls k').
Proof.
  induction fuel as [|fuel IH]; intros k k'; simpl.
  - intros [= <-]. auto.
  - destruct (running k); [|intros [= <-]; auto].
    destruct (step k) as [k1|] eqn:Es; simpl; [|discriminate].
    intros Hrun Hcd Hcov Hchr.
    destruct (step_clocks _ _ Es Hcd Hcov Hchr) as (H1 & H2 & H3).
    eapply IH; eassumption.
Qed.

Lemma start_agents_delays_ok startTime sts : forall (k : kernel) i k',
  Kernel.start_agents noise_draw agent_kernelStarting k startTime i sts = Ok k' ->
  delays_ok k -> delays_ok k'.
Proof.
  induction sts as [|s more IH]; intros k i k'; simpl.
  - intros [= <-]. auto.
  - destruct (index (agents k) i) as [st|]; simpl; [|discriminate].
    destruct (agent_kernelStarting i startTime st) as [st' rqs].
    destruct (serve_all noise_draw _ rqs) as [k1|] eqn:E; simpl; [|discriminate].
    intros H Hd. apply (IH _ _ _ H). apply (serve_all_delays_ok _ _ _ E). exact Hd.
Qed.

(** *** The loop has a time *)

Lemma serve_has_time (k : kernel) rq now :
  currentTime k = Some now -> serve noise_draw k rq <> Raise NotATime.
Proof.
  intros Hn. destruct rq as [s r m d|s rt|s d|s d]; simpl.
  - unfold sendMessage. destruct s as [s|], r as [r|], m as [m|]; try discriminate.
    rewrite Hn. unfold index.
    destruct (agentComputationDelays k !! s); simpl; [|discriminate].
    destruct (agentLatency k !! s) as [row|]; simpl; [|discriminate].
    destruct (row !! r); simpl; [|discriminate].
    destruct (agents k !! s); simpl; [|discriminate].
    destruct (agents k !! r); simpl; discriminate.
  - unfold setWakeup. destruct rt as [requested|]; [|discriminate].
    destruct s as [s|]; [|discriminate].
    rewrite Hn. destruct (requested <? now); discriminate.
  - unfold setAgentComputeDelay, index. destruct (d <? 0); [discriminate|].
    destruct (agentComputationDelays k !! s); simpl; discriminate.
  - unfold delayAgent. destruct (d <? 0); discriminate.
Qed.

Lemma serve_all_has_time rqs : forall (k : kernel) now,
  currentTime k = Some now -> serve_all noise_draw k rqs <> Raise NotATime.
Proof.
  induction rqs as [|rq more IH]; intros k now Hn; simpl; [discriminate|].
  destruct (serve noise_draw k rq) as [k1|e] eqn:E; simpl.
  - apply (IH k1 now). destruct (serve_kept _ _ _ _ E) as (-> & _). exact Hn.
  - intros [= ->]. exact (serve_has_time k rq now Hn E).
Qed.

(** A turn of the loop never sends a message without a time: the clock is
    set from the entry popped before the recipient is called. *)
Lemma step_has_time (k : kernel) : step k <> Raise NotATime.
Proof.
  unfold Kernel.step. destruct (get tail_ltb (messages k)) as [[[now [[agent ty] msg]] q]|];
    [|discriminate].
  cbn [agentCurrentTimes set_currentAgentAdditionalDelay set_currentTime set_messages].
  destruct (index (agentCurrentTimes k) agent) as [clock|e0] eqn:Ec;
    cbn [mbind outcome_bind].
  2:{ unfold index in Ec. destruct (agentCurrentTimes k !! agent); congruence. }
  destruct (now <? clock); [discriminate|].
  match goal with |- context [Kernel.dispatch _ _ _ ?k0 _ _ _ _] => set (k1 := k0) end.
  destruct (Kernel.dispatch noise_draw agent_wakeup agent_receiveMessage k1 agent ty msg now)
    as [k2|e] eqn:Ed; cbn [mbind outcome_bind].
  - unfold index. destruct (agentCurrentTimes k2 !! agent); cbn [mbind outcome_bind]; [|discriminate].
    destruct (agentComputationDelays k2 !! agent); cbn [mbind outcome_bind]; discriminate.
  - intros [= ->]. revert Ed. unfold Kernel.dispatch, index.
    destruct (agents k1 !! agent) as [st|]; cbn [mbind outcome_bind]; [|discriminate].
    destruct (match ty with
              | WAKEUP => agent_wakeup agent now st
              | MESSAGE => agent_receiveMessage agent now msg st
              end) as [st' rqs].
    apply (serve_all_has_time rqs _ now). reflexivity.
Qed.

Lemma run_has_time fuel : forall (k : kernel), run fuel k <> Raise NotATime.
Proof.
  induction fuel as [|fuel IH]; intros k; simpl; [discriminate|].
  destruct (running k); [|discriminate].
  destruct (step k) as [k1|e] eqn:Es; simpl; [apply IH|].
  intros [= ->]. exact (step_has_time k Es).
Qed.

Lemma run_clocks_kept fuel : forall (k k' : kernel),
  run fuel k = Ok k' ->
  Forall (fun d => 0 <= d) (agentComputationDelays k) ->
  clocks_cover_calls k -> chronological_per_agent (calls k) ->
  Forall (fun d => 0 <= d) (agentComputationDelays k') /\ clocks_cover_calls k'.
Proof.
  induction fuel as [|fuel IH]; intros k k'; simpl.
  - intros [= <-]. auto.
  - destruct (running k); [|intros [= <-]; auto].
    destruct (step k) as [k1|] eqn:Es; simpl; [|discriminate].
    intros Hrun Hcd Hcov Hchr.
    destruct (step_clocks _ _ Es Hcd Hcov Hchr) as (H1 & H2 & H3).
    eapply IH; eassumption.
Qed.

(** X11.  An agent never goes back in time.  Take the event loop at any
    point where no computation delay is negative, every agent's clock is at
    or after the callbacks it has had, and the callbacks of each agent so
    far were entered with times that never decrease; at the start of the
    loop there has been no callback yet, and only the first condition says
    anything.  Then, whatever the agents ask of the kernel from inside
    [wakeup] and [receiveMessage], as long as the loop goes on without an
    exception all three stay true: of two entries into a callback of the
    same agent, the later one never carries the earlier time.  The loop
    itself never sends a message without a time. *)
Theorem agent_callbacks_are_chronological (k : kernel) fuel :
  Forall (fun d => 0 <= d) (agentComputationDelays k) ->
  clocks_cover_calls k ->
  chronological_per_agent (calls k) ->
  run fuel k <> Raise NotATime /\
  forall k', run fuel k = Ok k' ->
    chronological_per_agent (calls k') /\
    clocks_cover_calls k' /\
    Forall (fun d => 0 <= d) (agentComputationDelays k').
Proof.
  intros Hcd Hcov Hchr. split; [apply run_has_time|].
  intros k' Hrun. split; [eapply run_clocks; eassumption|].
  destruct (run_clocks_kept _ _ _ Hrun Hcd Hcov Hchr) as [H1 H2]. auto.
Qed.

(** *** Nothing waits in the past *)

Lemma key_le_time (e1 e2 : @Entry Msg) : key_le e1 e2 -> deliverAt e1 <= deliverAt e2.
Proof. unfold key_le. lia. Qed.

Lemma extract_min_subset rest : forall (e m : @Entry Msg) others,
  extract_min tail_ltb e rest = (m, others) ->
  forall x, In x others -> In x (e :: rest).
Proof.
  induction rest as [|e1 rest IH]; intros e m others H x Hx; simpl in H.
  - injection H as <- <-. destruct Hx.
  - destruct (extract_min tail_ltb e1 rest) as [m1 others1] eqn:E1.
    destruct (entry_ltb tail_ltb m1 e); injection H as <- <-.
    + destruct Hx as [<-|Hx]; [left; reflexivity|right]. eapply IH; eauto.
    + right. exact Hx.
Qed.

Hypothesis noise_nonneg : forall n, 0 <= noise_draw n.
Hypothesis wakeup_forward : forall i now st, Forall forward (snd (agent_wakeup i now st)).
Hypothesis receiveMessage_forward :
  forall i now m st, Forall forward (snd (agent_receiveMessage i now m st)).

Lemma serve_timely (k : kernel) rq k' :
  serve noise_draw k rq = Ok k' -> forward rq -> timely k -> timely k'.
Proof.
  intros H Hf (now & Ht & Hq & Hc & Hl & Hd).
  pose proof (serve_delays_ok _ _ _ H Hd) as Hd'.
  pose proof (serve_kept _ _ _ _ H) as (Ht' & _ & _ & Hc' & _).
  exists now. rewrite Ht', Hc'. split; [exact Ht|].
  destruct rq as [s r m d|s rt|s d|s d]; simpl in H, Hf.
  - unfold sendMessage in H. destruct s as [s|], r as [r|], m as [m|]; try discriminate.
    destruct (index (agentComputationDelays k) s) as [cd|] eqn:Ecd; simpl in H; [|discriminate].
    rewrite Ht in H.
    destruct (index (agentLatency k) s) as [row|] eqn:Erow; simpl in H; [|discriminate].
    destruct (index row r) as [latency|] eqn:Elat; simpl in H; [|discriminate].
    destruct (index (agents k) s); simpl in H; [|discriminate].
    destruct (index (agents k) r); simpl in H; [|discriminate].
    injection H as <-. simpl. split; [|auto].
    apply index_Ok in Ecd, Erow, Elat.
    destruct Hd as [Hcds Hx].
    pose proof (Forall_lookup_1 _ _ _ _ Hcds Ecd) as Hcd0.
    pose proof (Forall_lookup_1 _ _ _ _ (Forall_lookup_1 _ _ _ _ Hl Erow) Elat) as Hlat0.
    simpl in Hcd0, Hlat0.
    apply Forall_app; split; [exact Hq|]. constructor; [|constructor].
    unfold deliverAt. simpl. pose proof (noise_nonneg (draws k)). lia.
  - unfold setWakeup in H. destruct rt as [requested|]; [|discriminate].
    destruct s as [s|]; [|discriminate]. rewrite Ht in H.
    destruct (Z.ltb_spec requested now); [discriminate|]. injection H as <-. simpl.
    split; [|auto]. apply Forall_app; split; [exact Hq|]. constructor; [|constructor].
    unfold deliverAt. simpl. lia.
  - unfold setAgentComputeDelay in H. destruct (d <? 0); [discriminate|].
    destruct (index (agentComputationDelays k) s); simpl in H; [|discriminate].
    injection H as <-. simpl. auto.
  - unfold delayAgent in H. destruct (d <? 0); [discriminate|].
    injection H as <-. simpl. auto.
Qed.

Lemma serve_all_timely rqs : forall (k k' : kernel),
  serve_all noise_draw k rqs = Ok k' -> Forall forward rqs -> timely k -> timely k'.
Proof.
  induction rqs as [|rq more IH]; intros k k'; simpl.
  - intros [= <-]. auto.
  - destruct (serve noise_draw k rq) as [k1|] eqn:E; simpl; [|discriminate].
    intros H Hf Ht. apply Forall_cons_1 in Hf as [Hf1 Hf2].
    apply (IH _ _ H Hf2). eapply serve_timely; eassumption.
Qed.

(** One turn of the loop: the clock does not go back, nothing is left
    waiting in the past, and the callback entered, if any, is the latest. *)
Lemma step_timely (k k' : kernel) :
  step k = Ok k' -> timely k -> chronological (calls k) ->
  timely k' /\ chronological (calls k') /\
  (forall t t', currentTime k = Some t -> currentTime k' = Some t' -> t <= t').
Proof.
  intros H (t0 & Ht & Hq & Hc & Hl & [Hcds Hx]) Hchr. unfold Kernel.step in H.
  destruct (get tail_ltb (messages k)) as [[[now [[agent ty] msg]] q]|] eqn:Hget; [|discriminate].
  assert (Hpop : t0 <= now /\ Forall (fun e => now <= deliverAt e) q).
  { unfold get in Hget. destruct (messages k) as [|e rest]; [discriminate|].
    injection Hget as Hget.
    destruct (extract_min_least _ _ _ _ _ Hget) as (Hin & Hleast & _).
    rewrite List.Forall_forall in Hq. split; [apply (Hq _ Hin)|].
    apply List.Forall_forall. intros x Hxq.
    apply (extract_min_subset _ _ _ _ Hget) in Hxq.
    apply (key_le_time (now, (agent, ty, msg)) x). apply Hleast. exact Hxq. }
  destruct Hpop as [Hnow Hq'].
  assert (Hc' : Forall (fun c : @Call Msg => c_time c <= now) (calls k)).
  { eapply Forall_impl; [exact Hc|]. intros c Hle. simpl in Hle. lia. }
  fold (popped k now q) in H.
  cbn [agentCurrentTimes popped set_currentAgentAdditionalDelay
       set_currentTime set_messages] in H.
  destruct (agentCurrentTimes k !! agent) as [clock|] eqn:Hclock;
    [|rewrite (index_None _ _ Hclock) in H; discriminate].
  rewrite (index_Some _ _ _ Hclock) in H. cbn [mbind outcome_bind] in H.
  destruct (Z.ltb_spec now clock) as [Hlt|Hge].
  - injection H as <-. simpl. split; [|split; [exact Hchr|]].
    + exists now. split; [reflexivity|]. simpl. split; [|split; [exact Hc'|split; [exact Hl|]]].
      * apply Forall_app; split; [exact Hq'|]. constructor; [|constructor].
        unfold deliverAt. simpl. lia.
      * split; [exact Hcds|simpl; lia].
    + rewrite Ht. intros t t' [= <-] [= <-]. exact Hnow.
  - destruct (dispatch _ agent ty msg now) as [k1|] eqn:Ed; simpl in H; [|discriminate].
    pose proof Ed as Ed0. unfold Kernel.dispatch in Ed0.
    apply dispatch_calls in Ed as (Hcalls & Htime & _ & _). simpl in Hcalls, Htime.
    destruct (index (agents _) agent) as [st|]; simpl in Ed0; [|discriminate].
    assert (Hfw : Forall forward
                    (snd (match ty with
                          | WAKEUP => agent_wakeup agent now st
                          | MESSAGE => agent_receiveMessage agent now msg st
                          end))).
    { destruct ty; [apply receiveMessage_forward|apply wakeup_forward]. }
    destruct (match ty with
              | WAKEUP => agent_wakeup agent now st
              | MESSAGE => agent_receiveMessage agent now msg st
              end) as [st' rqs]. simpl in Hfw.
    apply serve_all_timely in Ed0; [|exact Hfw|].
    2:{ exists now. split; [reflexivity|]. simpl.
        split; [exact Hq'|]. split; [|split; [exact Hl|split; [exact Hcds|simpl; lia]]].
        apply Forall_app; split; [exact Hc'|]. constructor; [simpl; lia|constructor]. }
    destruct (index (agentCurrentTimes k1) agent) as [clock1|]; simpl in H; [|discriminate].
    destruct (index (agentComputationDelays k1) agent) as [cd|]; simpl in H; [|discriminate].
    injection H as <-. simpl. split; [exact Ed0|]. split.
    + rewrite Hcalls. apply chronological_snoc; [exact Hchr|]. simpl. exact Hc'.
    + rewrite Htime, Ht. intros t t' [= <-] [= <-]. exact Hnow.
Qed.

(** X12.  Time never runs backwards.  Suppose the latency noise is never
    negative and the agents never ask for a negative delay on a message.
    From a kernel in which nothing waits in the past, every run of the loop
    that returns leaves such a kernel again, its clock is not before the
    clock at the start, and all callbacks, of all agents together, have been
    entered in the order of their times. *)
Theorem time_never_runs_backwards fuel : forall (k k' : kernel),
  timely k -> chronological (calls k) ->
  run fuel k = Ok k' ->
  timely k' /\ chronological (calls k') /\
  (forall t t', currentTime k = Some t -> currentTime k' = Some t' -> t <= t').
Proof.
  induction fuel as [|fuel IH]; intros k k' Ht Hchr; simpl.
  - intros [= <-]. split; [exact Ht|]. split; [exact Hchr|].
    intros t t' -> [= <-]. lia.
  - destruct (running k).
    2:{ intros [= <-]. split; [exact Ht|]. split; [exact Hchr|].
        intros t t' -> [= <-]. lia. }
    destruct (step k) as [k1|] eqn:Es; simpl; [|discriminate].
    intros Hrun. destruct (step_timely _ _ Es Ht Hchr) as (Ht1 & Hchr1 & Hmono1).
    destruct (IH _ _ Ht1 Hchr1 Hrun) as (Ht' & Hchr' & Hmono').
    split; [exact Ht'|]. split; [exact Hchr'|].
    intros t t' Hk Hk'. destruct Ht1 as (t1 & Hk1 & _).
    specialize (Hmono1 _ _ Hk Hk1). specialize (Hmono' _ _ Hk1 Hk'). lia.
Qed.

End Time.

(** *** Staggered messages *)

Section Stagger.

Context {Msg St : Type}.
Variable noise_draw : nat -> Z.

Local Abbreviation kernel := (@Kernel.t Msg St).

Lemma sendMessage_Ok (k k' : kernel) s r m delay :
  sendMessage noise_draw k (Some s) (Some r) (Some m) delay = Ok k' ->
  exists now cd row latency,
    currentTime k = Some now /\ agentComputationDelays k !! s = Some cd /\
    agentLatency k !! s = Some row /\ row !! r = Some latency /\
    k' = set_draws
           (set_messages k
              (put (messages k)
                   (now + (cd + currentAgentAdditionalDelay k + delay)
                    + (latency + noise_draw (draws k)), (r, MESSAGE, Some m))))
           (S (draws k)).
Proof.
  unfold sendMessage.
  destruct (index (agentComputationDelays k) s) as [cd|] eqn:Ecd;
    cbn [mbind outcome_bind]; [|discriminate].
  destruct (currentTime k) as [now|] eqn:Enow; [|discriminate].
  destruct (index (agentLatency k) s) as [row|] eqn:Erow;
    cbn [mbind outcome_bind]; [|discriminate].
  destruct (index row r) as [latency|] eqn:Elat; cbn [mbind outcome_bind]; [|discriminate].
  destruct (index (agents k) s) as [st_s|] eqn:Es; cbn [mbind outcome_bind]; [|discriminate].
  destruct (index (agents k) r) as [st_r|] eqn:Er; cbn [mbind outcome_bind]; [|discriminate].
  intros [= <-]. apply index_Ok in Ecd, Erow, Elat.
  exists now, cd, row, latency. auto.
Qed.

(** X13.  [delayAgent] staggers the messages of one callback.  When an agent
    sends a message, asks for an additional delay [d] and sends a second
    message to the same recipient, and all three calls return, then [d] was
    not negative, both messages are appended to the queue in that order, and
    the second is due exactly [d] later than the first, up to the difference
    of the two latency noise draws; the agent's computation delays are not
    touched. *)
Theorem delayAgent_staggers_messages (k k' : kernel) s r m1 m2 delay d :
  serve_all noise_draw k
    [SendMessage (Some s) (Some r) (Some m1) delay;
     DelayAgent s d;
     SendMessage (Some s) (Some r) (Some m2) delay] = Ok k' ->
  0 <= d /\
  agentComputationDelays k' = agentComputationDelays k /\
  currentAgentAdditionalDelay k' = currentAgentAdditionalDelay k + d /\
  exists t,
    messages k' =
      messages k ++
      [(t, (r, MESSAGE, Some m1));
       (t + d + (noise_draw (S (draws k)) - noise_draw (draws k)), (r, MESSAGE, Some m2))].
Proof.
  cbn [serve_all serve].
  destruct (sendMessage noise_draw k (Some s) (Some r) (Some m1) delay) as [k1|] eqn:E1;
    cbn [mbind outcome_bind]; [|discriminate].
  unfold delayAgent. destruct (Z.ltb_spec d 0) as [Hneg|Hd]; cbn [mbind outcome_bind];
    [discriminate|].
  destruct (sendMessage noise_draw _ (Some s) (Some r) (Some m2) delay) as [k3|] eqn:E3;
    cbn [mbind outcome_bind]; [|discriminate].
  intros [= <-].
  apply sendMessage_Ok in E1 as (now & cd & row & latency & Hnow & Hcd & Hrow & Hlat & ->).
  apply sendMessage_Ok in E3 as (now' & cd' & row' & latency' & Hnow' & Hcd' & Hrow' & Hlat' & ->).
  cbn [agentComputationDelays currentTime agentLatency agents draws messages
       currentAgentAdditionalDelay set_currentAgentAdditionalDelay set_draws set_messages]
    in Hnow', Hcd', Hrow', Hlat' |- *.
  rewrite Hnow in Hnow'. injection Hnow' as <-.
  rewrite Hcd in Hcd'. injection Hcd' as <-.
  rewrite Hrow in Hrow'. injection Hrow' as <-.
  rewrite Hlat in Hlat'. injection Hlat' as <-.
  split; [exact Hd|]. split; [reflexivity|]. split; [reflexivity|].
  eexists. unfold put. rewrite <- app_assoc. cbn [app]. do 3 f_equal. f_equal. lia.
Qed.

End Stagger.

(** *** Scenarios for time *)

Lemma agent_callbacks_are_chronological_witness :
  run_idle 3 Scenario.busy_kernel <> Raise NotATime /\
  forall k', run_idle 3 Scenario.busy_kernel = Ok k' ->
    chronological_per_agent (calls k') /\
    clocks_cover_calls k' /\
    Forall (fun d => 0 <= d) (agentComputationDelays k').
Proof.
  apply (agent_callbacks_are_chronological Scenario.no_tail_order Scenario.no_noise
           Scenario.idle Scenario.idle_receive Scenario.busy_kernel 3%nat).
  - repeat constructor. simpl. lia.
  - intros c Hin. destruct Hin.
  - intros i j c1 c2 _ H1. discriminate.
Defined.

Lemma time_never_runs_backwards_witness :
  exists k', run_fan 3 Scenario.fan_kernel = Ok k' /\
    timely k' /\ chronological (calls k') /\
    (forall t t', currentTime Scenario.fan_kernel = Some t -> currentTime k' = Some t' ->
                  t <= t').
Proof.
  eexists. split; [vm_compute; reflexivity|].
  apply (time_never_runs_backwards Scenario.no_tail_order Scenario.no_noise
           Scenario.send_to_1_then_0 Scenario.idle_receive) with (fuel := 3%nat).
  - intros n. unfold Scenario.no_noise. lia.
  - intros i now st. simpl. repeat constructor; simpl; lia.
  - intros i now m st. simpl. constructor.
  - exists 0. split; [reflexivity|]. simpl.
    split; [repeat constructor; unfold deliverAt; simpl; lia|].
    split; [constructor|]. split; [repeat constructor; lia|].
    split; simpl; [repeat constructor; lia|lia].
  - intros i j c1 c2 _ H1. discriminate.
  - vm_compute. reflexivity.
Defined.

Lemma delayAgent_staggers_messages_witness :
  exists k',
    serve_all Scenario.no_noise Scenario.fan_kernel_at_100
      [SendMessage (Some 2%nat) (Some 1%nat) (Some 11%nat) 0;
       DelayAgent 2 10;
       SendMessage (Some 2%nat) (Some 1%nat) (Some 12%nat) 0] = Ok k' /\
    0 <= 10 /\
    agentComputationDelays k' = agentComputationDelays Scenario.fan_kernel_at_100 /\
    currentAgentAdditionalDelay k' =
      currentAgentAdditionalDelay Scenario.fan_kernel_at_100 + 10 /\
    exists t,
      messages k' =
        messages Scenario.fan_kernel_at_100 ++
        [(t, (1%nat, MESSAGE, Some 11%nat));
         (t + 10 + (Scenario.no_noise (S (draws Scenario.fan_kernel_at_100))
                    - Scenario.no_noise (draws Scenario.fan_kernel_at_100)),
          (1%nat, MESSAGE, Some 12%nat))].
Proof.
  eexists. split; [vm_compute; reflexivity|].
  apply (delayAgent_staggers_messages Scenario.no_noise Scenario.fan_kernel_at_100 _
           2%nat 1%nat 11%nat 12%nat 0 10).
  vm_compute. reflexivity.
Defined.

End KernelFacts.
